(** * Full-page screenshot extension: scroll-container detection,
      capture orchestration and image stitching.

    Shallow embedding of [content_script.js], [background.js] and
    [result.js].

    Numbers.  A JavaScript number that holds a length, a scroll offset or the
    device pixel ratio is an exact rational ([Q]); the code only adds,
    multiplies and compares such values, and the rounding of IEEE doubles is
    not modelled.  DOM attributes that are integers by their IDL type
    ([clientWidth], [clientHeight], [scrollHeight], [innerWidth],
    [innerHeight], the natural size of an image) are [Z].  Equality of
    rationals is [Qeq] (written [==]); [===] on numbers is [Qeq_bool]. *)

From Stdlib Require Import QArith ZArith List String Bool Lia Qround Sorted.
From stdpp Require Import base gmap strings list.

(** ** JavaScript number helpers *)

Module Js.

(** [a < b] on numbers. *)
Definition lt (a b : Q) : bool := negb (Qle_bool b a).

(** [a > b] on numbers. *)
Definition gt (a b : Q) : bool := lt b a.

(** [a >= b] on numbers. *)
Definition ge (a b : Q) : bool := Qle_bool b a.

(** [a <= b] on numbers. *)
Definition le (a b : Q) : bool := Qle_bool a b.

(** [v || d] for a property that is a number or missing: [undefined] and [0]
    are falsy. *)
Definition orElse (v : option Q) (d : Q) : Q :=
  match v with
  | Some x => if Qeq_bool x 0 then d else x
  | None => d
  end.

End Js.

(** ** Data shared by the orchestrator and the stitcher *)

(** One entry of [state.images]: [{ y: actualY, dataUrl: dataUrl }]. *)
Record Frame := mkFrame { frame_y : Q; frame_dataUrl : string }.

(** ** Messages between the service worker and the content script *)

Module Protocol.

(** The value of [Math.min(Math.round(x), 100)]: a number, [NaN] or
    [-Infinity]. *)
Inductive Percent := PNum (q : Q) | PNaN | PNegInfinity.

(** The requests the content script's listener handles. *)
Inductive Message :=
| INIT_CAPTURE
| SCROLL_TO (y : Q)
| UPDATE_PROGRESS (percent : Percent)
| RESTORE (originalScrollY : Q).

(** The requests of a capture step. *)
Definition isStepMessage (m : Message) : Prop :=
  match m with
  | SCROLL_TO _ | UPDATE_PROGRESS _ => True
  | _ => False
  end.

(** The response to [INIT_CAPTURE]. *)
Record Metrics := mkMetrics {
  m_fullHeight : Q;
  m_visibleHeight : Q;
  m_devicePixelRatio : Q;
  m_originalScrollY : Q
}.

(** The response to [SCROLL_TO]: [{ status: 'scrolled', actualY }];
    [sr_actualY = None] when the property is [undefined]. *)
Record ScrollResponse := mkScrollResponse { sr_actualY : option Q }.

End Protocol.

(** ** result.js: the stitcher *)

Module Stitcher.

(** What [chrome.storage.local.get('capturedData')] may hold under the key:
    any of the properties the stitcher reads can be missing. *)
Record CapturedData := mkCapturedData {
  cd_images : option (list Frame);
  cd_devicePixelRatio : option Q;
  cd_overlap : option Q
}.

(** A loaded [Image]: its source and natural size in device pixels. *)
Record Image := mkImage { img_src : string; img_width : Z; img_height : Z }.

(** What [loadImage] resolves to: [{ img, y }]. *)
Record Loaded := mkLoaded { ld_img : Image; ld_y : Q }.

(** Calls on the 2D context.
    [DrawImage3 img dx dy] is [ctx.drawImage(img, dx, dy)];
    [DrawImage9 img sx sy sw sh dx dy dw dh] is the nine-argument form. *)
Inductive DrawOp :=
| DrawImage3 (img : Image) (dx dy : Q)
| DrawImage9 (img : Image) (sx sy sw sh dx dy dw dh : Q).

(** The argument of [updateStatus], one constructor per message of the
    source. *)
Inductive Status :=
| LoadingCapturedData          (* 'Loading captured data...' *)
| NoDataFound                  (* 'No data found in storage.' *)
| FoundImages (n : nat)        (* `Found ${n} images. Processing...` *)
| LoadingImages                (* 'Loading images...' *)
| LoadingImage (i n : nat)     (* `Loading image ${i}/${n}...` *)
| FailedToLoadImages           (* 'Failed to load images.' *)
| StitchingImages              (* 'Stitching images...' *)
| Done                         (* 'Done!' *)
| ErrorLoadingAt (y : Q).      (* 'Error: ' + `Failed to load image at y=${y}` *)

(** The result page after the [DOMContentLoaded] handler has run.
    [pg_status] lists the calls of [updateStatus], oldest first (the last one
    is what [statusDiv] shows); [pg_canvasWidth] and [pg_canvasHeight] are the
    values assigned to [canvas.width] and [canvas.height], [None] when the
    handler never assigned them; [pg_draws] are the calls on [ctx] in order. *)
Record ResultPage := mkResultPage {
  pg_status : list Status;
  pg_canvasWidth : option Z;
  pg_canvasHeight : option Q;
  pg_draws : list DrawOp;
  pg_statusHidden : bool;
  pg_downloadBound : bool
}.

Section WithDecoder.

(** The browser's image decoder: the natural size of the image a data URL
    encodes, [None] when [img.onerror] fires. *)
Variable decode : string -> option (Z * Z).

(** [loadImage(url, y)]: resolves with [{ img, y }], rejects on a load
    error ([inr y] carries the [y] of the rejection's message). *)
Definition loadImage (url : string) (y : Q) : Loaded + Q :=
  match decode url with
  | Some (w, h) => inl (mkLoaded (mkImage url w h) y)
  | None => inr y
  end.

(** [Promise.all(state.images.map(...))]: every image loaded, in order, or
    the rejection.  When several images fail the model reports the first one
    in list order. *)
Fixpoint loadAll (imgs : list Frame) : list Loaded + Q :=
  match imgs with
  | [] => inl []
  | f :: rest =>
      match loadImage (frame_dataUrl f) (frame_y f) with
      | inr y => inr y
      | inl l =>
          match loadAll rest with
          | inr y => inr y
          | inl ls => inl (l :: ls)
          end
      end
  end.

(** The [updateStatus] calls made inside the [map] callback. *)
Definition loadingStatuses (n : nat) : list Status :=
  map (fun index => LoadingImage (index + 1) n) (seq 0 n).

(** [lastImg.y * scale + lastImg.img.height]. *)
Definition totalHeight (scale : Q) (lastImg : Loaded) : Q :=
  (ld_y lastImg * scale + inject_Z (img_height (ld_img lastImg)))%Q.

(** The body of [loadedImages.forEach((item, index) => ...)]. *)
Definition drawItem (scale overlap : Q) (index : nat) (item : Loaded)
  : list DrawOp :=
  let img := ld_img item in
  let drawY := (ld_y item * scale)%Q in
  if Nat.eqb index 0 then
    [DrawImage3 img 0 drawY]
  else
    let cropY := (overlap * scale)%Q in
    let cropHeight := (inject_Z (img_height img) - cropY)%Q in
    if Js.gt cropHeight 0 then
      [DrawImage9 img
         0 cropY (inject_Z (img_width img)) cropHeight
         0 (drawY + cropY)%Q (inject_Z (img_width img)) cropHeight]
    else [].

Definition drawAll (scale overlap : Q) (loadedImages : list Loaded)
  : list DrawOp :=
  concat (imap (drawItem scale overlap) loadedImages).

(** The page when the handler returns early after the given status calls:
    the canvas is untouched. *)
Definition stopped (statuses : list Status) : ResultPage :=
  mkResultPage statuses None None [] false false.

(** The [DOMContentLoaded] handler, from the value stored under
    ['capturedData'] ([None]: nothing stored). *)
Definition onDOMContentLoaded (capturedData : option CapturedData)
  : ResultPage :=
  match capturedData with
  | None => stopped [LoadingCapturedData; NoDataFound]
  | Some state =>
      match cd_images state with
      | None | Some [] => stopped [LoadingCapturedData; NoDataFound]
      | Some images =>
          let n := length images in
          let scale := Js.orElse (cd_devicePixelRatio state) 1 in
          let overlap := Js.orElse (cd_overlap state) 0 in
          let log :=
            [LoadingCapturedData; FoundImages n; LoadingImages]
              ++ loadingStatuses n in
          match loadAll images with
          | inr y => stopped (log ++ [ErrorLoadingAt y])
          | inl loadedImages =>
              match loadedImages, last loadedImages with
              | first :: _, Some lastImg =>
                  mkResultPage
                    (log ++ [StitchingImages; Done])
                    (Some (img_width (ld_img first)))
                    (Some (totalHeight scale lastImg))
                    (drawAll scale overlap loadedImages)
                    true true
              | _, _ => stopped (log ++ [FailedToLoadImages])
              end
          end
      end
  end.

End WithDecoder.

(** *** The picture a draw call paints (HTML canvas [drawImage])

    [paints op r d]: source row [r] of the image is copied to destination
    row [d] of the canvas.  The three-argument form copies every row of the
    image; the nine-argument form copies the rows of the source rectangle
    (here always with [dh = sh], so without vertical scaling). *)
Definition paints (op : DrawOp) (r d : Q) : Prop :=
  match op with
  | DrawImage3 img _ dy =>
      (0 <= r /\ r < inject_Z (img_height img) /\ d == dy + r)%Q
  | DrawImage9 img _ sy _ sh _ dy _ dh =>
      (sh == dh /\ sy <= r /\ r < sy + sh /\ d == dy + (r - sy))%Q
  end.

End Stitcher.

(** ** background.js: the capture orchestrator *)

Module Orchestrator.

Import Protocol.

Definition OVERLAP : Q := 80.
Definition MAX_STEPS : nat := 50.

(** One entry of [captureState]; [prevY = None] is [undefined]. *)
Record Session := mkSession {
  images : list Frame;
  fullHeight : Q;
  visibleHeight : Q;
  devicePixelRatio : Q;
  originalScrollY : Q;
  currentY : Q;
  steps : nat;
  overlap : Q;
  prevY : option Q
}.

(** The object literal of [startCapture]. *)
Definition newSession (m : Metrics) : Session :=
  mkSession [] (m_fullHeight m) (m_visibleHeight m) (m_devicePixelRatio m)
    (m_originalScrollY m) 0 0 OVERLAP None.

(** [state.steps++] *)
Definition incrSteps (s : Session) : Session :=
  mkSession (images s) (fullHeight s) (visibleHeight s) (devicePixelRatio s)
    (originalScrollY s) (currentY s) (S (steps s)) (overlap s) (prevY s).

(** [state.images.push(f)] *)
Definition pushImage (f : Frame) (s : Session) : Session :=
  mkSession (images s ++ [f]) (fullHeight s) (visibleHeight s)
    (devicePixelRatio s) (originalScrollY s) (currentY s) (steps s)
    (overlap s) (prevY s).

(** [state.prevY = actualY; state.currentY = nextY] *)
Definition advance (actualY nextY : Q) (s : Session) : Session :=
  mkSession (images s) (fullHeight s) (visibleHeight s) (devicePixelRatio s)
    (originalScrollY s) nextY (steps s) (overlap s) (Some actualY).

(** [Math.round(x)] on a finite [x]: the nearest integer, halves upwards. *)
Definition round (x : Q) : Q := inject_Z (Qfloor (x + (1 # 2))).

(** [Math.min(Math.round((actualY / fullHeight) * 100), 100)]; a division by
    zero gives [NaN] (0/0), [Infinity] or [-Infinity]. *)
Definition percentOf (actualY fullHeight : Q) : Percent :=
  if Qeq_bool fullHeight 0 then
    if Qeq_bool actualY 0 then PNaN
    else if Js.gt actualY 0 then PNum 100
    else PNegInfinity
  else
    let r := round (actualY / fullHeight * 100) in
    PNum (if Js.le r 100 then r else 100).

(** Console messages of the orchestrator. *)
Inductive LogMessage :=
| ErrorStartingCapture     (* 'Error starting capture:' *)
| FailedToInitialize       (* 'Failed to initialize capture' *)
| ReachedMaxSteps          (* 'Reached max steps, finishing capture.' *)
| CaptureFailed            (* 'Capture failed:' *)
| ScrollStuck              (* 'Scroll stuck, finishing.' *)
| ErrorSavingToStorage.    (* 'Error saving to storage:' *)

(** What the service worker does to the outside, in order. *)
Inductive Event :=
| ExecuteScript (tabId : nat)
| SendMessage (tabId : nat) (message : Message)
| CaptureVisibleTab
| StorageSet (capturedData : Session)
| TabsCreate                       (* chrome.tabs.create({ url: 'result.html' }) *)
| Alert                            (* alert('Image too large ...') *)
| Console (m : LogMessage)
| UncaughtTypeError                (* a property read on [undefined] *)
| UncaughtReferenceError.          (* [alert] is not defined *)

(** What the callback of [captureVisibleTab] sees. *)
Record CaptureResult := mkCaptureResult {
  cr_lastError : bool;
  cr_dataUrl : option string
}.

(** The outside world, as the orchestrator meets it.  The answers to a scroll
    request and to a capture depend on the number of the step that asks
    ([state.steps] after its increment) and on the offset asked for.
    [alertDefined] says whether the global [alert] exists where the script
    runs (it does not in a service worker). *)
Record Env := mkEnv {
  onExecuteScript : bool;                         (* resolves? *)
  onInit : option Metrics;                        (* [None]: no response *)
  onScrollTo : nat -> Q -> option ScrollResponse; (* [None]: no response *)
  onCapture : nat -> CaptureResult;
  onStorageSet : Session -> bool;                 (* resolves? *)
  alertDefined : bool
}.

(** The service worker: the global [captureState] and what it has done. *)
Record World := mkWorld {
  captureState : gmap nat Session;
  trace : list Event
}.

Definition emit (e : Event) (w : World) : World :=
  mkWorld (captureState w) (trace w ++ [e]).

(** A write into the [state] object, which [captureState[tabId]] names. *)
Definition store (tabId : nat) (s : Session) (w : World) : World :=
  mkWorld (<[tabId := s]> (captureState w)) (trace w).

(** [response && response.actualY !== undefined ? response.actualY
     : state.currentY] *)
Definition actualYOf (response : option ScrollResponse) (currentY : Q) : Q :=
  match response with
  | Some r =>
      match sr_actualY r with
      | Some y => y
      | None => currentY
      end
  | None => currentY
  end.

(** The data URL when [chrome.runtime.lastError || !dataUrl] is false. *)
Definition captured (r : CaptureResult) : option string :=
  if cr_lastError r then None
  else
    match cr_dataUrl r with
    | Some url => if String.eqb url EmptyString then None else Some url
    | None => None
    end.

(** [state.prevY !== undefined && actualY === state.prevY] *)
Definition isStuck (prevY : option Q) (actualY : Q) : bool :=
  match prevY with
  | Some p => Qeq_bool actualY p
  | None => false
  end.

Definition finishCapture (env : Env) (tabId : nat) (w : World) : World :=
  match captureState w !! tabId with
  | None => emit UncaughtTypeError w
  | Some state =>
      let w := emit (SendMessage tabId (RESTORE (originalScrollY state))) w in
      let w := emit (StorageSet state) w in
      if onStorageSet env state then
        let w := emit TabsCreate w in
        mkWorld (delete tabId (captureState w)) (trace w)
      else
        let w := emit (Console ErrorSavingToStorage) w in
        if alertDefined env then
          let w := emit Alert w in
          mkWorld (delete tabId (captureState w)) (trace w)
        else emit UncaughtReferenceError w
  end.

(** One call of [captureLoop], up to its tail call: the world after it and
    whether [captureLoop(tabId)] is called again. *)
Definition captureLoopBody (env : Env) (tabId : nat) (w : World)
  : World * bool :=
  match captureState w !! tabId with
  | None => (w, false)
  | Some state =>
      if (MAX_STEPS <=? steps state)%nat then
        (finishCapture env tabId (emit (Console ReachedMaxSteps) w), false)
      else
        let state := incrSteps state in
        let w := store tabId state w in
        let w := emit (SendMessage tabId (SCROLL_TO (currentY state))) w in
        let response := onScrollTo env (steps state) (currentY state) in
        let actualY := actualYOf response (currentY state) in
        let w := emit CaptureVisibleTab w in
        match captured (onCapture env (steps state)) with
        | None =>
            (finishCapture env tabId (emit (Console CaptureFailed) w), false)
        | Some dataUrl =>
            let state := pushImage (mkFrame actualY dataUrl) state in
            let w := store tabId state w in
            let percent := percentOf actualY (fullHeight state) in
            let w := emit (SendMessage tabId (UPDATE_PROGRESS percent)) w in
            let nextY := (actualY + visibleHeight state - OVERLAP)%Q in
            if isStuck (prevY state) actualY then
              (finishCapture env tabId (emit (Console ScrollStuck) w), false)
            else
              let state := advance actualY nextY state in
              let w := store tabId state w in
              if Js.ge (actualY + visibleHeight state)%Q (fullHeight state)
              then (finishCapture env tabId w, false)
              else (w, true)
        end
  end.

(** [captureLoop]: [None] when [fuel] calls were not enough. *)
Fixpoint captureLoop (fuel : nat) (env : Env) (tabId : nat) (w : World)
  : option World :=
  match fuel with
  | O => None
  | S fuel' =>
      let (w', again) := captureLoopBody env tabId w in
      if again then captureLoop fuel' env tabId w' else Some w'
  end.

Definition startCapture (fuel : nat) (env : Env) (tabId : nat) (w : World)
  : option World :=
  let w := emit (ExecuteScript tabId) w in
  if onExecuteScript env then
    let w := emit (SendMessage tabId INIT_CAPTURE) w in
    match onInit env with
    | None => Some (emit (Console FailedToInitialize) w)
    | Some response =>
        captureLoop fuel env tabId (store tabId (newSession response) w)
    end
  else Some (emit (Console ErrorStartingCapture) w).

(** What the result page reads back from storage. *)
Definition toCapturedData (s : Session) : Stitcher.CapturedData :=
  Stitcher.mkCapturedData (Some (images s)) (Some (devicePixelRatio s))
    (Some (overlap s)).

(** Trace observations. *)
Definition isScrollTo (e : Event) : bool :=
  match e with SendMessage _ (SCROLL_TO _) => true | _ => false end.

Definition isCapture (e : Event) : bool :=
  match e with CaptureVisibleTab => true | _ => false end.

Definition scrollRequests (t : list Event) : nat :=
  length (List.filter isScrollTo t).

Definition captureRequests (t : list Event) : nat :=
  length (List.filter isCapture t).

End Orchestrator.

(** ** content_script.js: the locator and the page agent *)

Module ContentScript.

Import Protocol.

(** [el.getBoundingClientRect()] *)
Record Rect := mkRect {
  rect_top : Q;
  rect_bottom : Q;
  rect_left : Q;
  rect_right : Q;
  rect_width : Q;
  rect_height : Q
}.

(** An element as the script sees it.  The computed style ([el_display] to
    [el_position]), the box and the client and scroll sizes are those of the
    layout at the time of the scan, until the browser lays the page out
    again (see [Browser] below); the inline style properties are what the
    script writes; the scroll offset is the one at the last read or write
    of it. *)
Record Element := mkElement {
  el_id : string;                 (* el.id *)
  el_display : string;            (* getComputedStyle(el).display *)
  el_visibility : string;         (* getComputedStyle(el).visibility *)
  el_opacity : string;            (* getComputedStyle(el).opacity *)
  el_overflowY : string;          (* getComputedStyle(el).overflowY *)
  el_position : string;           (* getComputedStyle(el).position *)
  el_rect : Rect;
  el_clientWidth : Z;
  el_clientHeight : Z;
  el_scrollHeight : Z;
  el_styleVisibility : string;    (* el.style.visibility *)
  el_stylePosition : string;      (* el.style.position *)
  el_styleOverflow : string;      (* el.style.overflow *)
  el_scrollTop : Q
}.

(** The document and its window.  An element is named by its place in
    [elements], which is [document.querySelectorAll('*')] in document
    order. *)
Record Document := mkDocument {
  elements : list Element;
  documentElement : nat;
  scrollingElement : option nat;  (* [None]: [null] *)
  innerWidth : Z;
  innerHeight : Z;
  devicePixelRatio : Q;
  scrollY : Q;                    (* window.scrollY *)
  body : option nat               (* document.body; [None]: [null] *)
}.

(** *** findScrollableElement *)

Definition isScrollable (el : Element) : bool :=
  let hasScrollableOverflow :=
    bool_decide (el_overflowY el ∈ ["auto"; "scroll"; "overlay"]) in
  hasScrollableOverflow && (el_scrollHeight el >? el_clientHeight el)%Z.

Definition isVisible (doc : Document) (el : Element) : bool :=
  if String.eqb (el_display el) "none"
     || String.eqb (el_visibility el) "hidden"
     || String.eqb (el_opacity el) "0"
  then false
  else
    let rect := el_rect el in
    if Qeq_bool (rect_width rect) 0 || Qeq_bool (rect_height rect) 0
    then false
    else if Js.ge (rect_top rect) (inject_Z (innerHeight doc))
            || Js.le (rect_bottom rect) 0
            || Js.ge (rect_left rect) (inject_Z (innerWidth doc))
            || Js.le (rect_right rect) 0
    then false
    else true.

(** The callback of [filter]. *)
Definition isCandidate (doc : Document) (el : Element) : bool :=
  if Js.lt (inject_Z (el_clientWidth el)) (inject_Z (innerWidth doc) * (1 # 2))
     || Js.lt (inject_Z (el_clientHeight el))
              (inject_Z (innerHeight doc) * (1 # 2))
  then false
  else isVisible doc el && isScrollable el.

(** [Array.prototype.sort] with a comparator.  The sort is stable, and for
    a comparator that orders by a key every stable sort returns the same
    array; the model builds it by insertion from the right: [x], which comes
    before all of [l] in the input, is placed before the first [y] with
    [compare x y <= 0]. *)
Fixpoint insertSorted {A} (compare : A -> A -> Z) (x : A) (l : list A)
  : list A :=
  match l with
  | [] => [x]
  | y :: l' =>
      if (compare x y <=? 0)%Z then x :: l
      else y :: insertSorted compare x l'
  end.

Definition sort {A} (compare : A -> A -> Z) (l : list A) : list A :=
  foldr (insertSorted compare) [] l.

(** [el.scrollHeight] of the element a reference names. *)
Definition scrollHeightOf (doc : Document) (i : nat) : Z :=
  match elements doc !! i with
  | Some el => el_scrollHeight el
  | None => 0
  end.

(** The elements that pass the filter, in document order. *)
Definition survivors (doc : Document) : list nat :=
  omap (fun '(i, el) => if isCandidate doc el then Some i else None)
       (imap pair (elements doc)).

(** What [candidates.push(document.scrollingElement)] adds. *)
Definition scrollingRoot (doc : Document) : list nat :=
  match scrollingElement doc with
  | Some r =>
      match elements doc !! r with
      | Some el =>
          if (el_scrollHeight el >? el_clientHeight el)%Z then [r] else []
      | None => []
      end
  | None => []
  end.

(** [candidates] before the sort. *)
Definition candidates (doc : Document) : list nat :=
  survivors doc ++ scrollingRoot doc.

Definition findScrollableElement (doc : Document) : nat :=
  let sorted :=
    sort (fun a b => (scrollHeightOf doc b - scrollHeightOf doc a)%Z)
         (candidates doc) in
  match sorted with
  | chosen :: _ => chosen
  | [] => documentElement doc
  end.

(** *** The page agent *)

(** A value of [originalStyles]. *)
Record SavedStyle := mkSavedStyle {
  sv_visibility : string;
  sv_position : string
}.

(** What the script has made of an element: its id and its inline style. *)
Record Styled := mkStyled {
  st_id : string;                 (* el.id *)
  st_visibility : string;         (* el.style.visibility *)
  st_position : string;           (* el.style.position *)
  st_overflow : string            (* el.style.overflow *)
}.

Definition styledOf (el : Element) : Styled :=
  mkStyled (el_id el) (el_styleVisibility el) (el_stylePosition el)
    (el_styleOverflow el).

(** The elements of the document with the inline styles they carry. *)
Definition styled (doc : Document) : list Styled :=
  styledOf <$> elements doc.

(** The browser that shows the page.  What an [Element] of the scanned
    document records of the layout (computed style, box, sizes) is what the
    scan found.  Once the script has appended elements or written inline
    styles, the browser lays the page out again, and the scan no longer says
    what it reports: a box whose overflow was reset may have stopped
    scrolling, a content height may have changed.  [Browser] gives these
    answers, for the page with the elements and inline styles it has then:
    - [laidOut s i]: the computed style, the box and the sizes of element
      [i] (the other fields of the result are not used);
    - [scrollTopAfter s i y]: [el.scrollTop] of element [i] after
      [el.scrollTop = y];
    - [scrollYAfter s y]: [window.scrollY] after [window.scrollTo(0, y)]. *)
Record Browser := mkBrowser {
  laidOut : list Styled -> nat -> Element;
  scrollTopAfter : list Styled -> nat -> Q -> Q;
  scrollYAfter : list Styled -> Q -> Q
}.

(** How a call of a function of the script ends. *)
Inductive Completion :=
| Completed
| ThrewTypeError.               (* a property read on [null] *)

(** The script's variables and the page.  [originalStyles] is a [Map]: an
    association list in insertion order, one entry per key.  A reference
    past the end of [elements] names an element that is not in the document
    (created and never appended).  [progressBarWidth] is the percentage in
    [progressBarFill.style.width]. *)
Record Agent := mkAgent {
  page : Document;
  originalStyles : list (nat * SavedStyle);
  originalScrollY : Q;
  scrollContainer : option nat;
  progressBarContainer : option nat;
  progressBarFill : option nat;
  progressBarWidth : option Percent
}.

(** The script's state when it is injected. *)
Definition injected (doc : Document) : Agent :=
  mkAgent doc [] 0 None None None None.

Definition withPage (doc : Document) (a : Agent) : Agent :=
  mkAgent doc (originalStyles a) (originalScrollY a) (scrollContainer a)
    (progressBarContainer a) (progressBarFill a) (progressBarWidth a).

Definition withElements (els : list Element) (doc : Document) : Document :=
  mkDocument els (documentElement doc) (scrollingElement doc)
    (innerWidth doc) (innerHeight doc) (devicePixelRatio doc) (scrollY doc)
    (body doc).

(** *** What a write leaves in an element *)

(** The inline visibility [v]. *)
Definition setStyleVisibility (v : string) (el : Element) : Element :=
  mkElement (el_id el) (el_display el) (el_visibility el) (el_opacity el)
    (el_overflowY el) (el_position el) (el_rect el) (el_clientWidth el)
    (el_clientHeight el) (el_scrollHeight el) v (el_stylePosition el)
    (el_styleOverflow el) (el_scrollTop el).

(** The inline overflow [v]. *)
Definition inlineOverflow (v : string) (el : Element) : Element :=
  mkElement (el_id el) (el_display el) (el_visibility el) (el_opacity el)
    (el_overflowY el) (el_position el) (el_rect el) (el_clientWidth el)
    (el_clientHeight el) (el_scrollHeight el) (el_styleVisibility el)
    (el_stylePosition el) v (el_scrollTop el).

(** The scroll offset [y]. *)
Definition atOffset (y : Q) (el : Element) : Element :=
  mkElement (el_id el) (el_display el) (el_visibility el) (el_opacity el)
    (el_overflowY el) (el_position el) (el_rect el) (el_clientWidth el)
    (el_clientHeight el) (el_scrollHeight el) (el_styleVisibility el)
    (el_stylePosition el) (el_styleOverflow el) y.

(** The computed style, the box and the sizes of [layout]; the id, the
    inline style and the scroll offset of [el]. *)
Definition relaid (layout el : Element) : Element :=
  mkElement (el_id el) (el_display layout) (el_visibility layout)
    (el_opacity layout) (el_overflowY layout) (el_position layout)
    (el_rect layout) (el_clientWidth layout) (el_clientHeight layout)
    (el_scrollHeight layout) (el_styleVisibility el) (el_stylePosition el)
    (el_styleOverflow el) (el_scrollTop el).

(** An element the script has created with the id and inline style [s],
    laid out as [layout]. *)
Definition created (s : Styled) (layout : Element) : Element :=
  mkElement (st_id s) (el_display layout) (el_visibility layout)
    (el_opacity layout) (el_overflowY layout) (el_position layout)
    (el_rect layout) (el_clientWidth layout) (el_clientHeight layout)
    (el_scrollHeight layout) (st_visibility s) (st_position s)
    (st_overflow s) 0.

(** A change of the element a reference names. *)
Definition update (f : Element -> Element) (i : nat) (doc : Document)
  : Document :=
  withElements (alter f i (elements doc)) doc.

(** The window at offset [y]. *)
Definition windowAt (y : Q) (doc : Document) : Document :=
  mkDocument (elements doc) (documentElement doc) (scrollingElement doc)
    (innerWidth doc) (innerHeight doc) (devicePixelRatio doc) y (body doc).

(** The container at offset [y]: the window for the root element. *)
Definition scrollContainerAt (y : Q) (container : nat) (doc : Document)
  : Document :=
  if Nat.eqb container (documentElement doc) then windowAt y doc
  else update (atOffset y) container doc.

Section WithBrowser.

Variable browser : Browser.

(** The page laid out again: every element with the layout the browser
    gives it for the inline styles the document carries.  The offsets
    recorded in [el_scrollTop] and [scrollY] are left as they are: the
    script reads an offset either before its first write to the page or
    just after it has written that offset. *)
Definition relayout (doc : Document) : Document :=
  withElements
    (imap (fun i el => relaid (laidOut browser (styled doc) i) el)
          (elements doc))
    doc.

(** [el.style.overflow = v] *)
Definition setStyleOverflow (v : string) (i : nat) (doc : Document)
  : Document :=
  relayout (update (inlineOverflow v) i doc).

(** The offset the container is at after a write of [y]. *)
Definition offsetAfter (doc : Document) (container : nat) (y : Q) : Q :=
  if Nat.eqb container (documentElement doc)
  then scrollYAfter browser (styled doc) y
  else scrollTopAfter browser (styled doc) container y.

(** [window.scrollTo(0, y)] for the root element, [el.scrollTop = y] for
    another container. *)
Definition scrollContainerTo (y : Q) (container : nat) (doc : Document)
  : Document :=
  scrollContainerAt (offsetAfter doc container y) container doc.

(** The two elements [createProgressBar] builds: the container, with its id
    and [position: fixed] in its inline style, and the fill inside it. *)
Definition progressBarId : string := "fps-extension-progress-bar".

Definition barStyle : Styled := mkStyled progressBarId "" "fixed" "".

Definition fillStyle : Styled := mkStyled "" "" "" "".

(** [document.body.appendChild(progressBarContainer)]: the container and its
    child become the last elements of the document.  Without a body the
    call throws, after the two variables were assigned. *)
Definition createProgressBar (a : Agent) : Agent * Completion :=
  match progressBarContainer a with
  | Some _ => (a, Completed)
  | None =>
      let doc := page a in
      let n := length (elements doc) in
      match body doc with
      | None =>
          (mkAgent doc (originalStyles a) (originalScrollY a)
             (scrollContainer a) (Some n) (Some (S n)) (Some (PNum 0)),
           ThrewTypeError)
      | Some _ =>
          let s := styled doc ++ [barStyle; fillStyle] in
          let bar := created barStyle (laidOut browser s n) in
          let fill := created fillStyle (laidOut browser s (S n)) in
          (mkAgent (withElements (elements doc ++ [bar; fill]) doc)
             (originalStyles a) (originalScrollY a) (scrollContainer a)
             (Some n) (Some (S n)) (Some (PNum 0)),
           Completed)
      end
  end.

(** Whether [percent + '%'] is a width: a number that is not negative.
    The browser ignores any other value. *)
Definition isWidth (percent : Percent) : bool :=
  match percent with
  | PNum q => Js.ge q 0
  | PNaN | PNegInfinity => false
  end.

Definition updateProgressBar (percent : Percent) (a : Agent)
  : Agent * Completion :=
  let (a, completion) :=
    match progressBarContainer a with
    | None => createProgressBar a
    | Some _ => (a, Completed)
    end in
  match completion with
  | ThrewTypeError => (a, ThrewTypeError)
  | Completed =>
      match progressBarFill a with
      | Some _ =>
          (mkAgent (page a) (originalStyles a) (originalScrollY a)
             (scrollContainer a) (progressBarContainer a)
             (progressBarFill a)
             (if isWidth percent then Some percent else progressBarWidth a),
           Completed)
      | None => (a, Completed)
      end
  end.

(** [progressBarContainer.remove()] takes the container and its child out of
    the document. *)
Definition removeProgressBar (a : Agent) : Agent :=
  match progressBarContainer a with
  | Some c =>
      let doc := page a in
      mkAgent
        (withElements (delete c (delete (S c) (elements doc))) doc)
        (originalStyles a) (originalScrollY a) (scrollContainer a)
        None None None
  | None => a
  end.

(** [originalStyles.set(el, styles)] *)
Fixpoint mapSet (k : nat) (v : SavedStyle) (m : list (nat * SavedStyle))
  : list (nat * SavedStyle) :=
  match m with
  | [] => [(k, v)]
  | (k', v') :: m' =>
      if Nat.eqb k k' then (k, v) :: m' else (k', v') :: mapSet k v m'
  end.

(** The callback of [allElements.forEach] in [hideFixedElements]. *)
Definition hideIfFixed (a : Agent) (i : nat) : Agent :=
  match elements (page a) !! i with
  | None => a
  | Some el =>
      if String.eqb (el_id el) progressBarId then a
      else if String.eqb (el_position el) "fixed"
              || String.eqb (el_position el) "sticky"
      then
        mkAgent
          (update (setStyleVisibility "hidden") i (page a))
          (mapSet i (mkSavedStyle (el_styleVisibility el)
                                  (el_stylePosition el))
                  (originalStyles a))
          (originalScrollY a) (scrollContainer a) (progressBarContainer a)
          (progressBarFill a) (progressBarWidth a)
      else a
  end.

Definition hideFixedElements (a : Agent) : Agent :=
  foldl hideIfFixed a (seq 0 (length (elements (page a)))).

(** The scroll offset the script reads for a container. *)
Definition scrollOffset (doc : Document) (container : nat) : Q :=
  if Nat.eqb container (documentElement doc) then scrollY doc
  else
    match elements doc !! container with
    | Some el => el_scrollTop el
    | None => 0
    end.

(** [initCapture]: the script after it and the metrics it resolves with,
    [None] when the promise rejects. *)
Definition initCapture (a : Agent) : Agent * option Metrics :=
  let container := findScrollableElement (page a) in
  let a :=
    mkAgent (page a) (originalStyles a) (scrollOffset (page a) container)
      (Some container) (progressBarContainer a) (progressBarFill a)
      (progressBarWidth a) in
  match createProgressBar a with
  | (a, ThrewTypeError) => (a, None)
  | (a, Completed) =>
      let a := hideFixedElements a in
      let doc := setStyleOverflow "hidden" (documentElement (page a))
                   (page a) in
      let doc :=
        if Nat.eqb container (documentElement doc) then doc
        else setStyleOverflow "hidden" container doc in
      let a := withPage doc a in
      (a, Some (mkMetrics
                  (inject_Z (scrollHeightOf doc container))
                  (inject_Z (match elements doc !! container with
                             | Some el => el_clientHeight el
                             | None => 0
                             end))
                  (devicePixelRatio doc) (originalScrollY a)))
  end.

(** [scrollToAndReady(y)]: the offset reached after the wait; [None] when
    the promise rejects ([scrollContainer] is still [null]). *)
Definition scrollToAndReady (y : Q) (a : Agent) : Agent * option Q :=
  match scrollContainer a with
  | Some container =>
      let doc := scrollContainerTo y container (page a) in
      (withPage doc a, Some (scrollOffset doc container))
  | None => (a, None)
  end.

(** The callback of [originalStyles.forEach] in [restorePage]. *)
Definition replay (doc : Document) (entry : nat * SavedStyle) : Document :=
  update (setStyleVisibility (sv_visibility (snd entry))) (fst entry) doc.

Definition restorePage (savedScrollY : Q) (a : Agent) : Agent :=
  let a := removeProgressBar a in
  let doc := foldl replay (page a) (originalStyles a) in
  let doc := setStyleOverflow "" (documentElement doc) doc in
  let doc :=
    match scrollContainer a with
    | Some container =>
        if Nat.eqb container (documentElement doc) then doc
        else setStyleOverflow "" container doc
    | None => doc
    end in
  let doc :=
    match scrollContainer a with
    | Some container => scrollContainerTo savedScrollY container doc
    | None => doc
    end in
  mkAgent doc [] (originalScrollY a) (scrollContainer a)
    (progressBarContainer a) (progressBarFill a) (progressBarWidth a).

(** The [onMessage] listener: the script after the message. *)
Definition onMessage (a : Agent) (message : Message) : Agent :=
  match message with
  | INIT_CAPTURE => fst (initCapture a)
  | SCROLL_TO y => fst (scrollToAndReady y a)
  | UPDATE_PROGRESS percent => fst (updateProgressBar percent a)
  | RESTORE y => restorePage y a
  end.

End WithBrowser.

End ContentScript.

(** * Properties *)

(** ** Numbers *)

Module JsFacts.

Lemma gt_spec (a b : Q) : Js.gt a b = true <-> (b < a)%Q.
Proof.
  unfold Js.gt, Js.lt. rewrite negb_true_iff.
  split; intros H.
  - apply Qnot_le_lt. intros Hle. apply Qle_bool_iff in Hle. congruence.
  - destruct (Qle_bool a b) eqn:E; [|reflexivity].
    apply Qle_bool_iff in E. exfalso. exact (Qlt_not_le _ _ H E).
Qed.

Lemma lt_spec (a b : Q) : Js.lt a b = true <-> (a < b)%Q.
Proof. apply (gt_spec b a). Qed.

Lemma ge_spec (a b : Q) : Js.ge a b = true <-> (b <= a)%Q.
Proof. apply Qle_bool_iff. Qed.

Lemma le_spec (a b : Q) : Js.le a b = true <-> (a <= b)%Q.
Proof. apply Qle_bool_iff. Qed.

(** A ratio that is present and not zero is used as it is. *)
Lemma orElse_nonzero (r d : Q) : ~ (r == 0)%Q -> Js.orElse (Some r) d = r.
Proof.
  intros H. unfold Js.orElse.
  destruct (Qeq_bool r 0) eqn:E; [|reflexivity].
  apply Qeq_bool_iff in E. contradiction.
Qed.

(** [v || 0] is [v] for every number [v]. *)
Lemma orElse_zero (o : Q) : (Js.orElse (Some o) 0 == o)%Q.
Proof.
  unfold Js.orElse. destruct (Qeq_bool o 0) eqn:E; [|reflexivity].
  apply Qeq_bool_iff in E. symmetry. exact E.
Qed.

End JsFacts.

(** ** The stitcher *)

Module StitcherFacts.

Import Stitcher.

Section Loading.

Variable decode : string -> option (Z * Z).

(** A frame list all of whose images decode. *)
Definition allDecode (imgs : list Frame) : Prop :=
  Forall (fun f => is_Some (decode (frame_dataUrl f))) imgs.

(** The loaded item of a frame whose image has the given size. *)
Definition loadedOf (f : Frame) (w h : Z) : Loaded :=
  mkLoaded (mkImage (frame_dataUrl f) w h) (frame_y f).

Lemma loadAll_app (xs ys : list Frame) (lx ly : list Loaded) :
  loadAll decode xs = inl lx ->
  loadAll decode ys = inl ly ->
  loadAll decode (xs ++ ys) = inl (lx ++ ly).
Proof.
  revert lx. induction xs as [|x xs IH]; intros lx Hx Hy; simpl in *.
  - injection Hx as <-. exact Hy.
  - destruct (loadImage decode (frame_dataUrl x) (frame_y x)); [|discriminate].
    destruct (loadAll decode xs) as [lxs|]; [|discriminate].
    injection Hx as <-. rewrite (IH lxs eq_refl Hy). reflexivity.
Qed.

Lemma loadAll_total (imgs : list Frame) :
  allDecode imgs ->
  exists loaded, loadAll decode imgs = inl loaded
                 /\ length loaded = length imgs.
Proof.
  induction 1 as [|f imgs [[w h] Hf] _ (loaded & IH & Hlen)]; simpl.
  - exists []. split; reflexivity.
  - unfold loadImage. rewrite Hf, IH.
    eexists. split; [reflexivity|]. simpl. rewrite Hlen. reflexivity.
Qed.

Lemma loadAll_lookup (imgs : list Frame) (loaded : list Loaded) :
  loadAll decode imgs = inl loaded ->
  forall i item, loaded !! i = Some item ->
    exists f w h, imgs !! i = Some f
                  /\ decode (frame_dataUrl f) = Some (w, h)
                  /\ item = loadedOf f w h.
Proof.
  revert loaded. induction imgs as [|f imgs IH]; intros loaded H i item Hi.
  - simpl in H. injection H as <-. destruct i; discriminate.
  - simpl in H. unfold loadImage in H.
    destruct (decode (frame_dataUrl f)) as [[w h]|] eqn:Hd; [|discriminate].
    destruct (loadAll decode imgs) as [ls|]; [|discriminate].
    injection H as <-. destruct i as [|i]; simpl in Hi.
    + injection Hi as <-. exists f, w, h. auto.
    + destruct (IH ls eq_refl i item Hi) as (g & w' & h' & ? & ? & ?).
      exists g, w', h'. auto.
Qed.

Lemma loadAll_single (f : Frame) (w h : Z) :
  decode (frame_dataUrl f) = Some (w, h) ->
  loadAll decode [f] = inl [loadedOf f w h].
Proof. intros H. simpl. unfold loadImage. rewrite H. reflexivity. Qed.

(** The handler on a stored frame list that loads. *)
Lemma handler_stitches (st : CapturedData) (imgs : list Frame)
      (first lastImg : Loaded) (rest : list Loaded) :
  cd_images st = Some imgs ->
  loadAll decode imgs = inl (first :: rest) ->
  last (first :: rest) = Some lastImg ->
  let scale := Js.orElse (cd_devicePixelRatio st) 1 in
  let overlap := Js.orElse (cd_overlap st) 0 in
  onDOMContentLoaded decode (Some st) =
    mkResultPage
      ([LoadingCapturedData; FoundImages (length imgs); LoadingImages]
         ++ loadingStatuses (length imgs) ++ [StitchingImages; Done])
      (Some (img_width (ld_img first)))
      (Some (totalHeight scale lastImg))
      (drawAll scale overlap (first :: rest))
      true true.
Proof.
  intros Himgs Hload Hlast. simpl. unfold onDOMContentLoaded.
  rewrite Himgs. destruct imgs as [|f imgs]; [discriminate|].
  rewrite Hload, Hlast. reflexivity.
Qed.

End Loading.

(** What one iteration of the drawing loop paints, by rows: for the first
    frame every row of the image, for a later frame the rows from [cropY]
    on, each at the place its frame's offset gives it. *)
Lemma drawItem_paints (scale overlap : Q) (index : nat) (item : Loaded)
      (r d : Q) :
  let cropY := (if Nat.eqb index 0 then 0 else overlap * scale)%Q in
  (exists op, op ∈ drawItem scale overlap index item /\ paints op r d)
  <-> (cropY <= r /\ r < inject_Z (img_height (ld_img item))
       /\ d == ld_y item * scale + r)%Q.
Proof.
  intros cropY. unfold drawItem. subst cropY.
  destruct (Nat.eqb index 0).
  - split.
    + intros (op & Hin & Hp). apply list_elem_of_singleton in Hin. subst op.
      simpl in Hp. destruct Hp as (? & ? & ?). auto.
    + intros (? & ? & ?). eexists. split; [apply list_elem_of_singleton; reflexivity|].
      simpl. auto.
  - destruct (Js.gt _ 0) eqn:E.
    + apply JsFacts.gt_spec in E. split.
      * intros (op & Hin & Hp). apply list_elem_of_singleton in Hin. subst op.
        simpl in Hp. destruct Hp as (_ & H1 & H2 & H3).
        split; [exact H1|]. split.
        -- eapply Qlt_le_trans; [exact H2|]. ring_simplify. apply Qle_refl.
        -- rewrite H3. ring.
      * intros (H1 & H2 & H3). eexists.
        split; [apply list_elem_of_singleton; reflexivity|]. simpl.
        split; [reflexivity|]. split; [exact H1|]. split.
        -- eapply Qlt_le_trans; [exact H2|]. ring_simplify. apply Qle_refl.
        -- rewrite H3. ring.
    + split.
      * intros (op & Hin & _). inversion Hin.
      * intros (H1 & H2 & _). exfalso.
        assert (Hgt : Js.gt (inject_Z (img_height (ld_img item))
                             - overlap * scale) 0 = true).
        { apply JsFacts.gt_spec. apply (Qplus_lt_l _ _ (overlap * scale)).
          ring_simplify. eapply Qle_lt_trans; [exact H1|exact H2]. }
        congruence.
Qed.

Lemma drawItem_cropped (scale overlap : Q) (i : nat) (item : Loaded) :
  i <> 0%nat ->
  (overlap * scale < inject_Z (img_height (ld_img item)))%Q ->
  drawItem scale overlap i item
  = [DrawImage9 (ld_img item) 0 (overlap * scale)
       (inject_Z (img_width (ld_img item)))
       (inject_Z (img_height (ld_img item)) - overlap * scale)
       0 (ld_y item * scale + overlap * scale)
       (inject_Z (img_width (ld_img item)))
       (inject_Z (img_height (ld_img item)) - overlap * scale)].
Proof.
  intros Hi Hlt. unfold drawItem.
  destruct (Nat.eqb_neq i 0) as [_ Hn]. rewrite (Hn Hi).
  destruct (Js.gt _ 0) eqn:Hgt; [reflexivity|]. exfalso.
  assert (Js.gt (inject_Z (img_height (ld_img item)) - overlap * scale) 0
          = true); [|congruence].
  apply JsFacts.gt_spec. apply (Qplus_lt_l _ _ (overlap * scale)).
  ring_simplify. exact Hlt.
Qed.

Lemma drawItem_skipped (scale overlap : Q) (i : nat) (item : Loaded) :
  i <> 0%nat ->
  (inject_Z (img_height (ld_img item)) <= overlap * scale)%Q ->
  drawItem scale overlap i item = [].
Proof.
  intros Hi Hle. unfold drawItem.
  destruct (Nat.eqb_neq i 0) as [_ Hn]. rewrite (Hn Hi).
  destruct (Js.gt _ 0) eqn:Hgt; [|reflexivity].
  apply JsFacts.gt_spec in Hgt. exfalso.
  apply (Qlt_not_le _ _ Hgt). apply (Qplus_le_l _ _ (overlap * scale)).
  ring_simplify. exact Hle.
Qed.

(** The page shows the no-data message and the canvas was never touched. *)
Definition noComposite (p : ResultPage) : Prop :=
  last (pg_status p) = Some NoDataFound
  /\ pg_canvasWidth p = None
  /\ pg_canvasHeight p = None
  /\ pg_draws p = []
  /\ pg_downloadBound p = false.

(** C8.  With nothing stored under the key, with a stored state that has no
    [images], and with an empty [images] list, the handler shows 'No data
    found in storage.' and stops: it assigns neither canvas dimension, draws
    nothing and binds no download. *)
Theorem no_data_guard (decode : string -> option (Z * Z))
        (ratio overlap : option Q) :
  noComposite (onDOMContentLoaded decode None)
  /\ noComposite
       (onDOMContentLoaded decode (Some (mkCapturedData None ratio overlap)))
  /\ noComposite
       (onDOMContentLoaded decode
          (Some (mkCapturedData (Some []) ratio overlap))).
Proof. repeat split. Qed.

(** C5.  For a stored frame list [fs ++ [f]] whose images all load, the
    height assigned to the canvas is [y * scale + h], with [y] the offset of
    the last frame [f], [h] the height in device pixels of its image, and
    [scale] the stored pixel ratio (1 when that is missing or zero). *)
Theorem composite_height (decode : string -> option (Z * Z))
        (st : CapturedData) (fs : list Frame) (f : Frame) (w h : Z) :
  cd_images st = Some (fs ++ [f]) ->
  allDecode decode fs ->
  decode (frame_dataUrl f) = Some (w, h) ->
  let scale := Js.orElse (cd_devicePixelRatio st) 1 in
  pg_canvasHeight (onDOMContentLoaded decode (Some st))
  = Some (frame_y f * scale + inject_Z h)%Q
  /\ (forall r, cd_devicePixelRatio st = Some r -> ~ (r == 0)%Q ->
                scale = r).
Proof.
  intros Himgs Hfs Hf scale. split.
  - destruct (loadAll_total decode fs Hfs) as (lfs & Hlfs & _).
    pose proof (loadAll_app decode fs [f] lfs _ Hlfs
                  (loadAll_single decode f w h Hf)) as Hload.
    destruct (lfs ++ [loadedOf f w h]) as [|first rest] eqn:Hshape.
    { destruct lfs; discriminate. }
    assert (Hlast : last (first :: rest) = Some (loadedOf f w h)).
    { rewrite <- Hshape. apply last_snoc. }
    rewrite (handler_stitches decode st _ first _ rest Himgs Hload Hlast).
    reflexivity.
  - intros r Hr Hnz. subst scale. rewrite Hr.
    apply JsFacts.orElse_nonzero, Hnz.
Qed.

(** The frames of the height example: offsets 0, 420 and 840, pixel ratio 2,
    overlap 80, every image 1000 device pixels high. *)
Definition exampleData : CapturedData :=
  mkCapturedData
    (Some [mkFrame 0 "a"; mkFrame 420 "b"; mkFrame 840 "c"])
    (Some 2%Q) (Some 80%Q).

Definition exampleDecode (url : string) : option (Z * Z) :=
  Some (1600, 1000)%Z.

Lemma composite_height_example :
  exists H : Q,
    pg_canvasHeight (onDOMContentLoaded exampleDecode (Some exampleData))
    = Some H
    /\ (H == 840 * 2 + 1000)%Q
    /\ (H == 2680)%Q.
Proof.
  destruct (composite_height exampleDecode exampleData
              [mkFrame 0 "a"; mkFrame 420 "b"] (mkFrame 840 "c") 1600 1000)
    as [Hheight _].
  - reflexivity.
  - repeat constructor; eexists; reflexivity.
  - reflexivity.
  - eexists. split; [exact Hheight|]. split; reflexivity.
Defined.

(** C6.  For a stored frame list that loads, the calls on the context are
    those of the frames in order.  Frame 0 is drawn whole at
    [(0, y * scale)].  A later frame whose image is higher than
    [cropY = overlap * scale] is drawn from its source row [cropY] on, at
    [(0, y * scale + cropY)]; one whose image is not higher is not drawn.
    By rows: a later frame paints exactly its source rows from [cropY] to
    the bottom, each where the frame's offset puts it.  [scale] is the stored
    pixel ratio when that is not zero, [overlap] the stored overlap. *)
Theorem crop_placement (decode : string -> option (Z * Z))
        (st : CapturedData) (imgs : list Frame) (loaded : list Loaded) :
  cd_images st = Some imgs ->
  imgs <> [] ->
  loadAll decode imgs = inl loaded ->
  let scale := Js.orElse (cd_devicePixelRatio st) 1 in
  let overlap := Js.orElse (cd_overlap st) 0 in
  let cropY := (overlap * scale)%Q in
  (forall r, cd_devicePixelRatio st = Some r -> ~ (r == 0)%Q -> scale = r)
  /\ (forall o, cd_overlap st = Some o -> (overlap == o)%Q)
  /\ pg_draws (onDOMContentLoaded decode (Some st))
     = concat (imap (drawItem scale overlap) loaded)
  /\ forall i item, loaded !! i = Some item ->
       let img := ld_img item in
       let drawY := (ld_y item * scale)%Q in
       let h := inject_Z (img_height img) in
       let w := inject_Z (img_width img) in
       (i = 0%nat ->
          drawItem scale overlap i item = [DrawImage3 img 0 drawY])
       /\ (i <> 0%nat -> (cropY < h)%Q ->
           drawItem scale overlap i item
           = [DrawImage9 img 0 cropY w (h - cropY)
                0 (drawY + cropY) w (h - cropY)])
       /\ (i <> 0%nat -> (h <= cropY)%Q ->
           drawItem scale overlap i item = [])
       /\ (i <> 0%nat -> forall r d,
           (exists op,
               op ∈ drawItem scale overlap i item /\ paints op r d)
           <-> (cropY <= r /\ r < h /\ d == drawY + r)%Q).
Proof.
  intros Himgs Hne Hload scale overlap cropY.
  split; [|split; [|split]].
  - intros r Hr Hnz. subst scale. rewrite Hr.
    apply JsFacts.orElse_nonzero, Hnz.
  - intros o Ho. subst overlap. rewrite Ho. apply JsFacts.orElse_zero.
  - destruct loaded as [|first rest].
    { destruct imgs as [|f imgs]; [contradiction|]. simpl in Hload.
      destruct (loadImage decode _ _); [|discriminate].
      destruct (loadAll decode imgs); discriminate. }
    destruct (last (first :: rest)) as [lastImg|] eqn:Hlast.
    + rewrite (handler_stitches decode st imgs first lastImg rest
                 Himgs Hload Hlast). reflexivity.
    + apply last_None in Hlast. discriminate.
  - intros i item Hi img drawY h w.
    split; [|split; [|split]].
    + intros ->. reflexivity.
    + intros Hi0 Hlt. apply drawItem_cropped; assumption.
    + intros Hi0 Hle. apply drawItem_skipped; assumption.
    + intros Hi0 r d.
      pose proof (drawItem_paints scale overlap i item r d) as Hp.
      destruct (Nat.eqb_neq i 0) as [_ Hn]. rewrite (Hn Hi0) in Hp.
      exact Hp.
Qed.

(** With overlap 80 and pixel ratio 2, frame 1 of the example is drawn by one
    call that skips the top 160 rows of its image: row 159 is painted
    nowhere, and row 160 lands at device row [420 * 2 + 160]. *)
Definition exampleItem : Loaded := mkLoaded (mkImage "b" 1600 1000) 420.

Lemma crop_placement_example :
  drawItem 2 80 1 exampleItem
  = [DrawImage9 (mkImage "b" 1600 1000) 0 (80 * 2) (inject_Z 1600)
       (inject_Z 1000 - 80 * 2) 0 (420 * 2 + 80 * 2) (inject_Z 1600)
       (inject_Z 1000 - 80 * 2)]
  /\ (forall d,
        ~ exists op, op ∈ drawItem 2 80 1 exampleItem /\ paints op 159 d)
  /\ (exists op, op ∈ drawItem 2 80 1 exampleItem /\ paints op 160 1000).
Proof.
  destruct (crop_placement exampleDecode exampleData
              [mkFrame 0 "a"; mkFrame 420 "b"; mkFrame 840 "c"]
              [mkLoaded (mkImage "a" 1600 1000) 0; exampleItem;
               mkLoaded (mkImage "c" 1600 1000) 840]
              eq_refl ltac:(discriminate) eq_refl)
    as (_ & _ & _ & Hitems).
  destruct (Hitems 1%nat exampleItem eq_refl) as (_ & Hdraw & _ & Hrows).
  split; [|split].
  - apply Hdraw; [discriminate|reflexivity].
  - intros d Hex. apply Hrows in Hex; [|discriminate].
    destruct Hex as (Hlo & _). revert Hlo. vm_compute.
    intros Hlo. apply Hlo. reflexivity.
  - apply Hrows; [discriminate|]. vm_compute. repeat split; discriminate.
Defined.

End StitcherFacts.

(** ** The orchestrator *)

Module OrchestratorFacts.

Import Protocol Orchestrator.

(** *** One session at a time

    [captureLoop] reads and writes the entry of one tab only, so the events
    of a run are a function of that entry.  [finishEvents], [step] and [run]
    give the events of [finishCapture], [captureLoopBody] and [captureLoop];
    the lemmas [finishCapture_eq], [captureLoopBody_eq] and [captureLoop_eq]
    below prove that they do. *)

Definition finishEvents (env : Env) (tabId : nat) (state : Session)
  : list Event :=
  [SendMessage tabId (RESTORE (originalScrollY state)); StorageSet state]
    ++ (if onStorageSet env state then [TabsCreate]
        else [Console ErrorSavingToStorage;
              if alertDefined env then Alert else UncaughtReferenceError]).

(** The offset a step works with. *)
Definition actualYAt (env : Env) (state : Session) : Q :=
  actualYOf (onScrollTo env (S (steps state)) (currentY state))
            (currentY state).

(** The events of one call and the session it leaves ([None]: finished). *)
Definition step (env : Env) (tabId : nat) (state : Session)
  : list Event * option Session :=
  if (MAX_STEPS <=? steps state)%nat then
    (Console ReachedMaxSteps :: finishEvents env tabId state, None)
  else
    let st1 := incrSteps state in
    let actualY := actualYAt env state in
    let request :=
      [SendMessage tabId (SCROLL_TO (currentY state)); CaptureVisibleTab] in
    match captured (onCapture env (S (steps state))) with
    | None =>
        (request ++ Console CaptureFailed :: finishEvents env tabId st1, None)
    | Some dataUrl =>
        let st2 := pushImage (mkFrame actualY dataUrl) st1 in
        let progress :=
          SendMessage tabId
            (UPDATE_PROGRESS (percentOf actualY (fullHeight state))) in
        if isStuck (prevY state) actualY then
          (request ++ progress :: Console ScrollStuck
                   :: finishEvents env tabId st2, None)
        else
          let st3 :=
            advance actualY (actualY + visibleHeight state - OVERLAP)%Q st2 in
          if Js.ge (actualY + visibleHeight state)%Q (fullHeight state) then
            (request ++ progress :: finishEvents env tabId st3, None)
          else (request ++ [progress], Some st3)
    end.

Fixpoint run (fuel : nat) (env : Env) (tabId : nat) (state : Session)
  : option (list Event) :=
  match fuel with
  | O => None
  | S fuel' =>
      match step env tabId state with
      | (t, None) => Some t
      | (t, Some state') =>
          match run fuel' env tabId state' with
          | Some t' => Some (t ++ t')
          | None => None
          end
      end
  end.

Lemma finishCapture_eq (env : Env) (tabId : nat) (w : World)
      (state : Session) :
  captureState w !! tabId = Some state ->
  trace (finishCapture env tabId w)
  = trace w ++ finishEvents env tabId state.
Proof.
  intros H. unfold finishCapture, finishEvents. rewrite H.
  destruct (onStorageSet env state); [|destruct (alertDefined env)];
    unfold emit; cbn [trace captureState]; rewrite <- ?app_assoc;
    reflexivity.
Qed.

Lemma finishCapture_after (env : Env) (tabId : nat) (reg : gmap nat Session)
      (state : Session) (t0 t1 : list Event) :
  trace (finishCapture env tabId
           (mkWorld (<[tabId := state]> reg) (t0 ++ t1)))
  = t0 ++ t1 ++ finishEvents env tabId state.
Proof.
  rewrite (finishCapture_eq env tabId _ state).
  - cbn [trace]. rewrite <- app_assoc. reflexivity.
  - cbn [captureState]. apply lookup_insert_eq.
Qed.

(** Unless [alert] is missing when storage fails, [finishCapture] deletes
    the entry. *)
Lemma finishCapture_deletes (env : Env) (tabId : nat) (w : World)
      (state : Session) :
  captureState w !! tabId = Some state ->
  onStorageSet env state || alertDefined env = true ->
  captureState (finishCapture env tabId w) = delete tabId (captureState w).
Proof.
  intros H Hok. unfold finishCapture. rewrite H.
  destruct (onStorageSet env state); [reflexivity|].
  cbn in Hok. rewrite Hok. reflexivity.
Qed.

Lemma captureLoopBody_eq (env : Env) (tabId : nat) (w : World)
      (state : Session) :
  captureState w !! tabId = Some state ->
  match step env tabId state with
  | (t, None) =>
      snd (captureLoopBody env tabId w) = false
      /\ trace (fst (captureLoopBody env tabId w)) = trace w ++ t
  | (t, Some state') =>
      captureLoopBody env tabId w
      = (mkWorld (<[tabId := state']> (captureState w)) (trace w ++ t), true)
  end.
Proof.
  intros H. destruct w as [reg t0]. cbn [captureState] in H.
  unfold captureLoopBody, step, actualYAt. cbn [captureState]. rewrite H.
  destruct (MAX_STEPS <=? steps state)%nat.
  { split; [reflexivity|]. cbn [fst].
    rewrite (finishCapture_eq env tabId _ state) by exact H.
    unfold emit. cbn [trace]. rewrite <- app_assoc. reflexivity. }
  unfold emit, store. cbn [captureState trace incrSteps steps currentY].
  destruct (captured _) as [dataUrl|].
  2:{ split; [reflexivity|]. cbn [fst]. rewrite <- !app_assoc. cbn [app].
      rewrite (finishCapture_after env tabId reg (incrSteps state) t0).
      reflexivity. }
  cbn [pushImage prevY fullHeight visibleHeight].
  destruct (isStuck _ _).
  { split; [reflexivity|]. cbn [fst].
    rewrite insert_insert_eq, <- !app_assoc. cbn [app].
    rewrite (finishCapture_after env tabId reg _ t0). reflexivity. }
  destruct (Js.ge _ _).
  - split; [reflexivity|]. cbn [fst].
    rewrite !insert_insert_eq, <- !app_assoc. cbn [app].
    rewrite (finishCapture_after env tabId reg _ t0). reflexivity.
  - rewrite !insert_insert_eq, <- !app_assoc. reflexivity.
Qed.

Lemma captureLoop_eq (fuel : nat) (env : Env) (tabId : nat) (w : World)
      (state : Session) :
  captureState w !! tabId = Some state ->
  trace <$> captureLoop fuel env tabId w
  = (fun t => trace w ++ t) <$> run fuel env tabId state.
Proof.
  revert w state. induction fuel as [|fuel IH]; intros w state H;
    [reflexivity|].
  cbn [captureLoop run].
  pose proof (captureLoopBody_eq env tabId w state H) as Hbody.
  destruct (step env tabId state) as [t [state'|]].
  - rewrite Hbody.
    rewrite (IH _ state') by (cbn [captureState]; apply lookup_insert_eq).
    destruct (run fuel env tabId state') as [t'|]; [|reflexivity].
    cbn [fmap option_fmap option_map trace]. rewrite app_assoc. reflexivity.
  - destruct (captureLoopBody env tabId w) as [w' again].
    cbn [fst snd] in Hbody. destruct Hbody as [-> Htrace].
    cbn [fmap option_fmap option_map]. rewrite Htrace. reflexivity.
Qed.

(** A call of [captureLoop] that returns has added the events of a run. *)
Lemma captureLoop_Some (fuel : nat) (env : Env) (tabId : nat) (w w' : World)
      (state : Session) :
  captureState w !! tabId = Some state ->
  captureLoop fuel env tabId w = Some w' ->
  exists t, run fuel env tabId state = Some t /\ trace w' = trace w ++ t.
Proof.
  intros H Hloop. pose proof (captureLoop_eq fuel env tabId w state H) as Heq.
  rewrite Hloop in Heq. cbn [fmap option_fmap option_map] in Heq.
  destruct (run fuel env tabId state) as [t|]; [|discriminate].
  injection Heq as Heq. eauto.
Qed.

(** A run that ends is a call of [captureLoop] that returns. *)
Lemma run_Some (fuel : nat) (env : Env) (tabId : nat) (w : World)
      (state : Session) (t : list Event) :
  captureState w !! tabId = Some state ->
  run fuel env tabId state = Some t ->
  exists w', captureLoop fuel env tabId w = Some w'
             /\ trace w' = trace w ++ t.
Proof.
  intros H Hrun. pose proof (captureLoop_eq fuel env tabId w state H) as Heq.
  rewrite Hrun in Heq. cbn [fmap option_fmap option_map] in Heq.
  destruct (captureLoop fuel env tabId w) as [w'|]; [|discriminate].
  injection Heq as Heq. eauto.
Qed.

(** *** The cases of one step *)

Ltac step_cases H :=
  unfold step in H;
  destruct (MAX_STEPS <=? steps _)%nat eqn:Hlimit in H;
  [ | destruct (captured _) as [dataUrl|] eqn:Hcap in H;
      [ destruct (isStuck _ _) eqn:Hstuck in H;
        [ | destruct (Js.ge _ _) eqn:Hdone in H ] | ] ];
  try discriminate H; inversion H; subst; clear H.

Lemma scrollRequests_app (a b : list Event) :
  scrollRequests (a ++ b) = (scrollRequests a + scrollRequests b)%nat.
Proof. unfold scrollRequests. rewrite List.filter_app. apply length_app. Qed.

Lemma captureRequests_app (a b : list Event) :
  captureRequests (a ++ b) = (captureRequests a + captureRequests b)%nat.
Proof. unfold captureRequests. rewrite List.filter_app. apply length_app. Qed.

Lemma finishEvents_requests (env : Env) (tabId : nat) (state : Session) :
  scrollRequests (finishEvents env tabId state) = 0%nat
  /\ captureRequests (finishEvents env tabId state) = 0%nat.
Proof.
  unfold finishEvents.
  destruct (onStorageSet env state), (alertDefined env); split; reflexivity.
Qed.

(** The sessions a trace hands to storage. *)
Definition stored (t : list Event) : list Session :=
  omap (fun e => match e with StorageSet s => Some s | _ => None end) t.

Lemma stored_app (a b : list Event) : stored (a ++ b) = stored a ++ stored b.
Proof. apply omap_app. Qed.

Lemma finishEvents_stored (env : Env) (tabId : nat) (state : Session) :
  stored (finishEvents env tabId state) = [state].
Proof.
  unfold finishEvents.
  destruct (onStorageSet env state), (alertDefined env); reflexivity.
Qed.

(** The messages a trace sends to a tab. *)
Definition messagesTo (tabId : nat) (t : list Event) : list Message :=
  omap (fun e =>
          match e with
          | SendMessage i m => if Nat.eqb i tabId then Some m else None
          | _ => None
          end) t.

Lemma messagesTo_app (tabId : nat) (a b : list Event) :
  messagesTo tabId (a ++ b) = messagesTo tabId a ++ messagesTo tabId b.
Proof. apply omap_app. Qed.

Lemma finishEvents_messages (env : Env) (tabId : nat) (state : Session) :
  messagesTo tabId (finishEvents env tabId state)
  = [RESTORE (originalScrollY state)].
Proof.
  unfold finishEvents, messagesTo. cbn [app omap list_omap].
  rewrite Nat.eqb_refl.
  destruct (onStorageSet env state), (alertDefined env); reflexivity.
Qed.

(** A step that goes on has made one scroll request and one capture, and
    has counted itself. *)
Lemma step_continues (env : Env) (tabId : nat) (state state' : Session)
      (t : list Event) :
  step env tabId state = (t, Some state') ->
  (steps state < MAX_STEPS)%nat
  /\ steps state' = S (steps state)
  /\ originalScrollY state' = originalScrollY state
  /\ scrollRequests t = 1%nat
  /\ captureRequests t = 1%nat
  /\ stored t = []
  /\ (exists url,
        images state' = images state ++ [mkFrame (actualYAt env state) url])
  /\ prevY state' = Some (actualYAt env state)
  /\ (exists p, messagesTo tabId t
                = [SCROLL_TO (currentY state); UPDATE_PROGRESS p]).
Proof.
  intros H. step_cases H.
  apply Nat.leb_gt in Hlimit.
  repeat split; try reflexivity; try assumption; eauto.
  eexists. unfold messagesTo. cbn [app omap list_omap].
  rewrite Nat.eqb_refl. reflexivity.
Qed.

(** A step that finishes has made at most one scroll request and one
    capture, none when the limit was reached, and hands over one session. *)
Lemma step_finishes (env : Env) (tabId : nat) (state : Session)
      (t : list Event) :
  step env tabId state = (t, None) ->
  exists (pre : list Event) (final : Session),
    t = pre ++ finishEvents env tabId final
    /\ stored pre = []
    /\ originalScrollY final = originalScrollY state
    /\ ((MAX_STEPS <= steps state)%nat /\ pre = [Console ReachedMaxSteps]
          /\ final = state
        \/ (steps state < MAX_STEPS)%nat /\ steps final = S (steps state)
          /\ scrollRequests pre = 1%nat /\ captureRequests pre = 1%nat
          /\ (images final = images state
               \/ exists url, images final
                    = images state ++ [mkFrame (actualYAt env state) url])
          /\ (exists rest,
                 pre = SendMessage tabId (SCROLL_TO (currentY state))
                         :: CaptureVisibleTab :: rest
                 /\ Forall (fun e => match e with
                                     | SendMessage _ (UPDATE_PROGRESS _)
                                     | Console _ => True
                                     | _ => False
                                     end) rest)).
Proof.
  intros H. step_cases H.
  - apply Nat.leb_le in Hlimit.
    exists [Console ReachedMaxSteps], state. repeat split. left. auto.
  - apply Nat.leb_gt in Hlimit. eexists (_ :: _ :: [_; _]), _.
    split; [reflexivity|]. repeat split. right.
    repeat split; try assumption; eauto;
      eexists; (split; [reflexivity | repeat constructor]).
  - apply Nat.leb_gt in Hlimit. eexists (_ :: _ :: [_]), _.
    split; [reflexivity|]. repeat split. right.
    repeat split; try assumption; eauto;
      eexists; (split; [reflexivity | repeat constructor]).
  - apply Nat.leb_gt in Hlimit. eexists (_ :: _ :: [_]), _.
    split; [reflexivity|]. repeat split. right.
    repeat split; try assumption; eauto;
      eexists; (split; [reflexivity | repeat constructor]).
Qed.

(** Induction over a run that ends. *)
Lemma run_induction (env : Env) (tabId : nat)
      (P : Session -> list Event -> Prop) :
  (forall state t, step env tabId state = (t, None) -> P state t) ->
  (forall state t state' t',
      step env tabId state = (t, Some state') ->
      P state' t' -> P state (t ++ t')) ->
  forall fuel state t, run fuel env tabId state = Some t -> P state t.
Proof.
  intros Hdone Hnext. induction fuel as [|fuel IH]; intros state t H;
    [discriminate|].
  cbn [run] in H.
  destruct (step env tabId state) as [t0 [state'|]] eqn:Hstep.
  - destruct (run fuel env tabId state') as [t'|] eqn:Hrun; [|discriminate].
    injection H as <-. eapply Hnext; eauto.
  - injection H as <-. apply Hdone, Hstep.
Qed.

(** A run ends as soon as the fuel exceeds the steps that are left. *)
Lemma run_terminates (env : Env) (tabId : nat) (fuel : nat)
      (state : Session) :
  (MAX_STEPS - steps state < fuel)%nat ->
  is_Some (run fuel env tabId state).
Proof.
  revert state. induction fuel as [|fuel IH]; intros state Hfuel; [lia|].
  cbn [run]. destruct (step env tabId state) as [t [state'|]] eqn:Hstep;
    [|eauto].
  destruct (step_continues _ _ _ _ _ Hstep) as (Hlt & Hs & _).
  destruct (IH state') as [t' Ht']; [lia|]. rewrite Ht'. eauto.
Qed.

(** What a finished run has done: the requests are bounded by the steps
    that were left, and one session is handed to storage, with the original
    offset it started from and no more frames than steps. *)
Lemma run_bounds (env : Env) (tabId : nat) (fuel : nat) (state : Session)
      (t : list Event) :
  run fuel env tabId state = Some t ->
  (scrollRequests t <= MAX_STEPS - steps state)%nat
  /\ (captureRequests t <= MAX_STEPS - steps state)%nat
  /\ exists final,
       stored t = [final]
       /\ originalScrollY final = originalScrollY state
       /\ (steps state <= steps final)%nat
       /\ (steps final <= MAX_STEPS \/ steps final = steps state)%nat
       /\ (length (images final)
           <= length (images state) + (steps final - steps state))%nat.
Proof.
  revert fuel state t. apply run_induction.
  - intros state t Hstep.
    destruct (step_finishes _ _ _ _ Hstep)
      as (pre & final & -> & Hpre & Horig & Hcases).
    destruct (finishEvents_requests env tabId final) as [Hs Hc].
    rewrite scrollRequests_app, captureRequests_app, stored_app, Hs, Hc,
      Hpre, finishEvents_stored.
    destruct Hcases as [(Hle & -> & ->)
                       |(Hlt & Hsteps & Hsc & Hcap & Himgs & _)].
    + repeat split; [cbn; lia|cbn; lia|].
      exists state. repeat split; auto; lia.
    + rewrite Hsc, Hcap. repeat split; [lia|lia|].
      exists final. repeat split; auto; try lia.
      destruct Himgs as [->|[url ->]]; [lia|].
      rewrite length_app. cbn. lia.
  - intros state t state' t' Hstep (Hs & Hc & final & Hst & Horig & Hle
                                    & Hmax & Hlen).
    destruct (step_continues _ _ _ _ _ Hstep)
      as (Hlt & Hsteps & Horig' & Hsc & Hcap & Hstored & [url Himgs] & _).
    rewrite scrollRequests_app, captureRequests_app, stored_app, Hsc, Hcap,
      Hstored.
    repeat split; [lia|lia|].
    exists final. rewrite Himgs, length_app in Hlen. cbn in Hlen.
    repeat split; auto; try congruence; lia.
Qed.

Lemma step_finishes_messages (env : Env) (tabId : nat) (state : Session)
      (t : list Event) :
  step env tabId state = (t, None) ->
  exists msgs,
    messagesTo tabId t = msgs ++ [RESTORE (originalScrollY state)]
    /\ Forall isStepMessage msgs.
Proof.
  intros H. step_cases H;
    rewrite ?messagesTo_app; unfold messagesTo at 1;
    cbn [app omap list_omap]; rewrite ?Nat.eqb_refl;
    change (omap _ ?l) with (messagesTo tabId l);
    rewrite finishEvents_messages.
  - exists []. split; [reflexivity|constructor].
  - eexists [_; _]. split; [reflexivity|repeat constructor].
  - eexists [_; _]. split; [reflexivity|repeat constructor].
  - eexists [_]. split; [reflexivity|repeat constructor].
Qed.

(** The messages of a finished run: scroll and progress requests, then one
    [RESTORE] with the offset the session recorded at its start. *)
Lemma run_messages (env : Env) (tabId : nat) (fuel : nat) (state : Session)
      (t : list Event) :
  run fuel env tabId state = Some t ->
  exists msgs,
    messagesTo tabId t = msgs ++ [RESTORE (originalScrollY state)]
    /\ Forall isStepMessage msgs.
Proof.
  revert fuel state t. apply run_induction.
  - intros state t Hstep. apply (step_finishes_messages _ _ _ _ Hstep).
  - intros state t state' t' Hstep (msgs & Hm & Hall).
    destruct (step_continues _ _ _ _ _ Hstep)
      as (_ & _ & Horig & _ & _ & _ & _ & _ & p & Hmsgs).
    exists ([SCROLL_TO (currentY state); UPDATE_PROGRESS p] ++ msgs).
    rewrite messagesTo_app, Hmsgs, Hm, Horig, app_assoc.
    split; [reflexivity|]. apply Forall_app. split; [|exact Hall].
    repeat constructor.
Qed.

(** What [startCapture] adds to the trace before the loop. *)
Lemma startCapture_Some (fuel : nat) (env : Env) (tabId : nat) (w w' : World)
      (response : Metrics) :
  onExecuteScript env = true ->
  onInit env = Some response ->
  startCapture fuel env tabId w = Some w' ->
  exists t,
    run fuel env tabId (newSession response) = Some t
    /\ trace w' = trace w ++ ExecuteScript tabId
                           :: SendMessage tabId INIT_CAPTURE :: t.
Proof.
  intros Hexec Hinit Hstart. unfold startCapture in Hstart.
  rewrite Hexec, Hinit in Hstart.
  assert (Hreg : captureState
                   (store tabId (newSession response)
                      (emit (SendMessage tabId INIT_CAPTURE)
                         (emit (ExecuteScript tabId) w))) !! tabId
                 = Some (newSession response))
    by (cbn [store captureState]; apply lookup_insert_eq).
  destruct (captureLoop_Some fuel env tabId _ w' _ Hreg Hstart)
    as (t & Hrun & Htrace).
  exists t. split; [exact Hrun|]. rewrite Htrace. unfold store, emit.
  cbn [trace]. rewrite <- !app_assoc. reflexivity.
Qed.

Lemma startCapture_run (fuel : nat) (env : Env) (tabId : nat) (w : World)
      (response : Metrics) (t : list Event) :
  onExecuteScript env = true ->
  onInit env = Some response ->
  run fuel env tabId (newSession response) = Some t ->
  exists w',
    startCapture fuel env tabId w = Some w'
    /\ trace w' = trace w ++ ExecuteScript tabId
                           :: SendMessage tabId INIT_CAPTURE :: t.
Proof.
  intros Hexec Hinit Hrun. unfold startCapture. rewrite Hexec, Hinit.
  assert (Hreg : captureState
                   (store tabId (newSession response)
                      (emit (SendMessage tabId INIT_CAPTURE)
                         (emit (ExecuteScript tabId) w))) !! tabId
                 = Some (newSession response))
    by (cbn [store captureState]; apply lookup_insert_eq).
  destruct (run_Some fuel env tabId _ _ t Hreg Hrun)
    as (w' & Hloop & Htrace).
  exists w'. split; [exact Hloop|]. rewrite Htrace. unfold store, emit.
  cbn [trace]. rewrite <- !app_assoc. reflexivity.
Qed.

(** C3.  The step limit.
    (1) Whatever the page and the browser answer, a capture started with fuel
        for [MAX_STEPS + 1] calls of [captureLoop] (or more) ends; it makes
        at most [MAX_STEPS] scroll requests and at most [MAX_STEPS] captures,
        and a session it hands over holds at most [MAX_STEPS] frames.
    (2) A call that finds [steps >= MAX_STEPS] logs the warning and finishes
        without a scroll request or a capture.
    (3) A call that finds [steps < MAX_STEPS] makes one scroll request and
        one capture and adds one to [steps]: in the session it leaves in
        [captureState] when it goes on, in the session it hands to storage
        when it finishes.
    (4) [MAX_STEPS] is 50. *)
Theorem step_limit :
  (forall (env : Env) (tabId : nat) (w : World) (extra : nat),
      exists w' t,
        startCapture (S MAX_STEPS + extra) env tabId w = Some w'
        /\ trace w' = trace w ++ t
        /\ (scrollRequests t <= MAX_STEPS)%nat
        /\ (captureRequests t <= MAX_STEPS)%nat
        /\ (forall final, final ∈ stored t ->
              (length (images final) <= MAX_STEPS)%nat))
  /\ (forall (env : Env) (tabId : nat) (w : World) (state : Session),
        captureState w !! tabId = Some state ->
        (MAX_STEPS <= steps state)%nat ->
        snd (captureLoopBody env tabId w) = false
        /\ trace (fst (captureLoopBody env tabId w))
           = trace w ++ Console ReachedMaxSteps
                     :: finishEvents env tabId state
        /\ scrollRequests
             (Console ReachedMaxSteps :: finishEvents env tabId state) = 0%nat
        /\ captureRequests
             (Console ReachedMaxSteps :: finishEvents env tabId state)
           = 0%nat)
  /\ (forall (env : Env) (tabId : nat) (w : World) (state : Session),
        captureState w !! tabId = Some state ->
        (steps state < MAX_STEPS)%nat ->
        exists t,
          trace (fst (captureLoopBody env tabId w)) = trace w ++ t
          /\ scrollRequests t = 1%nat
          /\ captureRequests t = 1%nat
          /\ if snd (captureLoopBody env tabId w) then
               exists state',
                 captureState (fst (captureLoopBody env tabId w)) !! tabId
                 = Some state'
                 /\ steps state' = S (steps state)
             else
               exists final,
                 stored t = [final] /\ steps final = S (steps state))
  /\ MAX_STEPS = 50%nat.
Proof.
  split; [|split; [|split]].
  - intros env tabId w extra.
    destruct (onExecuteScript env) eqn:Hexec.
    2:{ unfold startCapture. rewrite Hexec.
        eexists _, [_; _]. split; [reflexivity|].
        unfold emit. cbn [trace]. rewrite <- app_assoc.
        split; [reflexivity|].
        repeat split; [cbn; lia|cbn; lia|].
        intros final Hin. inversion Hin. }
    destruct (onInit env) as [response|] eqn:Hinit.
    2:{ unfold startCapture. rewrite Hexec, Hinit.
        eexists _, [_; _; _]. split; [reflexivity|].
        unfold emit. cbn [trace]. rewrite <- !app_assoc.
        split; [reflexivity|].
        repeat split; [cbn; lia|cbn; lia|].
        intros final Hin. inversion Hin. }
    destruct (run_terminates env tabId (S MAX_STEPS + extra)
                (newSession response)) as [t Hrun]; [cbn; lia|].
    destruct (startCapture_run _ env tabId w response t Hexec Hinit Hrun)
      as (w' & Hstart & Htrace).
    exists w', (ExecuteScript tabId :: SendMessage tabId INIT_CAPTURE :: t).
    split; [exact Hstart|]. split; [exact Htrace|].
    destruct (run_bounds _ _ _ _ _ Hrun)
      as (Hs & Hc & final & Hst & _ & _ & Hmax & Hlen).
    change (ExecuteScript tabId :: SendMessage tabId INIT_CAPTURE :: t)
      with ([ExecuteScript tabId; SendMessage tabId INIT_CAPTURE] ++ t).
    rewrite scrollRequests_app, captureRequests_app, stored_app, Hst.
    cbn [newSession steps images length] in *.
    repeat split; [cbn; lia|cbn; lia|].
    intros st Hin. cbn in Hin. apply list_elem_of_singleton in Hin.
    subst st. lia.
  - intros env tabId w state Hst Hle.
    pose proof (captureLoopBody_eq env tabId w state Hst) as Hbody.
    unfold step in Hbody.
    destruct (Nat.leb_le MAX_STEPS (steps state)) as [_ Hb].
    rewrite (Hb Hle) in Hbody. destruct Hbody as [Hno Htrace].
    split; [exact Hno|]. split; [exact Htrace|].
    destruct (finishEvents_requests env tabId state) as [Hs Hc].
    change (Console ReachedMaxSteps :: finishEvents env tabId state)
      with ([Console ReachedMaxSteps] ++ finishEvents env tabId state).
    rewrite scrollRequests_app, captureRequests_app, Hs, Hc.
    split; reflexivity.
  - intros env tabId w state Hst Hlt.
    pose proof (captureLoopBody_eq env tabId w state Hst) as Heq.
    destruct (step env tabId state) as [t [state'|]] eqn:Hstep.
    + rewrite Heq. cbn [fst snd trace captureState]. exists t.
      destruct (step_continues _ _ _ _ _ Hstep)
        as (_ & Hsteps & _ & Hs & Hc & _).
      repeat split; try assumption. exists state'.
      split; [apply lookup_insert_eq|exact Hsteps].
    + destruct Heq as [Hno Htrace]. rewrite Hno. exists t.
      destruct (step_finishes _ _ _ _ Hstep)
        as (pre & final & -> & Hpre & _ & [(Hle & _)|Hcase]); [lia|].
      destruct Hcase as (_ & Hsteps & Hs & Hc & _).
      destruct (finishEvents_requests env tabId final) as [Hs' Hc'].
      rewrite scrollRequests_app, captureRequests_app, stored_app, Hs, Hc,
        Hs', Hc', Hpre, finishEvents_stored.
      repeat split; try assumption. exists final. split; auto.
  - reflexivity.
Qed.

(** C4.  Stuck detection.  When [prevY] is defined and the offset of the
    current step equals it, the call of [captureLoop] that made the scroll
    request is the last one: it ends the run, whatever fuel is left, with the
    [RESTORE] message sent, and nothing after its own scroll request is a
    scroll request. *)
Theorem stuck_detection (env : Env) (tabId : nat) (w : World)
        (state : Session) (p : Q) (fuel : nat) :
  captureState w !! tabId = Some state ->
  prevY state = Some p ->
  (steps state < MAX_STEPS)%nat ->
  (actualYOf (onScrollTo env (S (steps state)) (currentY state))
             (currentY state) == p)%Q ->
  exists w' rest,
    captureLoop (S fuel) env tabId w = Some w'
    /\ trace w' = trace w ++ SendMessage tabId (SCROLL_TO (currentY state))
                           :: rest
    /\ scrollRequests rest = 0%nat
    /\ SendMessage tabId (RESTORE (originalScrollY state)) ∈ rest.
Proof.
  intros Hst Hprev Hlt Hsame.
  assert (Hstuck : isStuck (prevY state) (actualYAt env state) = true).
  { rewrite Hprev. cbn [isStuck]. apply Qeq_bool_iff, Hsame. }
  assert (Hrun : exists rest,
             run (S fuel) env tabId state
             = Some (SendMessage tabId (SCROLL_TO (currentY state)) :: rest)
             /\ scrollRequests rest = 0%nat
             /\ SendMessage tabId (RESTORE (originalScrollY state)) ∈ rest).
  { cbn [run]. unfold step.
    destruct (Nat.leb_gt MAX_STEPS (steps state)) as [_ Hb]. rewrite (Hb Hlt).
    destruct (captured _) as [dataUrl|]; [rewrite Hstuck|]; cbn [app];
      eexists; (split; [reflexivity|]).
    - split.
      + change (scrollRequests (?a :: ?b :: ?c :: ?l))
          with (scrollRequests ([a; b; c] ++ l)).
        rewrite scrollRequests_app.
        rewrite (proj1 (finishEvents_requests _ _ _)). reflexivity.
      + unfold finishEvents. cbn [app originalScrollY pushImage incrSteps].
        do 3 apply list_elem_of_further. apply list_elem_of_here.
    - split.
      + change (scrollRequests (?a :: ?b :: ?l))
          with (scrollRequests ([a; b] ++ l)).
        rewrite scrollRequests_app.
        rewrite (proj1 (finishEvents_requests _ _ _)). reflexivity.
      + unfold finishEvents. cbn [app originalScrollY incrSteps].
        do 2 apply list_elem_of_further. apply list_elem_of_here. }
  destruct Hrun as (rest & Hrun & Hscroll & Hrestore).
  destruct (run_Some (S fuel) env tabId w state _ Hst Hrun)
    as (w' & Hloop & Htrace).
  exists w', rest. auto.
Qed.

(** The orchestrator with every scroll request answered by [response]. *)
Definition answering (env : Env) (response : option ScrollResponse) : Env :=
  mkEnv (onExecuteScript env) (onInit env) (fun _ _ => response)
    (onCapture env) (onStorageSet env) (alertDefined env).

(** C9.  A scroll request that gets no response, or a response without
    [actualY], leaves the step as it is after a response that reports the
    requested offset:
    (1) the call of [captureLoop] does exactly what it does when the page
        answers [actualY = currentY];
    (2) the capture is requested after the scroll request;
    (3) when that capture succeeds, the requested offset is not the previous
        one and the bottom is not reached, the frame is stored at the
        requested offset and [captureLoop] is called again. *)
Theorem scroll_fallback (env : Env) (tabId : nat) (w : World)
        (state : Session) :
  captureState w !! tabId = Some state ->
  (steps state < MAX_STEPS)%nat ->
  (onScrollTo env (S (steps state)) (currentY state) = None
   \/ onScrollTo env (S (steps state)) (currentY state)
      = Some (mkScrollResponse None)) ->
  captureLoopBody env tabId w
  = captureLoopBody
      (answering env (Some (mkScrollResponse (Some (currentY state)))))
      tabId w
  /\ (exists rest,
        trace (fst (captureLoopBody env tabId w))
        = trace w ++ SendMessage tabId (SCROLL_TO (currentY state))
                  :: CaptureVisibleTab :: rest)
  /\ (forall url,
        captured (onCapture env (S (steps state))) = Some url ->
        isStuck (prevY state) (currentY state) = false ->
        (currentY state + visibleHeight state < fullHeight state)%Q ->
        exists state',
          captureLoopBody env tabId w
          = (mkWorld (<[tabId := state']> (captureState w))
               (trace w ++
                  [SendMessage tabId (SCROLL_TO (currentY state));
                   CaptureVisibleTab;
                   SendMessage tabId
                     (UPDATE_PROGRESS
                        (percentOf (currentY state) (fullHeight state)))]),
             true)
          /\ images state'
             = images state ++ [mkFrame (currentY state) url]).
Proof.
  intros Hst Hlt Hmissing.
  assert (Hactual : actualYAt env state = currentY state).
  { unfold actualYAt. destruct Hmissing as [-> | ->]; reflexivity. }
  destruct (Nat.leb_gt MAX_STEPS (steps state)) as [_ Hb].
  pose proof (captureLoopBody_eq env tabId w state Hst) as Hbody.
  unfold step in Hbody. rewrite (Hb Hlt), Hactual in Hbody.
  split; [|split].
  - unfold captureLoopBody. rewrite Hst, (Hb Hlt).
    cbn [onScrollTo onCapture answering incrSteps steps currentY].
    fold (actualYAt env state). rewrite Hactual. reflexivity.
  - destruct (captured _).
    + destruct (isStuck _ _); [|destruct (Js.ge _ _)].
      * destruct Hbody as [_ Ht]. rewrite Ht. eexists. reflexivity.
      * destruct Hbody as [_ Ht]. rewrite Ht. eexists. reflexivity.
      * rewrite Hbody. cbn [fst trace]. eexists. reflexivity.
    + destruct Hbody as [_ Ht]. rewrite Ht. eexists. reflexivity.
  - intros url Hcap Hns Hroom. rewrite Hcap, Hns in Hbody.
    destruct (Js.ge _ _) eqn:Hge.
    + apply JsFacts.ge_spec in Hge. exfalso. exact (Qlt_not_le _ _ Hroom Hge).
    + eexists. split; [exact Hbody|]. reflexivity.
Qed.

(** Closes a goal from a hypothesis that an event is in a list of events
    none of which it is. *)
Ltac absent H :=
  apply list_elem_of_In in H; cbn [In app] in H; intuition discriminate.

(** The frames of a session end with the frame taken at [prevY]. *)
Definition lastFrameAtPrevY (state : Session) : Prop :=
  forall p, prevY state = Some p ->
    exists fs f, images state = fs ++ [f] /\ frame_y f = p.

Lemma step_stuck (env : Env) (tabId : nat) (state : Session)
      (t : list Event) (next : option Session) :
  step env tabId state = (t, next) ->
  Console ScrollStuck ∈ t ->
  next = None
  /\ exists p url final,
      prevY state = Some p
      /\ (actualYAt env state == p)%Q
      /\ stored t = [final]
      /\ images final = images state ++ [mkFrame (actualYAt env state) url].
Proof.
  intros H Hin.
  assert (Hfin : forall st, ~ Console ScrollStuck ∈ finishEvents env tabId st).
  { intros st Hf. unfold finishEvents in Hf.
    destruct (onStorageSet env st), (alertDefined env); absent Hf. }
  step_cases H; cbn [app] in Hin;
    repeat match type of Hin with
           | _ ∈ finishEvents _ _ _ => fail 1
           | _ ∈ _ :: _ =>
               apply elem_of_cons in Hin; destruct Hin as [Hin|Hin];
               [discriminate Hin|]
           end;
    try (exfalso; exact (Hfin _ Hin)); try (inversion Hin; fail).
  split; [reflexivity|].
  unfold isStuck in Hstuck. destruct (prevY state) as [p|] eqn:Hprev;
    [|discriminate].
  apply Qeq_bool_iff in Hstuck.
  exists p, dataUrl,
    (pushImage (mkFrame (actualYAt env state) dataUrl) (incrSteps state)).
  split; [reflexivity|]. split; [exact Hstuck|].
  split; [|reflexivity].
  change (stored (?a :: ?b :: ?c :: ?d :: ?l))
    with (stored ([a; b; c; d] ++ l)).
  rewrite stored_app, finishEvents_stored. reflexivity.
Qed.

Lemma run_stuck (env : Env) (tabId : nat) (fuel : nat) (state : Session)
      (t : list Event) :
  run fuel env tabId state = Some t ->
  lastFrameAtPrevY state ->
  Console ScrollStuck ∈ t ->
  exists final fs f1 f2,
    stored t = [final]
    /\ images final = fs ++ [f1; f2]
    /\ (frame_y f1 == frame_y f2)%Q.
Proof.
  revert fuel state t.
  apply (run_induction env tabId
           (fun state t =>
              lastFrameAtPrevY state ->
              Console ScrollStuck ∈ t ->
              exists final fs f1 f2,
                stored t = [final]
                /\ images final = fs ++ [f1; f2]
                /\ (frame_y f1 == frame_y f2)%Q)).
  - intros state t Hstep Hinv Hin.
    destruct (step_stuck _ _ _ _ _ Hstep Hin)
      as (_ & p & url & final & Hprev & Hsame & Hst & Himgs).
    destruct (Hinv p Hprev) as (fs & f & Hfs & Hf).
    exists final, fs, f, (mkFrame (actualYAt env state) url).
    split; [exact Hst|]. split.
    + rewrite Himgs, Hfs, <- app_assoc. reflexivity.
    + cbn [frame_y]. rewrite Hf. symmetry. exact Hsame.
  - intros state t state' t' Hstep IH Hinv Hin.
    destruct (step_continues _ _ _ _ _ Hstep)
      as (_ & _ & _ & _ & _ & Hstored & [url Himgs] & Hprev & _).
    apply elem_of_app in Hin. destruct Hin as [Hin|Hin].
    { destruct (step_stuck _ _ _ _ _ Hstep Hin) as [Hnone _]. discriminate. }
    destruct IH as (final & fs & f1 & f2 & Hst & Hfs & Heq); [|exact Hin|].
    + intros p Hp. rewrite Hprev in Hp. injection Hp as <-.
      eexists _, _. split; [exact Himgs|reflexivity].
    + exists final, fs, f1, f2. rewrite stored_app, Hstored.
      split; [exact Hst|]. split; assumption.
Qed.

(** C10.  In a capture that ends by stuck detection (the run logs 'Scroll
    stuck, finishing.'), the session handed to storage, which is what the
    result page reads, ends with two frames taken at equal offsets: the frame
    of the step before it and the frame the stuck step itself stored. *)
Theorem stuck_run_duplicates_last_frame (fuel : nat) (env : Env)
        (tabId : nat) (w w' : World) (t : list Event) :
  startCapture fuel env tabId w = Some w' ->
  trace w' = trace w ++ t ->
  Console ScrollStuck ∈ t ->
  exists final fs f1 f2,
    stored t = [final]
    /\ images final = fs ++ [f1; f2]
    /\ (frame_y f1 == frame_y f2)%Q
    /\ Stitcher.cd_images (toCapturedData final) = Some (fs ++ [f1; f2]).
Proof.
  intros Hstart Htrace Hin.
  destruct (onExecuteScript env) eqn:Hexec.
  2:{ unfold startCapture in Hstart. rewrite Hexec in Hstart.
      injection Hstart as <-. unfold emit in Htrace. cbn [trace] in Htrace.
      rewrite <- app_assoc in Htrace. apply app_inv_head in Htrace.
      subst t. exfalso. absent Hin. }
  destruct (onInit env) as [response|] eqn:Hinit.
  2:{ unfold startCapture in Hstart. rewrite Hexec, Hinit in Hstart.
      injection Hstart as <-. unfold emit in Htrace. cbn [trace] in Htrace.
      rewrite <- !app_assoc in Htrace. apply app_inv_head in Htrace.
      subst t. exfalso. absent Hin. }
  destruct (startCapture_Some fuel env tabId w w' response Hexec Hinit Hstart)
    as (t0 & Hrun & Htrace').
  rewrite Htrace' in Htrace. apply app_inv_head in Htrace. subst t.
  do 2 (apply elem_of_cons in Hin; destruct Hin as [Hin|Hin];
        [discriminate Hin|]).
  destruct (run_stuck env tabId fuel _ t0 Hrun) as
    (final & fs & f1 & f2 & Hst & Hfs & Hsame); [|exact Hin|].
  { intros p Hp. discriminate Hp. }
  exists final, fs, f1, f2.
  change (stored (?a :: ?b :: t0)) with (stored ([a; b] ++ t0)).
  rewrite stored_app, Hst.
  split; [reflexivity|]. split; [exact Hfs|]. split; [exact Hsame|].
  cbn. rewrite Hfs. reflexivity.
Qed.

(** *** Example runs *)

(** A page that does not scroll: every scroll request is answered with
    offset 0; captures and storage succeed. *)
Definition stuckEnv : Env :=
  mkEnv true (Some (mkMetrics 5000 768 2 0))
    (fun _ _ => Some (mkScrollResponse (Some 0%Q)))
    (fun _ => mkCaptureResult false (Some "data:image/png;base64,"))
    (fun _ => true) false.

(** The session of tab 7 after its first step on that page. *)
Definition afterFirstStep : Session :=
  mkSession [mkFrame 0 "data:image/png;base64,"] 5000 768 2 0 688 1 OVERLAP
    (Some 0%Q).

Definition oneSession (state : Session) : World :=
  mkWorld (<[7%nat := state]> ∅) [].

Lemma stuck_detection_example :
  exists w' rest,
    captureLoop 3 stuckEnv 7 (oneSession afterFirstStep) = Some w'
    /\ trace w'
       = trace (oneSession afterFirstStep)
           ++ SendMessage 7 (SCROLL_TO (currentY afterFirstStep)) :: rest
    /\ scrollRequests rest = 0%nat
    /\ SendMessage 7 (RESTORE (originalScrollY afterFirstStep)) ∈ rest.
Proof.
  apply (stuck_detection stuckEnv 7 (oneSession afterFirstStep)
           afterFirstStep 0 2).
  - reflexivity.
  - reflexivity.
  - vm_compute. lia.
  - reflexivity.
Defined.

(** A page whose agent never answers a scroll request. *)
Definition silentEnv : Env :=
  mkEnv true (Some (mkMetrics 5000 768 2 0))
    (fun _ _ => None)
    (fun _ => mkCaptureResult false (Some "data:image/png;base64,"))
    (fun _ => true) false.

Lemma scroll_fallback_example :
  captureLoopBody silentEnv 7 (oneSession afterFirstStep)
  = captureLoopBody
      (answering silentEnv (Some (mkScrollResponse (Some 688%Q)))) 7
      (oneSession afterFirstStep)
  /\ snd (captureLoopBody silentEnv 7 (oneSession afterFirstStep)) = true.
Proof.
  destruct (scroll_fallback silentEnv 7 (oneSession afterFirstStep)
              afterFirstStep) as (Hsame & _ & Hgoes).
  - reflexivity.
  - vm_compute. lia.
  - left. reflexivity.
  - split; [exact Hsame|].
    destruct (Hgoes "data:image/png;base64,") as (state' & Hbody & _).
    + reflexivity.
    + reflexivity.
    + vm_compute. reflexivity.
    + rewrite Hbody. reflexivity.
Defined.

(** The events of a capture of the page that does not scroll. *)
Definition stuckTrace : list Event :=
  let frame := mkFrame 0 "data:image/png;base64," in
  [ExecuteScript 7; SendMessage 7 INIT_CAPTURE;
   SendMessage 7 (SCROLL_TO 0); CaptureVisibleTab;
   SendMessage 7 (UPDATE_PROGRESS (PNum 0));
   SendMessage 7 (SCROLL_TO (0 + 768 - OVERLAP)); CaptureVisibleTab;
   SendMessage 7 (UPDATE_PROGRESS (PNum 0));
   Console ScrollStuck; SendMessage 7 (RESTORE 0);
   StorageSet
     (mkSession [frame; frame] 5000 768 2 0 (0 + 768 - OVERLAP) 2 OVERLAP
        (Some 0%Q));
   TabsCreate].

Lemma stuck_run_example :
  exists final fs f1 f2,
    stored stuckTrace = [final]
    /\ images final = fs ++ [f1; f2]
    /\ (frame_y f1 == frame_y f2)%Q
    /\ Stitcher.cd_images (toCapturedData final) = Some (fs ++ [f1; f2]).
Proof.
  apply (stuck_run_duplicates_last_frame 5 stuckEnv 7 (mkWorld ∅ [])
           (mkWorld ∅ stuckTrace) stuckTrace).
  - reflexivity.
  - reflexivity.
  - apply list_elem_of_In. cbn. tauto.
Defined.

End OrchestratorFacts.

(** ** The locator *)

Module LocatorFacts.

Import ContentScript.

(** *** The sort *)

Section Sort.

Context {A : Type} (key : A -> Z).

(** The comparator of the locator, on any key. *)
Definition descending (a b : A) : Z := (key b - key a)%Z.

Lemma sort_cons (x : A) (l : list A) :
  sort descending (x :: l) = insertSorted descending x (sort descending l).
Proof. reflexivity. Qed.

Lemma insertSorted_not_nil (x : A) (l : list A) :
  insertSorted descending x l <> [].
Proof. destruct l as [|y l]; cbn; [|destruct (_ <=? 0)%Z]; discriminate. Qed.

Lemma sort_nil (l : list A) : sort descending l = [] -> l = [].
Proof.
  destruct l as [|x l]; [reflexivity|]. rewrite sort_cons. intros H.
  exfalso. exact (insertSorted_not_nil _ _ H).
Qed.

Lemma insertSorted_perm (x : A) (l : list A) :
  insertSorted descending x l ≡ₚ x :: l.
Proof.
  induction l as [|y l IH]; cbn; [reflexivity|].
  destruct (_ <=? 0)%Z; [reflexivity|].
  rewrite IH. apply Permutation_swap.
Qed.

(** The sort keeps the elements. *)
Lemma sort_perm (l : list A) : sort descending l ≡ₚ l.
Proof.
  induction l as [|x l IH]; [reflexivity|].
  rewrite sort_cons, insertSorted_perm, IH. reflexivity.
Qed.

Lemma insertSorted_sorted (x : A) (l : list A) :
  StronglySorted (fun a b => (key b <= key a)%Z) l ->
  StronglySorted (fun a b => (key b <= key a)%Z)
                 (insertSorted descending x l).
Proof.
  induction 1 as [|y l Hs IH Hall]; cbn [insertSorted].
  - repeat constructor.
  - unfold descending at 1. destruct (key y - key x <=? 0)%Z eqn:Hcmp.
    + apply Z.leb_le in Hcmp. constructor; [constructor; assumption|].
      constructor; [lia|].
      eapply Forall_impl; [exact Hall|]. cbn. intros; lia.
    + apply Z.leb_gt in Hcmp. constructor; [exact IH|].
      rewrite insertSorted_perm. constructor; [lia|exact Hall].
Qed.

(** The sort puts the keys in descending order. *)
Lemma sort_sorted (l : list A) :
  StronglySorted (fun a b => (key b <= key a)%Z) (sort descending l).
Proof.
  induction l as [|x l IH]; [constructor|].
  rewrite sort_cons. apply insertSorted_sorted, IH.
Qed.

(** The first element after the sort is the first one of the input among
    those with the largest key: everything before it in the input has a
    smaller key, nothing after it has a larger one. *)
Lemma sort_head (l : list A) (c : A) (rest : list A) :
  sort descending l = c :: rest ->
  exists l1 l2,
    l = l1 ++ c :: l2
    /\ (forall a, a ∈ l1 -> (key a < key c)%Z)
    /\ (forall b, b ∈ l2 -> (key b <= key c)%Z).
Proof.
  revert c rest. induction l as [|x l IH]; intros c rest H; [discriminate|].
  rewrite sort_cons in H.
  destruct (sort descending l) as [|y sorted] eqn:Hs.
  - apply sort_nil in Hs. subst l. cbn in H. injection H as <- <-.
    exists [], []. split; [reflexivity|].
    split; intros ? Hin; inversion Hin.
  - destruct (IH y sorted eq_refl) as (l1 & l2 & -> & Hbefore & Hafter).
    cbn in H. unfold descending at 1 in H.
    destruct (key y - key x <=? 0)%Z eqn:Hcmp.
    + injection H as <- <-. apply Z.leb_le in Hcmp.
      exists [], (l1 ++ y :: l2). split; [reflexivity|].
      split; [intros ? Hin; inversion Hin|].
      intros b Hb. apply elem_of_app in Hb. destruct Hb as [Hb|Hb].
      * specialize (Hbefore b Hb). lia.
      * apply elem_of_cons in Hb. destruct Hb as [->|Hb]; [lia|].
        specialize (Hafter b Hb). lia.
    + injection H as <- <-. apply Z.leb_gt in Hcmp.
      exists (x :: l1), l2. split; [reflexivity|].
      split; [|exact Hafter].
      intros a Ha. apply elem_of_cons in Ha. destruct Ha as [->|Ha]; [lia|].
      apply Hbefore, Ha.
Qed.

End Sort.

(** *** Visibility, in the words of the filter *)

Definition invisible (el : Element) : Prop :=
  el_display el = "none" \/ el_visibility el = "hidden" \/ el_opacity el = "0".

Definition zeroArea (el : Element) : Prop :=
  (rect_width (el_rect el) == 0 \/ rect_height (el_rect el) == 0)%Q.

Definition outsideViewport (doc : Document) (el : Element) : Prop :=
  (inject_Z (innerHeight doc) <= rect_top (el_rect el)
   \/ rect_bottom (el_rect el) <= 0
   \/ inject_Z (innerWidth doc) <= rect_left (el_rect el)
   \/ rect_right (el_rect el) <= 0)%Q.

Definition shown (doc : Document) (el : Element) : Prop :=
  ~ invisible el /\ ~ zeroArea el /\ ~ outsideViewport doc el.

(** Content longer than the box. *)
Definition scrolls (el : Element) : Prop :=
  (el_clientHeight el < el_scrollHeight el)%Z.

Lemma isVisible_shown (doc : Document) (el : Element) :
  isVisible doc el = true <-> shown doc el.
Proof.
  unfold isVisible, shown, invisible, zeroArea, outsideViewport.
  destruct (String.eqb_spec (el_display el) "none") as [Hd|Hd];
    [split; [discriminate|tauto]|].
  destruct (String.eqb_spec (el_visibility el) "hidden") as [Hv|Hv];
    [split; [discriminate|tauto]|].
  destruct (String.eqb_spec (el_opacity el) "0") as [Ho|Ho];
    [split; [discriminate|tauto]|].
  cbn [orb].
  destruct (Qeq_bool (rect_width (el_rect el)) 0) eqn:Hw;
    [apply Qeq_bool_iff in Hw; split; [discriminate|tauto]|].
  destruct (Qeq_bool (rect_height (el_rect el)) 0) eqn:Hh;
    [apply Qeq_bool_iff in Hh; split; [discriminate|tauto]|].
  apply Qeq_bool_neq in Hw, Hh. cbn [orb].
  destruct (Js.ge (rect_top (el_rect el)) _) eqn:H1;
    [apply JsFacts.ge_spec in H1; split; [discriminate|tauto]|].
  destruct (Js.le (rect_bottom (el_rect el)) 0) eqn:H2;
    [apply JsFacts.le_spec in H2; split; [discriminate|tauto]|].
  destruct (Js.ge (rect_left (el_rect el)) _) eqn:H3;
    [apply JsFacts.ge_spec in H3; split; [discriminate|tauto]|].
  destruct (Js.le (rect_right (el_rect el)) 0) eqn:H4;
    [apply JsFacts.le_spec in H4; split; [discriminate|tauto]|].
  cbn [orb]. split; [intros _|reflexivity].
  assert (N1 : ~ (inject_Z (innerHeight doc) <= rect_top (el_rect el))%Q)
    by (intros X; apply JsFacts.ge_spec in X; congruence).
  assert (N2 : ~ (rect_bottom (el_rect el) <= 0)%Q)
    by (intros X; apply JsFacts.le_spec in X; congruence).
  assert (N3 : ~ (inject_Z (innerWidth doc) <= rect_left (el_rect el))%Q)
    by (intros X; apply JsFacts.ge_spec in X; congruence).
  assert (N4 : ~ (rect_right (el_rect el) <= 0)%Q)
    by (intros X; apply JsFacts.le_spec in X; congruence).
  tauto.
Qed.

Lemma isScrollable_scrolls (el : Element) :
  isScrollable el = true -> scrolls el.
Proof.
  unfold isScrollable, scrolls. intros H.
  apply andb_true_iff in H. destruct H as [_ H]. lia.
Qed.

Lemma isCandidate_shown (doc : Document) (el : Element) :
  isCandidate doc el = true -> shown doc el /\ scrolls el.
Proof.
  unfold isCandidate. destruct (_ || _); [discriminate|].
  intros H. apply andb_true_iff in H. destruct H as [Hv Hs].
  split; [apply isVisible_shown, Hv|apply isScrollable_scrolls, Hs].
Qed.

(** The survivors are the elements that pass the filter. *)
Lemma survivors_spec (doc : Document) (i : nat) :
  i ∈ survivors doc
  <-> exists el, elements doc !! i = Some el /\ isCandidate doc el = true.
Proof.
  unfold survivors. rewrite list_elem_of_omap. split.
  - intros ([j el] & Hin & Hf).
    apply elem_of_lookup_imap_1 in Hin.
    destruct Hin as (k & el' & Heq & Hk). injection Heq as -> ->.
    destruct (isCandidate doc el') eqn:Hc; [|discriminate].
    injection Hf as <-. eauto.
  - intros (el & Hi & Hc). exists (i, el). split.
    + apply (elem_of_lookup_imap_2 pair _ _ _ Hi).
    + rewrite Hc. reflexivity.
Qed.

(** The scrolling root is pushed when it is there and scrolls. *)
Lemma scrollingRoot_spec (doc : Document) (r : nat) :
  r ∈ scrollingRoot doc
  <-> scrollingElement doc = Some r
      /\ exists el, elements doc !! r = Some el /\ scrolls el.
Proof.
  unfold scrollingRoot, scrolls.
  destruct (scrollingElement doc) as [r'|].
  2:{ split; [intros H; inversion H|intros [H _]; discriminate]. }
  destruct (elements doc !! r') as [el|] eqn:Hel.
  2:{ split; [intros H; inversion H|].
      intros [H (el & Hl & _)]. injection H as ->. congruence. }
  destruct (el_scrollHeight el >? el_clientHeight el)%Z eqn:Hgt.
  - split.
    + intros H. apply list_elem_of_singleton in H. subst r'.
      split; [reflexivity|]. exists el. split; [exact Hel|lia].
    + intros [H _]. injection H as ->. apply list_elem_of_singleton.
      reflexivity.
  - split; [intros H; inversion H|].
    intros [H (el' & Hl & Hs)]. injection H as ->.
    rewrite Hel in Hl. injection Hl as <-. lia.
Qed.

(** What the locator returns, by the list of candidates. *)
Lemma findScrollableElement_cases (doc : Document) :
  (candidates doc = [] /\ findScrollableElement doc = documentElement doc)
  \/ exists l1 l2,
      candidates doc = l1 ++ findScrollableElement doc :: l2
      /\ (forall a, a ∈ l1 ->
            (scrollHeightOf doc a
             < scrollHeightOf doc (findScrollableElement doc))%Z)
      /\ (forall b, b ∈ l2 ->
            (scrollHeightOf doc b
             <= scrollHeightOf doc (findScrollableElement doc))%Z).
Proof.
  unfold findScrollableElement.
  change (fun a b => (scrollHeightOf doc b - scrollHeightOf doc a)%Z)
    with (descending (scrollHeightOf doc)).
  destruct (sort _ (candidates doc)) as [|c rest] eqn:Hs.
  - left. split; [apply (sort_nil _ _ Hs)|reflexivity].
  - right. apply (sort_head _ _ _ _ Hs).
Qed.

(** The element returned is an element of the document, or the root. *)
Lemma locator_result_cases (doc : Document) :
  (exists el, elements doc !! findScrollableElement doc = Some el)
  \/ findScrollableElement doc = documentElement doc.
Proof.
  destruct (findScrollableElement_cases doc)
    as [[_ Hroot]|(l1 & l2 & Hsplit & _)]; [right; exact Hroot|left].
  assert (Hin : findScrollableElement doc ∈ candidates doc).
  { rewrite Hsplit. apply elem_of_app. right. left. }
  unfold candidates in Hin. apply elem_of_app in Hin.
  destruct Hin as [Hin|Hin].
  - apply survivors_spec in Hin. destruct Hin as (el & Hel & _). eauto.
  - apply scrollingRoot_spec in Hin. destruct Hin as (_ & el & Hel & _).
    eauto.
Qed.

(** At most one place of a list splits it into smaller keys before and no
    larger keys after. *)
Lemma first_max_unique {A : Type} (key : A -> Z) (l1 l1' l2 l2' : list A)
      (a b : A) :
  l1 ++ a :: l2 = l1' ++ b :: l2' ->
  (forall x, x ∈ l1 -> (key x < key a)%Z) ->
  (forall x, x ∈ l2 -> (key x <= key a)%Z) ->
  (forall x, x ∈ l1' -> (key x < key b)%Z) ->
  (forall x, x ∈ l2' -> (key x <= key b)%Z) ->
  a = b.
Proof.
  revert l1'. induction l1 as [|x l1 IH]; intros [|y l1'] Heq Ha1 Ha2 Hb1 Hb2;
    cbn in Heq.
  - injection Heq as Hab _. exact Hab.
  - injection Heq as Hay Hl2. subst y l2.
    assert (key a < key b)%Z by (apply Hb1; left).
    assert (key b <= key a)%Z
      by (apply Ha2, elem_of_app; right; left).
    lia.
  - injection Heq as Hxb Hl2. subst x l2'.
    assert (key b < key a)%Z by (apply Ha1; left).
    assert (key a <= key b)%Z
      by (apply Hb2, elem_of_app; right; left).
    lia.
  - injection Heq as Hxy Heq. subst y. apply (IH l1' Heq); auto.
    + intros z Hz. apply Ha1. right. exact Hz.
    + intros z Hz. apply Hb1. right. exact Hz.
Qed.

(** The filter keeps the document order. *)
Lemma survivors_from (doc : Document) (k : nat) (l : list Element) :
  let found :=
    omap (fun '(i, el) => if isCandidate doc el then Some i else None)
         (imap (fun i el => ((k + i)%nat, el)) l) in
  StronglySorted lt found /\ Forall (le k) found.
Proof.
  revert k. induction l as [|x l IH]; intros k found; subst found.
  - split; constructor.
  - rewrite imap_cons.
    rewrite (imap_ext _ (fun i el => ((S k + i)%nat, el)))
      by (intros; cbn; f_equal; lia).
    destruct (IH (S k)) as [Hs Hge]. cbn [omap list_omap].
    assert (Hge' : Forall (le k)
              (omap (fun '(i, el) => if isCandidate doc el then Some i
                                     else None)
                    (imap (fun i el => ((S k + i)%nat, el)) l))).
    { eapply Forall_impl; [exact Hge|]. cbn. intros; lia. }
    destruct (isCandidate doc x); [|split; assumption].
    split.
    + constructor; [exact Hs|].
      eapply Forall_impl; [exact Hge|]. cbn. intros; lia.
    + constructor; [lia|exact Hge'].
Qed.

Lemma survivors_sorted (doc : Document) : StronglySorted lt (survivors doc).
Proof. apply (survivors_from doc 0 (elements doc)). Qed.

(** What C1 claims of a document, in its weakest reading: the element
    returned is shown (not invisible, not of zero area, not wholly outside
    the viewport), or else it is the root element. *)
Definition returnsShownElseRoot (doc : Document) : Prop :=
  (exists el, elements doc !! findScrollableElement doc = Some el
              /\ shown doc el)
  \/ findScrollableElement doc = documentElement doc.

(** A page in quirks mode, scrolled down by 1000 pixels in a 1024 by 768
    window.  The scrolling element is the body; its box, as high as the
    window, has left the viewport, while its content is 5000 pixels long.
    A fixed panel with [overflow-y: auto] fills the window and holds 1000
    pixels of content. *)
Definition scrolledPage : Document :=
  let html :=
    mkElement "" "block" "visible" "1" "visible" "static"
      (mkRect (-1000) (-232) 0 1024 1024 768) 1024 768 768 "" "" "" 0 in
  let body :=
    mkElement "" "block" "visible" "1" "visible" "static"
      (mkRect (-1000) (-232) 0 1024 1024 768) 1024 768 5000 "" "" "" 1000 in
  let panel :=
    mkElement "panel" "block" "visible" "1" "auto" "fixed"
      (mkRect 0 768 0 1024 1024 768) 1024 768 1000 "" "" "" 0 in
  mkDocument [html; body; panel] 0 (Some 1%nat) 1024 768 1 1000 (Some 1%nat).

(** On [scrolledPage] the locator returns the body, whose box is wholly
    outside the viewport and which is not the root element, although the
    panel, which is shown and scrolls, passed the filters. *)
Lemma locator_returns_offscreen_body : ~ returnsShownElseRoot scrolledPage.
Proof.
  intros [(el & Hel & _ & _ & Hout)|Hroot].
  - vm_compute in Hel. injection Hel as <-. apply Hout.
    right. left. vm_compute. discriminate.
  - vm_compute in Hroot. discriminate Hroot.
Qed.

(** C1, amended.  The element the locator returns is
    - an element that passed the filters, which is shown (not invisible, not
      of zero area, not wholly outside the viewport) and scrolls, or
    - the document's scrolling element, taken without the visibility test
      because its content is longer than its box, or
    - the root element, when no element passed the filters and the scrolling
      element was not taken. *)
Theorem locator_result (doc : Document) :
  (findScrollableElement doc ∈ survivors doc
   /\ exists el, elements doc !! findScrollableElement doc = Some el
                 /\ shown doc el /\ scrolls el)
  \/ (scrollingElement doc = Some (findScrollableElement doc)
      /\ exists el, elements doc !! findScrollableElement doc = Some el
                    /\ scrolls el)
  \/ (survivors doc = [] /\ scrollingRoot doc = []
      /\ findScrollableElement doc = documentElement doc).
Proof.
  destruct (findScrollableElement_cases doc)
    as [[Hnil Hroot]|(l1 & l2 & Hsplit & _)].
  - right. right. unfold candidates in Hnil.
    apply app_eq_nil in Hnil. destruct Hnil. auto.
  - assert (Hin : findScrollableElement doc ∈ candidates doc).
    { rewrite Hsplit. apply elem_of_app. right. left. }
    unfold candidates in Hin. apply elem_of_app in Hin.
    destruct Hin as [Hin|Hin].
    + left. split; [exact Hin|].
      apply survivors_spec in Hin. destruct Hin as (el & Hel & Hc).
      exists el. split; [exact Hel|]. apply isCandidate_shown, Hc.
    + right. left. apply scrollingRoot_spec, Hin.
Qed.

(** C2.  The candidates are the elements that passed the filters, in
    document order, followed by the scrolling element when its content is
    longer than its box (so it comes last and loses every tie).  The locator
    sorts them by [scrollHeight], largest first, and returns the first; this
    is the candidate with the largest [scrollHeight] that comes first in the
    enumeration: a candidate that has only smaller ones before it and no
    larger one after it is the one returned, and such a candidate exists
    unless there is no candidate at all, when the root element is
    returned. *)
Theorem locator_order (doc : Document) :
  candidates doc = survivors doc ++ scrollingRoot doc
  /\ (exists sorted,
        sorted ≡ₚ candidates doc
        /\ StronglySorted
             (fun a b => (scrollHeightOf doc b <= scrollHeightOf doc a)%Z)
             sorted
        /\ findScrollableElement doc
           = match sorted with
             | chosen :: _ => chosen
             | [] => documentElement doc
             end)
  /\ StronglySorted lt (survivors doc)
  /\ (forall r, r ∈ scrollingRoot doc
                <-> scrollingElement doc = Some r
                    /\ exists el, elements doc !! r = Some el /\ scrolls el)
  /\ (forall l1 a l2,
        candidates doc = l1 ++ a :: l2 ->
        (forall x, x ∈ l1 -> (scrollHeightOf doc x < scrollHeightOf doc a)%Z) ->
        (forall x, x ∈ l2 ->
                   (scrollHeightOf doc x <= scrollHeightOf doc a)%Z) ->
        findScrollableElement doc = a)
  /\ ((candidates doc = []
       /\ findScrollableElement doc = documentElement doc)
      \/ exists l1 l2,
          candidates doc = l1 ++ findScrollableElement doc :: l2
          /\ (forall x, x ∈ l1 ->
                (scrollHeightOf doc x
                 < scrollHeightOf doc (findScrollableElement doc))%Z)
          /\ (forall x, x ∈ l2 ->
                (scrollHeightOf doc x
                 <= scrollHeightOf doc (findScrollableElement doc))%Z)).
Proof.
  split; [reflexivity|]. split.
  { exists (sort (descending (scrollHeightOf doc)) (candidates doc)).
    split; [apply sort_perm|]. split; [apply sort_sorted|reflexivity]. }
  split; [apply survivors_sorted|].
  split; [apply scrollingRoot_spec|].
  split; [|apply findScrollableElement_cases].
  intros l1 a l2 Hsplit Hbefore Hafter.
  destruct (findScrollableElement_cases doc)
    as [[Hnil _]|(l1' & l2' & Hsplit' & Hbefore' & Hafter')].
  - rewrite Hnil in Hsplit. destruct l1; discriminate.
  - symmetry. rewrite Hsplit in Hsplit'.
    exact (first_max_unique (scrollHeightOf doc) _ _ _ _ _ _ Hsplit'
             Hbefore Hafter Hbefore' Hafter').
Qed.

(** Two shown, scrolling panels with 1000 and 5000 pixels of content, in a
    document whose root does not scroll. *)
Definition twoPanels (first second : Z) : Document :=
  let plain sh :=
    mkElement "" "block" "visible" "1" "visible" "static"
      (mkRect 0 768 0 1024 1024 768) 1024 768 sh "" "" "" 0 in
  let panel sh :=
    mkElement "" "block" "visible" "1" "auto" "static"
      (mkRect 0 768 0 1024 1024 768) 1024 768 sh "" "" "" 0 in
  mkDocument [plain 768%Z; plain 768%Z; panel first; panel second] 0
    (Some 0%nat) 1024 768 1 0 (Some 1%nat).

(** The locator returns the panel with 5000 pixels of content, whichever
    comes first; of two panels with equal content it returns the first. *)
Lemma locator_order_example :
  findScrollableElement (twoPanels 1000 5000) = 3%nat
  /\ findScrollableElement (twoPanels 5000 1000) = 2%nat
  /\ findScrollableElement (twoPanels 5000 5000) = 2%nat.
Proof.
  split; [|split].
  - apply (proj1 (proj2 (proj2 (proj2 (proj2
             (locator_order (twoPanels 1000 5000))))))
             [2%nat] 3%nat []).
    + reflexivity.
    + intros x Hx. apply list_elem_of_singleton in Hx. subst x.
      vm_compute. reflexivity.
    + intros x Hx. inversion Hx.
  - apply (proj1 (proj2 (proj2 (proj2 (proj2
             (locator_order (twoPanels 5000 1000))))))
             [] 2%nat [3%nat]).
    + reflexivity.
    + intros x Hx. inversion Hx.
    + intros x Hx. apply list_elem_of_singleton in Hx. subst x.
      vm_compute. discriminate.
  - apply (proj1 (proj2 (proj2 (proj2 (proj2
             (locator_order (twoPanels 5000 5000))))))
             [] 2%nat [3%nat]).
    + reflexivity.
    + intros x Hx. inversion Hx.
    + intros x Hx. apply list_elem_of_singleton in Hx. subst x.
      vm_compute. discriminate.
Defined.

End LocatorFacts.

(** ** The page agent *)

Module AgentFacts.

Import Protocol ContentScript.

(** *** What a write leaves in an element *)

Lemma setStyleVisibility_same (el : Element) :
  setStyleVisibility (el_styleVisibility el) el = el.
Proof. destruct el; reflexivity. Qed.

Lemma setStyleVisibility_twice (v v' : string) (el : Element) :
  setStyleVisibility v (setStyleVisibility v' el) = setStyleVisibility v el.
Proof. reflexivity. Qed.

Lemma inlineOverflow_same (el : Element) :
  inlineOverflow (el_styleOverflow el) el = el.
Proof. destruct el; reflexivity. Qed.

Lemma inlineOverflow_twice (o o' : string) (el : Element) :
  inlineOverflow o (inlineOverflow o' el) = inlineOverflow o el.
Proof. reflexivity. Qed.

Lemma atOffset_twice (y y' : Q) (el : Element) :
  atOffset y (atOffset y' el) = atOffset y el.
Proof. reflexivity. Qed.

Lemma visibility_overflow (v o : string) (el : Element) :
  setStyleVisibility v (inlineOverflow o el)
  = inlineOverflow o (setStyleVisibility v el).
Proof. reflexivity. Qed.

Lemma visibility_atOffset (v : string) (y : Q) (el : Element) :
  setStyleVisibility v (atOffset y el) = atOffset y (setStyleVisibility v el).
Proof. reflexivity. Qed.

Lemma overflow_atOffset (o : string) (y : Q) (el : Element) :
  inlineOverflow o (atOffset y el) = atOffset y (inlineOverflow o el).
Proof. reflexivity. Qed.

(** A change the script makes: it leaves the layout alone, so that it
    commutes with a new layout. *)
Definition scriptWrite (f : Element -> Element) : Prop :=
  forall layout el, f (relaid layout el) = relaid layout (f el).

Lemma scriptWrite_visibility (v : string) : scriptWrite (setStyleVisibility v).
Proof. intros layout el. reflexivity. Qed.

Lemma scriptWrite_overflow (o : string) : scriptWrite (inlineOverflow o).
Proof. intros layout el. reflexivity. Qed.

Lemma scriptWrite_atOffset (y : Q) : scriptWrite (atOffset y).
Proof. intros layout el. reflexivity. Qed.

Lemma relaid_twice (layout layout' : Element) (el : Element) :
  relaid layout (relaid layout' el) = relaid layout el.
Proof. reflexivity. Qed.

Lemma styledOf_relaid (layout el : Element) :
  styledOf (relaid layout el) = styledOf el.
Proof. reflexivity. Qed.

(** *** Changes of the document *)

Lemma withElements_same (doc : Document) : withElements (elements doc) doc = doc.
Proof. destruct doc; reflexivity. Qed.

(** Writes that commute on an element commute on the document, whatever
    elements they go to. *)
Lemma update_comm (f g : Element -> Element) (i j : nat) (doc : Document) :
  (forall el, f (g el) = g (f el)) ->
  update f i (update g j doc) = update g j (update f i doc).
Proof.
  intros Hfg. unfold update, withElements. cbn. f_equal.
  destruct (decide (i = j)) as [->|Hne].
  - rewrite !list_alter_alter_eq. apply list_alter_ext; [|reflexivity].
    intros el _. cbn. apply Hfg.
  - apply list_alter_alter_ne, Hne.
Qed.

(** A write that overrides another one absorbs it. *)
Lemma update_absorb (f g : Element -> Element) (i : nat) (doc : Document) :
  (forall el, f (g el) = f el) ->
  update f i (update g i doc) = update f i doc.
Proof.
  intros Hfg. unfold update, withElements. cbn. f_equal.
  rewrite list_alter_alter_eq. apply list_alter_ext; [|reflexivity].
  intros el _. cbn. apply Hfg.
Qed.

(** A write that changes nothing in the element it goes to. *)
Lemma update_same (f : Element -> Element) (i : nat) (doc : Document) :
  (forall el, elements doc !! i = Some el -> f el = el) ->
  update f i doc = doc.
Proof.
  intros Hf. unfold update.
  transitivity (withElements (elements doc) doc);
    [|apply withElements_same].
  f_equal. apply list_eq. intros k. rewrite list_lookup_alter.
  destruct (decide (i = k)) as [->|]; [|reflexivity].
  destruct (elements doc !! k) as [el|] eqn:Hk; [|reflexivity].
  cbn. rewrite (Hf el eq_refl). reflexivity.
Qed.

Lemma scrollContainerAt_update (y : Q) (c : nat) (f : Element -> Element)
      (i : nat) (doc : Document) :
  (forall y' el, f (atOffset y' el) = atOffset y' (f el)) ->
  scrollContainerAt y c (update f i doc)
  = update f i (scrollContainerAt y c doc).
Proof.
  intros Hf. unfold scrollContainerAt.
  change (documentElement (update f i doc)) with (documentElement doc).
  destruct (Nat.eqb c (documentElement doc)); [reflexivity|].
  apply update_comm. intros el. symmetry. apply Hf.
Qed.

Lemma scrollContainerAt_twice (y y' : Q) (c : nat) (doc : Document) :
  scrollContainerAt y c (scrollContainerAt y' c doc)
  = scrollContainerAt y c doc.
Proof.
  unfold scrollContainerAt.
  destruct (Nat.eqb c (documentElement doc)) eqn:E.
  - change (documentElement (windowAt y' doc)) with (documentElement doc).
    rewrite E. reflexivity.
  - change (documentElement (update (atOffset y') c doc))
      with (documentElement doc). rewrite E.
    apply update_absorb. intros el. apply atOffset_twice.
Qed.

Lemma replay_documentElement (doc : Document)
      (styles : list (nat * SavedStyle)) :
  documentElement (foldl replay doc styles) = documentElement doc.
Proof.
  revert doc. induction styles as [|s styles IH]; intros doc; [reflexivity|].
  cbn [foldl]. rewrite IH. reflexivity.
Qed.

(** Replaying the saved styles commutes with a write that leaves the
    visibility alone. *)
Lemma replay_update (f : Element -> Element) (i : nat) (doc : Document)
      (styles : list (nat * SavedStyle)) :
  (forall v el, f (setStyleVisibility v el) = setStyleVisibility v (f el)) ->
  foldl replay (update f i doc) styles = update f i (foldl replay doc styles).
Proof.
  intros Hf. revert doc. induction styles as [|s styles IH]; intros doc;
    [reflexivity|].
  cbn [foldl]. rewrite <- IH. f_equal. unfold replay.
  apply update_comm. intros el. symmetry. apply Hf.
Qed.

Lemma replay_windowAt (y : Q) (doc : Document)
      (styles : list (nat * SavedStyle)) :
  foldl replay (windowAt y doc) styles = windowAt y (foldl replay doc styles).
Proof.
  revert doc. induction styles as [|s styles IH]; intros doc; [reflexivity|].
  cbn [foldl]. rewrite <- IH. reflexivity.
Qed.

Lemma replay_scrollContainerAt (y : Q) (c : nat) (doc : Document)
      (styles : list (nat * SavedStyle)) :
  foldl replay (scrollContainerAt y c doc) styles
  = scrollContainerAt y c (foldl replay doc styles).
Proof.
  unfold scrollContainerAt. rewrite replay_documentElement.
  destruct (Nat.eqb c (documentElement doc)).
  - apply replay_windowAt.
  - apply replay_update. reflexivity.
Qed.

(** *** The inline styles of the document *)

Lemma styled_update (f : Element -> Element) (i : nat) (doc : Document) :
  (forall el, styledOf (f el) = styledOf el) ->
  styled (update f i doc) = styled doc.
Proof.
  intros Hf. unfold styled, update. cbn [elements withElements].
  apply list_eq. intros k. rewrite !list_lookup_fmap, list_lookup_alter.
  destruct (decide (i = k)) as [->|]; [|reflexivity].
  destruct (elements doc !! k); [|reflexivity]. cbn. rewrite Hf. reflexivity.
Qed.

Lemma styled_scrollContainerAt (y : Q) (c : nat) (doc : Document) :
  styled (scrollContainerAt y c doc) = styled doc.
Proof.
  unfold scrollContainerAt.
  destruct (Nat.eqb c (documentElement doc)); [reflexivity|].
  apply styled_update. reflexivity.
Qed.

Lemma styled_relayout (browser : Browser) (doc : Document) :
  styled (relayout browser doc) = styled doc.
Proof.
  unfold styled, relayout. cbn [elements withElements].
  apply list_eq. intros k. rewrite !list_lookup_fmap, list_lookup_imap.
  destruct (elements doc !! k); reflexivity.
Qed.

(** *** A new layout forgets the old one *)

(** The document as the script has written it, with no layout. *)
Definition blank : Element :=
  mkElement "" "" "" "" "" "" (mkRect 0 0 0 0 0 0) 0 0 0 "" "" "" 0.

Definition written (doc : Document) : Document :=
  withElements (relaid blank <$> elements doc) doc.

Lemma styled_written (doc : Document) : styled (written doc) = styled doc.
Proof.
  unfold styled, written. cbn [elements withElements].
  rewrite <- list_fmap_compose. reflexivity.
Qed.

Lemma relayout_written (browser : Browser) (doc : Document) :
  relayout browser (written doc) = relayout browser doc.
Proof.
  unfold relayout. rewrite styled_written.
  unfold written, withElements. cbn. f_equal.
  rewrite imap_fmap. reflexivity.
Qed.

Lemma written_relayout (browser : Browser) (doc : Document) :
  written (relayout browser doc) = written doc.
Proof.
  unfold written, relayout, withElements. cbn. f_equal.
  rewrite fmap_imap. rewrite <- imap_const. apply imap_ext. reflexivity.
Qed.

(** Documents that the script has written alike are laid out alike. *)
Lemma relayout_eq (browser : Browser) (doc doc' : Document) :
  written doc = written doc' -> relayout browser doc = relayout browser doc'.
Proof.
  intros H. rewrite <- (relayout_written browser doc),
    <- (relayout_written browser doc'), H. reflexivity.
Qed.

Lemma written_update (f : Element -> Element) (i : nat) (doc : Document) :
  scriptWrite f -> written (update f i doc) = update f i (written doc).
Proof.
  intros Hf. unfold written, update, withElements. cbn. f_equal.
  apply list_fmap_alter. apply Forall_forall. intros el _. symmetry.
  apply Hf.
Qed.

Lemma written_windowAt (y : Q) (doc : Document) :
  written (windowAt y doc) = windowAt y (written doc).
Proof. reflexivity. Qed.

Lemma written_scrollContainerAt (y : Q) (c : nat) (doc : Document) :
  written (scrollContainerAt y c doc) = scrollContainerAt y c (written doc).
Proof.
  unfold scrollContainerAt.
  change (documentElement (written doc)) with (documentElement doc).
  destruct (Nat.eqb c (documentElement doc)); [reflexivity|].
  apply written_update, scriptWrite_atOffset.
Qed.

Lemma written_replay (doc : Document) (styles : list (nat * SavedStyle)) :
  written (foldl replay doc styles) = foldl replay (written doc) styles.
Proof.
  revert doc. induction styles as [|s styles IH]; intros doc; [reflexivity|].
  cbn [foldl]. rewrite IH. f_equal.
  apply written_update, scriptWrite_visibility.
Qed.

(** A layout between two writes is forgotten by the layout after them. *)
Lemma relayout_update (browser : Browser) (f : Element -> Element) (i : nat)
      (doc : Document) :
  scriptWrite f ->
  relayout browser (update f i (relayout browser doc))
  = relayout browser (update f i doc).
Proof.
  intros Hf. apply relayout_eq.
  rewrite !written_update, written_relayout by exact Hf. reflexivity.
Qed.

Lemma relayout_twice (browser : Browser) (doc : Document) :
  relayout browser (relayout browser doc) = relayout browser doc.
Proof. apply relayout_eq, written_relayout. Qed.

(** A new layout keeps the scroll offsets. *)
Lemma relayout_scrollContainerAt (browser : Browser) (y : Q) (c : nat)
      (doc : Document) :
  relayout browser (scrollContainerAt y c doc)
  = scrollContainerAt y c (relayout browser doc).
Proof.
  unfold scrollContainerAt.
  change (documentElement (relayout browser doc)) with (documentElement doc).
  destruct (Nat.eqb c (documentElement doc)); [reflexivity|].
  unfold relayout. rewrite styled_update by reflexivity.
  unfold update, withElements. cbn. f_equal.
  apply list_eq. intros k.
  rewrite list_lookup_imap, !list_lookup_alter.
  destruct (decide (c = k)) as [->|]; rewrite ?list_lookup_imap;
    destruct (elements doc !! k); reflexivity.
Qed.

Lemma offsetAfter_scrollContainerAt (browser : Browser) (v : Q) (c' : nat)
      (doc : Document) (c : nat) (y : Q) :
  offsetAfter browser (scrollContainerAt v c' doc) c y
  = offsetAfter browser doc c y.
Proof.
  unfold offsetAfter. rewrite styled_scrollContainerAt.
  unfold scrollContainerAt.
  destruct (Nat.eqb c' (documentElement doc)); reflexivity.
Qed.

(** A scroll write overrides the offset the container was at. *)
Lemma scrollContainerTo_at (browser : Browser) (y v : Q) (c : nat)
      (doc : Document) :
  scrollContainerTo browser y c (scrollContainerAt v c doc)
  = scrollContainerTo browser y c doc.
Proof.
  unfold scrollContainerTo.
  rewrite offsetAfter_scrollContainerAt. apply scrollContainerAt_twice.
Qed.

(** *** Hiding and replaying *)

(** The elements [hideFixedElements] hides. *)
Definition hidable (el : Element) : bool :=
  negb (String.eqb (el_id el) progressBarId)
  && (String.eqb (el_position el) "fixed"
      || String.eqb (el_position el) "sticky").

Definition hideOne (el : Element) : Element :=
  if hidable el then setStyleVisibility "hidden" el else el.

Definition savedOf (el : Element) : SavedStyle :=
  mkSavedStyle (el_styleVisibility el) (el_stylePosition el).

(** The entries [hideFixedElements] records for the elements [els], the
    first of which is element [k] of the document. *)
Fixpoint savedFrom (k : nat) (els : list Element) : list (nat * SavedStyle) :=
  match els with
  | [] => []
  | el :: els' =>
      (if hidable el then [(k, savedOf el)] else []) ++ savedFrom (S k) els'
  end.

Lemma savedFrom_snoc (k : nat) (els : list Element) (el : Element) :
  savedFrom k (els ++ [el])
  = savedFrom k els
      ++ (if hidable el then [((k + length els)%nat, savedOf el)] else []).
Proof.
  revert k. induction els as [|x els IH]; intros k; cbn [savedFrom app length].
  - rewrite Nat.add_0_r, app_nil_r. reflexivity.
  - rewrite IH, <- app_assoc.
    replace (S k + length els)%nat with (k + S (length els))%nat by lia.
    reflexivity.
Qed.

Lemma savedFrom_keys (k : nat) (els : list Element) :
  Forall (fun kv => (k <= fst kv < k + length els)%nat) (savedFrom k els).
Proof.
  revert k. induction els as [|x els IH]; intros k; cbn [savedFrom length];
    [constructor|].
  apply Forall_app. split.
  - destruct (hidable x); repeat constructor; cbn; lia.
  - eapply Forall_impl; [apply IH|]. cbn. intros; lia.
Qed.

Lemma mapSet_fresh (k : nat) (v : SavedStyle) (m : list (nat * SavedStyle)) :
  Forall (fun kv => fst kv <> k) m -> mapSet k v m = m ++ [(k, v)].
Proof.
  induction 1 as [|[k' v'] m Hk _ IH]; [reflexivity|].
  cbn [mapSet app]. cbn in Hk.
  destruct (Nat.eqb_neq k k') as [_ Hn]. rewrite Hn by congruence.
  rewrite IH. reflexivity.
Qed.

Lemma hideIfFixed_at (a : Agent) (i : nat) (el : Element) :
  elements (page a) !! i = Some el ->
  hideIfFixed a i =
    if hidable el then
      mkAgent (update (setStyleVisibility "hidden") i (page a))
        (mapSet i (savedOf el) (originalStyles a))
        (originalScrollY a) (scrollContainer a) (progressBarContainer a)
        (progressBarFill a) (progressBarWidth a)
    else a.
Proof.
  intros Hi. unfold hideIfFixed, hidable. rewrite Hi.
  destruct (String.eqb (el_id el) progressBarId); [reflexivity|].
  cbn [negb andb]. destruct (_ || _); reflexivity.
Qed.

(** [hideFixedElements] after the first [k] elements. *)
Lemma hide_prefix (a : Agent) (k : nat) :
  originalStyles a = [] ->
  (k <= length (elements (page a)))%nat ->
  foldl hideIfFixed a (seq 0 k) =
    mkAgent
      (withElements
         ((hideOne <$> take k (elements (page a)))
            ++ drop k (elements (page a)))
         (page a))
      (savedFrom 0 (take k (elements (page a))))
      (originalScrollY a) (scrollContainer a) (progressBarContainer a)
      (progressBarFill a) (progressBarWidth a).
Proof.
  intros Hempty. induction k as [|k IH]; intros Hk.
  - rewrite take_0, drop_0.
    cbn [seq foldl fmap list_fmap app savedFrom].
    rewrite withElements_same, <- Hempty. destruct a; reflexivity.
  - rewrite seq_S, foldl_snoc, IH by lia. cbn [Nat.add].
    destruct (lookup_lt_is_Some_2 (elements (page a)) k) as [el Hel]; [lia|].
    assert (Hlen : length (hideOne <$> take k (elements (page a))) = k).
    { rewrite length_fmap, length_take. lia. }
    rewrite (hideIfFixed_at _ k el).
    2:{ cbn [page elements withElements].
        rewrite lookup_app_r by lia. rewrite Hlen, Nat.sub_diag.
        rewrite (drop_S _ _ _ Hel). reflexivity. }
    rewrite (take_S_r _ _ _ Hel), (drop_S _ _ _ Hel), fmap_app,
      savedFrom_snoc, <- app_assoc.
    cbn [page originalStyles originalScrollY scrollContainer
           progressBarContainer progressBarFill progressBarWidth
           fmap list_fmap app].
    rewrite length_take, Nat.min_l by lia. cbn [Nat.add].
    assert (Hone : hideOne el = if hidable el
                                then setStyleVisibility "hidden" el else el)
      by reflexivity.
    rewrite Hone. destruct (hidable el).
    + f_equal.
      * unfold update, withElements. cbn. f_equal.
        rewrite <- Hlen at 1. rewrite <- (Nat.add_0_r (length _)).
        rewrite alter_app_r. reflexivity.
      * apply mapSet_fresh.
        eapply Forall_impl; [apply savedFrom_keys|].
        cbn. intros kv. rewrite length_take. lia.
    + rewrite app_nil_r. reflexivity.
Qed.

Lemma hideFixedElements_eq (a : Agent) :
  originalStyles a = [] ->
  hideFixedElements a =
    mkAgent
      (withElements (hideOne <$> elements (page a)) (page a))
      (savedFrom 0 (elements (page a)))
      (originalScrollY a) (scrollContainer a) (progressBarContainer a)
      (progressBarFill a) (progressBarWidth a).
Proof.
  intros Hempty. unfold hideFixedElements.
  rewrite (hide_prefix a _ Hempty) by lia.
  rewrite firstn_all, drop_all, app_nil_r. reflexivity.
Qed.

(** Replaying the saved styles over the hidden elements gives the elements
    back as they were. *)
Lemma replay_hidden (pre els post : list Element) (doc : Document) :
  foldl replay (withElements (pre ++ (hideOne <$> els) ++ post) doc)
        (savedFrom (length pre) els)
  = withElements (pre ++ els ++ post) doc.
Proof.
  revert pre. induction els as [|el els IH]; intros pre; [reflexivity|].
  cbn [savedFrom fmap list_fmap app]. rewrite foldl_app.
  assert (Hstep :
    foldl replay
      (withElements (pre ++ hideOne el :: (hideOne <$> els) ++ post) doc)
      (if hidable el then [(length pre, savedOf el)] else [])
    = withElements ((pre ++ [el]) ++ (hideOne <$> els) ++ post) doc).
  { rewrite <- app_assoc. cbn [app]. unfold hideOne at 1.
    destruct (hidable el); [|reflexivity].
    cbn [foldl]. unfold replay, update, withElements. cbn. f_equal.
    rewrite <- (Nat.add_0_r (length pre)), alter_app_r. cbn.
    rewrite setStyleVisibility_twice, setStyleVisibility_same.
    reflexivity. }
  rewrite Hstep.
  replace (S (length pre)) with (length (pre ++ [el]))
    by (rewrite length_app; cbn; lia).
  rewrite IH, <- app_assoc. reflexivity.
Qed.

(** *** The two halves of a session *)

(** The document without the two elements of the progress bar. *)
Definition removeBar (b : nat) (doc : Document) : Document :=
  withElements (delete b (delete (S b) (elements doc))) doc.

(** The inline overflow written on the root element and on the container. *)
Definition overflowBoth (o : string) (c : nat) (doc : Document) : Document :=
  let doc := update (inlineOverflow o) (documentElement doc) doc in
  if Nat.eqb c (documentElement doc) then doc
  else update (inlineOverflow o) c doc.

(** None of the writes moves the root element. *)
Lemma documentElement_update (f : Element -> Element) (i : nat)
      (doc : Document) :
  documentElement (update f i doc) = documentElement doc.
Proof. reflexivity. Qed.

Lemma documentElement_removeBar (b : nat) (doc : Document) :
  documentElement (removeBar b doc) = documentElement doc.
Proof. reflexivity. Qed.

Lemma documentElement_scrollContainerAt (y : Q) (c : nat) (doc : Document) :
  documentElement (scrollContainerAt y c doc) = documentElement doc.
Proof.
  unfold scrollContainerAt.
  destruct (Nat.eqb c (documentElement doc)); reflexivity.
Qed.

Lemma documentElement_overflowBoth (o : string) (c : nat) (doc : Document) :
  documentElement (overflowBoth o c doc) = documentElement doc.
Proof.
  unfold overflowBoth. cbn zeta. rewrite documentElement_update.
  destruct (Nat.eqb c (documentElement doc)); reflexivity.
Qed.

Create Rewrite HintDb root.

#[export] Hint Rewrite documentElement_update documentElement_removeBar
  documentElement_scrollContainerAt documentElement_overflowBoth
  replay_documentElement : root.

Lemma update_ne (f g : Element -> Element) (i j : nat) (doc : Document) :
  i <> j -> update f i (update g j doc) = update g j (update f i doc).
Proof.
  intros Hne. unfold update, withElements. cbn. f_equal.
  apply list_alter_alter_ne, Hne.
Qed.

Lemma delete_alter_lt {A : Type} (f : A -> A) (i j : nat) (l : list A) :
  (i < j)%nat -> delete j (alter f i l) = alter f i (delete j l).
Proof.
  intros Hij. apply list_eq. intros k.
  rewrite list_lookup_delete, !list_lookup_alter, !list_lookup_delete.
  destruct (decide (k < j)%nat), (decide (i = k)), (decide (i = S k)),
    (decide (i < j)%nat); subst; try lia; reflexivity.
Qed.

Lemma removeBar_update (b : nat) (f : Element -> Element) (i : nat)
      (doc : Document) :
  (i < b)%nat -> removeBar b (update f i doc) = update f i (removeBar b doc).
Proof.
  intros Hi. unfold removeBar, update, withElements. cbn. f_equal.
  rewrite !delete_alter_lt by lia. reflexivity.
Qed.

Lemma removeBar_scrollContainerAt (b : nat) (y : Q) (c : nat)
      (doc : Document) :
  (c < b)%nat ->
  removeBar b (scrollContainerAt y c doc)
  = scrollContainerAt y c (removeBar b doc).
Proof.
  intros Hc. unfold scrollContainerAt. autorewrite with root.
  destruct (Nat.eqb c (documentElement doc)); [reflexivity|].
  apply removeBar_update, Hc.
Qed.

Lemma removeBar_overflowBoth (b : nat) (o : string) (c : nat)
      (doc : Document) :
  (c < b)%nat -> (documentElement doc < b)%nat ->
  removeBar b (overflowBoth o c doc) = overflowBoth o c (removeBar b doc).
Proof.
  intros Hc Hr. unfold overflowBoth. cbn zeta. autorewrite with root.
  destruct (Nat.eqb c (documentElement doc)).
  - apply removeBar_update, Hr.
  - rewrite !removeBar_update by assumption. reflexivity.
Qed.

Lemma removeBar_appended (els : list Element) (x y : Element)
      (doc : Document) :
  removeBar (length els) (withElements (els ++ [x; y]) doc)
  = withElements els doc.
Proof.
  unfold removeBar, withElements. cbn. f_equal.
  replace (S (length els)) with (length (els ++ [x]))
    by (rewrite length_app; cbn; lia).
  change (els ++ [x; y]) with (els ++ [x] ++ [y]).
  rewrite app_assoc, delete_middle, app_nil_r, delete_middle, app_nil_r.
  reflexivity.
Qed.

Lemma overflowBoth_twice (o o' : string) (c : nat) (doc : Document) :
  overflowBoth o c (overflowBoth o' c doc) = overflowBoth o c doc.
Proof.
  unfold overflowBoth. cbn zeta. autorewrite with root.
  destruct (Nat.eqb c (documentElement doc)) eqn:E.
  - autorewrite with root. rewrite E. apply update_absorb. reflexivity.
  - autorewrite with root. rewrite E. apply Nat.eqb_neq in E.
    rewrite (update_ne (inlineOverflow o) (inlineOverflow o')
               (documentElement doc) c) by congruence.
    rewrite (update_absorb (inlineOverflow o) (inlineOverflow o'))
      by reflexivity.
    rewrite (update_absorb (inlineOverflow o) (inlineOverflow o'))
      by reflexivity.
    reflexivity.
Qed.

Lemma replay_overflowBoth (o : string) (c : nat) (doc : Document)
      (styles : list (nat * SavedStyle)) :
  foldl replay (overflowBoth o c doc) styles
  = overflowBoth o c (foldl replay doc styles).
Proof.
  unfold overflowBoth. cbn zeta. autorewrite with root.
  destruct (Nat.eqb c (documentElement doc)).
  - apply replay_update. reflexivity.
  - rewrite !replay_update by reflexivity. reflexivity.
Qed.

Lemma overflowBoth_scrollContainerAt (o : string) (y : Q) (c c' : nat)
      (doc : Document) :
  overflowBoth o c (scrollContainerAt y c' doc)
  = scrollContainerAt y c' (overflowBoth o c doc).
Proof.
  unfold overflowBoth. cbn zeta. autorewrite with root.
  destruct (Nat.eqb c (documentElement doc)).
  - rewrite scrollContainerAt_update by reflexivity. reflexivity.
  - rewrite !scrollContainerAt_update by reflexivity. reflexivity.
Qed.

Lemma replay_hidden_all (els : list Element) (doc : Document) :
  foldl replay (withElements (hideOne <$> els) doc) (savedFrom 0 els)
  = withElements els doc.
Proof.
  pose proof (replay_hidden [] els [] doc) as H.
  cbn [app length] in H. rewrite !app_nil_r in H. exact H.
Qed.

(** What [overflowBoth] leaves in the document: the root element and the
    container with the given inline overflow, every other element as it
    was. *)
Lemma overflowBoth_lookup (o : string) (c : nat) (doc : Document) (i : nat) :
  elements (overflowBoth o c doc) !! i
  = (fun el => if Nat.eqb i (documentElement doc) || Nat.eqb i c
               then inlineOverflow o el else el) <$> elements doc !! i.
Proof.
  unfold overflowBoth. cbn zeta. autorewrite with root.
  destruct (Nat.eqb_spec c (documentElement doc)) as [->|Hne];
    unfold update; cbn [elements withElements];
    rewrite !list_lookup_alter; cbn [elements withElements].
  - destruct (decide (documentElement doc = i)) as [<-|Hi].
    + rewrite Nat.eqb_refl. reflexivity.
    + destruct (Nat.eqb_spec i (documentElement doc)); [congruence|].
      destruct (elements doc !! i); reflexivity.
  - destruct (decide (c = i)) as [<-|Hc].
    + destruct (decide (documentElement doc = c)); [congruence|].
      rewrite Nat.eqb_refl, orb_true_r. reflexivity.
    + destruct (Nat.eqb_spec i c); [congruence|].
      destruct (decide (documentElement doc = i)) as [<-|Hi].
      * rewrite Nat.eqb_refl. reflexivity.
      * destruct (Nat.eqb_spec i (documentElement doc)); [congruence|].
        destruct (elements doc !! i); reflexivity.
Qed.

Lemma overflowBoth_same (c : nat) (doc : Document) :
  (forall i el, i = documentElement doc \/ i = c ->
                elements doc !! i = Some el -> el_styleOverflow el = "") ->
  overflowBoth "" c doc = doc.
Proof.
  intros Hempty. unfold overflowBoth. cbn zeta. autorewrite with root.
  assert (Hroot : update (inlineOverflow "") (documentElement doc) doc
                  = doc).
  { apply update_same. intros el Hel.
    rewrite <- (Hempty _ el (or_introl eq_refl) Hel).
    apply inlineOverflow_same. }
  rewrite Hroot. destruct (Nat.eqb c (documentElement doc)); [reflexivity|].
  apply update_same. intros el Hel.
  rewrite <- (Hempty _ el (or_intror eq_refl) Hel).
  apply inlineOverflow_same.
Qed.

Lemma savedFrom_lookup (k i : nat) (els : list Element) (el : Element) :
  els !! i = Some el ->
  hidable el = true ->
  ((k + i)%nat, savedOf el) ∈ savedFrom k els.
Proof.
  revert k i. induction els as [|x els IH]; intros k i Hi Hh;
    [discriminate|].
  cbn [savedFrom]. apply elem_of_app. destruct i as [|i]; cbn in Hi.
  - injection Hi as ->. left. rewrite Hh, Nat.add_0_r. left.
  - right. replace (k + S i)%nat with (S k + i)%nat by lia.
    apply IH; assumption.
Qed.

(** *** What the script writes, and the layout between *)

Lemma written_removeBar (b : nat) (doc : Document) :
  written (removeBar b doc) = removeBar b (written doc).
Proof.
  unfold written, removeBar, withElements. cbn. f_equal.
  rewrite !list_fmap_delete. reflexivity.
Qed.

Lemma written_overflowBoth (o : string) (c : nat) (doc : Document) :
  written (overflowBoth o c doc) = overflowBoth o c (written doc).
Proof.
  unfold overflowBoth. cbn zeta. autorewrite with root.
  change (documentElement (written doc)) with (documentElement doc).
  destruct (Nat.eqb c (documentElement doc));
    rewrite !written_update by apply scriptWrite_overflow; reflexivity.
Qed.

(** The overflow written on the root element and then, unless it is the
    root element, on the container, as [initCapture] and [restorePage] do
    it. *)
Definition writeOverflowBoth (browser : Browser) (o : string) (c : nat)
           (doc : Document) : Document :=
  let doc := setStyleOverflow browser o (documentElement doc) doc in
  if Nat.eqb c (documentElement doc) then doc
  else setStyleOverflow browser o c doc.

(** After the two writes the page is laid out for the two inline values. *)
Lemma writeOverflowBoth_eq (browser : Browser) (o : string) (c : nat)
      (doc : Document) :
  writeOverflowBoth browser o c doc
  = relayout browser (overflowBoth o c doc).
Proof.
  unfold writeOverflowBoth, overflowBoth, setStyleOverflow. cbn zeta.
  change (documentElement (relayout browser _)) with (documentElement doc).
  change (documentElement (update _ _ doc)) with (documentElement doc).
  destruct (Nat.eqb c (documentElement doc)); [reflexivity|].
  apply relayout_update, scriptWrite_overflow.
Qed.

(** [restorePage] for a script that has a container and a progress bar. *)
Lemma restorePage_eq (browser : Browser) (y0 : Q) (doc : Document)
      (styles : list (nat * SavedStyle)) (y : Q) (c b : nat)
      (fill : option nat) (width : option Percent) :
  restorePage browser y0 (mkAgent doc styles y (Some c) (Some b) fill width)
  = mkAgent
      (scrollContainerTo browser y0 c
         (relayout browser
            (overflowBoth "" c (foldl replay (removeBar b doc) styles))))
      [] y (Some c) None None None.
Proof.
  rewrite <- writeOverflowBoth_eq. reflexivity.
Qed.

(** *** The progress bar in the document *)

(** The container and the fill as the browser lays them out in [doc]. *)
Definition barOf (browser : Browser) (doc : Document) : Element :=
  created barStyle
    (laidOut browser (styled doc ++ [barStyle; fillStyle])
       (length (elements doc))).

Definition fillOf (browser : Browser) (doc : Document) : Element :=
  created fillStyle
    (laidOut browser (styled doc ++ [barStyle; fillStyle])
       (S (length (elements doc)))).

Lemma savedFrom_app (k : nat) (xs ys : list Element) :
  savedFrom k (xs ++ ys)
  = savedFrom k xs ++ savedFrom (k + length xs) ys.
Proof.
  revert k. induction xs as [|x xs IH]; intros k; cbn [savedFrom app length].
  - rewrite Nat.add_0_r. reflexivity.
  - rewrite IH, <- app_assoc.
    replace (S k + length xs)%nat with (k + S (length xs))%nat by lia.
    reflexivity.
Qed.

(** An entry for an element that is not in the document replays to
    nothing. *)
Lemma replay_beyond (doc : Document) (styles : list (nat * SavedStyle)) :
  Forall (fun kv => (length (elements doc) <= fst kv)%nat) styles ->
  foldl replay doc styles = doc.
Proof.
  induction 1 as [|kv styles Hk _ IH]; [reflexivity|].
  cbn [foldl]. unfold replay at 2. rewrite update_same; [exact IH|].
  intros el Hel. apply lookup_lt_Some in Hel. lia.
Qed.

Lemma replay_hidden_appended (els extra : list Element) (doc : Document) :
  foldl replay (withElements (hideOne <$> els) doc)
        (savedFrom 0 (els ++ extra))
  = withElements els doc.
Proof.
  rewrite savedFrom_app, foldl_app, replay_hidden_all.
  apply replay_beyond. cbn [elements withElements Nat.add].
  eapply Forall_impl; [apply savedFrom_keys|]. cbn. intros kv. lia.
Qed.

(** The script after [initCapture] on a page with a body it was just
    injected into, and the metrics it answers with: the sizes are those of
    the layout after the overflow was written. *)
Lemma initCapture_eq (browser : Browser) (doc : Document) :
  is_Some (body doc) ->
  let c := findScrollableElement doc in
  let prepared :=
    relayout browser
      (overflowBoth "hidden" c
         (withElements
            (hideOne <$> elements doc ++ [barOf browser doc;
                                           fillOf browser doc])
            doc)) in
  initCapture browser (injected doc)
  = (mkAgent prepared
       (savedFrom 0 (elements doc ++ [barOf browser doc; fillOf browser doc]))
       (scrollOffset doc c) (Some c)
       (Some (length (elements doc))) (Some (S (length (elements doc))))
       (Some (PNum 0)),
     Some (mkMetrics
             (inject_Z (scrollHeightOf prepared c))
             (inject_Z (match elements prepared !! c with
                        | Some el => el_clientHeight el
                        | None => 0
                        end))
             (devicePixelRatio doc) (scrollOffset doc c))).
Proof.
  intros [b Hbody] c prepared. subst prepared.
  rewrite <- writeOverflowBoth_eq.
  unfold initCapture, injected, createProgressBar.
  cbn [page originalStyles originalScrollY scrollContainer
         progressBarContainer progressBarFill progressBarWidth].
  rewrite Hbody.
  rewrite hideFixedElements_eq by reflexivity.
  unfold writeOverflowBoth, withPage, barOf, fillOf.
  cbn [page originalStyles originalScrollY scrollContainer
         progressBarContainer progressBarFill progressBarWidth elements
         withElements documentElement].
  fold c.
  change (documentElement (setStyleOverflow browser _ _ _))
    with (documentElement doc).
  destruct (Nat.eqb c (documentElement doc)); reflexivity.
Qed.

(** On a page without a body [initCapture] throws in [createProgressBar]:
    no metrics, and the page as it was. *)
Lemma initCapture_without_body (browser : Browser) (doc : Document) :
  body doc = None ->
  initCapture browser (injected doc)
  = (mkAgent doc [] (scrollOffset doc (findScrollableElement doc))
       (Some (findScrollableElement doc))
       (Some (length (elements doc))) (Some (S (length (elements doc))))
       (Some (PNum 0)),
     None).
Proof.
  intros Hbody. unfold initCapture, injected, createProgressBar.
  cbn [page originalStyles originalScrollY scrollContainer
         progressBarContainer progressBarFill progressBarWidth].
  rewrite Hbody. reflexivity.
Qed.

(** *** A session *)

(** A script in the middle of a session: it has its container and its
    progress bar, and the bar comes after the container. *)
Definition inSession (c b : nat) (a : Agent) : Prop :=
  scrollContainer a = Some c
  /\ progressBarContainer a = Some b
  /\ is_Some (progressBarFill a)
  /\ (c < b)%nat.

(** A scroll or progress request keeps the session, and what [restorePage]
    will make of the page. *)
Lemma step_message_absorbed (browser : Browser) (c b : nat) (a : Agent)
      (m : Message) (y0 : Q) :
  inSession c b a ->
  isStepMessage m ->
  inSession c b (onMessage browser a m)
  /\ restorePage browser y0 (onMessage browser a m)
     = restorePage browser y0 a.
Proof.
  intros (Hc & Hb & [f Hf] & Hlt) Hm.
  destruct a as [doc styles y sc pb pf w]. cbn in Hc, Hb, Hf. subst sc pb pf.
  destruct m as [|y'|p|]; try contradiction; cbn [onMessage].
  - unfold scrollToAndReady. cbn [scrollContainer page fst withPage
      originalStyles originalScrollY progressBarContainer progressBarFill
      progressBarWidth].
    split; [repeat split; eauto|].
    unfold withPage.
    cbn [page originalStyles originalScrollY scrollContainer
           progressBarContainer progressBarFill progressBarWidth].
    rewrite !restorePage_eq. unfold scrollContainerTo at 2.
    rewrite removeBar_scrollContainerAt by exact Hlt.
    rewrite replay_scrollContainerAt, overflowBoth_scrollContainerAt,
      relayout_scrollContainerAt, scrollContainerTo_at. reflexivity.
  - unfold updateProgressBar. cbn [progressBarContainer progressBarFill
      page originalStyles originalScrollY scrollContainer fst].
    split; [repeat split; eauto|].
    rewrite !restorePage_eq. reflexivity.
Qed.

Lemma step_messages_absorbed (browser : Browser) (c b : nat)
      (msgs : list Message) (a : Agent) (y0 : Q) :
  inSession c b a ->
  Forall isStepMessage msgs ->
  restorePage browser y0 (foldl (onMessage browser) a msgs)
  = restorePage browser y0 a.
Proof.
  revert a. induction msgs as [|m msgs IH]; intros a Ha Hall; [reflexivity|].
  inversion Hall as [|? ? Hm Hrest]; subst. cbn [foldl].
  destruct (step_message_absorbed browser c b a m y0 Ha Hm) as [Ha' Heq].
  rewrite (IH _ Ha' Hrest). exact Heq.
Qed.

Lemma container_in_document (doc : Document) :
  (documentElement doc < length (elements doc))%nat ->
  (findScrollableElement doc < length (elements doc))%nat.
Proof.
  intros Hroot.
  destruct (LocatorFacts.locator_result_cases doc)
    as [(el & Hel)|Hfallback].
  - apply (lookup_lt_Some _ _ _ Hel).
  - rewrite Hfallback. exact Hroot.
Qed.

(** What is left of a session after [restorePage]: the page as it was but
    for the inline overflow of the root element and of the container, which
    is empty; laid out by the browser for these inline styles; with the
    container where the browser puts it on a write of the recorded
    offset. *)
Lemma session_restored (browser : Browser) (doc : Document)
      (msgs : list Message) :
  is_Some (body doc) ->
  (documentElement doc < length (elements doc))%nat ->
  Forall isStepMessage msgs ->
  let c := findScrollableElement doc in
  let a1 := fst (initCapture browser (injected doc)) in
  restorePage browser (scrollOffset doc c)
    (foldl (onMessage browser) a1 msgs)
  = mkAgent
      (scrollContainerTo browser (scrollOffset doc c) c
         (relayout browser (overflowBoth "" c doc)))
      [] (scrollOffset doc c) (Some c) None None None.
Proof.
  intros Hbody Hroot Hall c a1.
  pose proof (initCapture_eq browser doc Hbody) as Ha1. cbn zeta in Ha1.
  fold c in Ha1.
  pose proof (container_in_document doc Hroot) as Hc. fold c in Hc.
  assert (Hsession : inSession c (length (elements doc)) a1).
  { subst a1. rewrite Ha1. repeat split; eauto. }
  rewrite (step_messages_absorbed browser c _ msgs a1 _ Hsession Hall).
  subst a1. rewrite Ha1. cbn [fst]. rewrite restorePage_eq.
  f_equal. f_equal. apply relayout_eq.
  rewrite written_overflowBoth, written_replay, written_removeBar,
    written_relayout, <- written_removeBar, <- written_replay,
    <- written_overflowBoth.
  f_equal.
  rewrite removeBar_overflowBoth by assumption.
  rewrite fmap_app.
  replace (length (elements doc)) with (length (hideOne <$> elements doc))
    by apply length_fmap.
  change (hideOne <$> [barOf browser doc; fillOf browser doc])
    with [hideOne (barOf browser doc); hideOne (fillOf browser doc)].
  rewrite removeBar_appended, replay_overflowBoth, replay_hidden_appended,
    withElements_same, overflowBoth_twice.
  reflexivity.
Qed.

End AgentFacts.

(** ** A whole session: the orchestrator and the page agent together *)

Module SessionFacts.

Import Protocol ContentScript Orchestrator AgentFacts OrchestratorFacts.

(** The messages of a capture that got its session: [INIT_CAPTURE], scroll
    and progress requests, and [RESTORE] with the recorded offset last. *)
Lemma startCapture_messages (fuel : nat) (env : Env) (tabId : nat)
      (w w' : World) (t : list Event) (response : Metrics) :
  onExecuteScript env = true ->
  onInit env = Some response ->
  startCapture fuel env tabId w = Some w' ->
  trace w' = trace w ++ t ->
  exists msgs,
    messagesTo tabId t
    = INIT_CAPTURE :: msgs ++ [RESTORE (m_originalScrollY response)]
    /\ Forall isStepMessage msgs.
Proof.
  intros Hexec Hinit Hstart Htrace.
  destruct (startCapture_Some fuel env tabId w w' response Hexec Hinit Hstart)
    as (t0 & Hrun & Htrace').
  rewrite Htrace' in Htrace. apply app_inv_head in Htrace. subst t.
  destruct (run_messages env tabId fuel _ t0 Hrun) as (msgs & Hm & Hall).
  exists msgs. split; [|exact Hall].
  unfold messagesTo at 1. cbn [omap list_omap app]. rewrite Nat.eqb_refl.
  change (omap _ t0) with (messagesTo tabId t0). rewrite Hm. reflexivity.
Qed.

(** A capture that got its session and ended, on whichever path, leaves
    nothing in the map of saved styles and no progress bar, and the page as
    it was but for the inline overflow of the root element and of the
    container, which is empty: laid out by the browser for these inline
    styles, and with the container where the browser puts it on the write
    of the recorded offset. *)
Lemma capture_leaves (browser : Browser) (fuel : nat) (env : Env)
      (tabId : nat) (w w' : World) (t : list Event) (doc : Document) :
  is_Some (body doc) ->
  (documentElement doc < length (elements doc))%nat ->
  onExecuteScript env = true ->
  onInit env = snd (initCapture browser (injected doc)) ->
  startCapture fuel env tabId w = Some w' ->
  trace w' = trace w ++ t ->
  foldl (onMessage browser) (injected doc) (messagesTo tabId t)
  = mkAgent
      (scrollContainerTo browser
         (scrollOffset doc (findScrollableElement doc))
         (findScrollableElement doc)
         (relayout browser
            (overflowBoth "" (findScrollableElement doc) doc)))
      [] (scrollOffset doc (findScrollableElement doc))
      (Some (findScrollableElement doc)) None None None.
Proof.
  intros Hbody Hroot Hexec Hinit Hstart Htrace.
  pose proof (initCapture_eq browser doc Hbody) as Ha1. cbn zeta in Ha1.
  rewrite Ha1 in Hinit. cbn [snd] in Hinit.
  destruct (startCapture_messages fuel env tabId w w' t _ Hexec Hinit Hstart
              Htrace) as (msgs & Hmsgs & Hall).
  cbn [m_originalScrollY] in Hmsgs.
  rewrite Hmsgs. cbn [foldl]. rewrite foldl_app. cbn [foldl onMessage].
  apply (session_restored browser doc msgs Hbody Hroot Hall).
Qed.

(** *** A browser for a page with a style sheet *)

(** The computed value of a property: the inline value when there is one,
    else the value the style sheet gives. *)
Definition computed (inline sheet : string) : string :=
  if String.eqb inline "" then sheet else inline.

(** The layout of an element that carries the inline style [st], from its
    layout [base] under the style sheet alone. *)
Definition cascade (st : Styled) (base : Element) : Element :=
  mkElement (st_id st) (el_display base)
    (computed (st_visibility st) (el_visibility base)) (el_opacity base)
    (computed (st_overflow st) (el_overflowY base))
    (computed (st_position st) (el_position base))
    (el_rect base) (el_clientWidth base) (el_clientHeight base)
    (el_scrollHeight base) (st_visibility st) (st_position st)
    (st_overflow st) 0.

(** A box scrolls when its computed overflow is not [visible] (or [clip]):
    [el.scrollTop] of any other box is 0 whatever is written to it. *)
Definition isScrollContainer (el : Element) : bool :=
  bool_decide (el_overflowY el ∈ ["auto"; "scroll"; "hidden"; "overlay"]).

(** A written offset is brought into the scroll range. *)
Definition clampTo (max y : Q) : Q :=
  if Js.lt y 0 then 0 else if Js.gt y max then max else y.

(** The browser for a page whose element [i] is laid out as [sheet i] by
    the style sheet; element 0 is the root, which scrolls the window. *)
Definition browserOf (sheet : nat -> Element) : Browser :=
  let layout s i :=
    match s !! i with
    | Some st => cascade st (sheet i)
    | None => sheet i
    end in
  mkBrowser layout
    (fun s i y =>
       let el := layout s i in
       if isScrollContainer el
       then clampTo (inject_Z (el_scrollHeight el - el_clientHeight el)) y
       else 0%Q)
    (fun s y =>
       let root := layout s 0%nat in
       clampTo (inject_Z (el_scrollHeight root - el_clientHeight root)) y).

(** *** A page whose panel scrolls by its inline style *)

(** A fixed header and a panel of content 5000 high in a 1024 by 768
    window.  The style sheet gives the panel no overflow: it scrolls because
    it carries [style="overflow: auto"]. *)
Definition panelSheet (i : nat) : Element :=
  let box := mkRect 0 768 0 1024 1024 768 in
  match i with
  | 0%nat | 1%nat =>
      mkElement "" "block" "visible" "1" "visible" "static" box
        1024 768 768 "" "" "" 0
  | 2%nat =>
      mkElement "header" "block" "visible" "1" "visible" "fixed"
        (mkRect 0 60 0 1024 1024 60) 1024 60 60 "" "" "" 0
  | 3%nat =>
      mkElement "app" "block" "visible" "1" "visible" "static" box
        1024 768 5000 "" "" "" 0
  | _ =>
      mkElement "" "block" "visible" "1" "visible" "static"
        (mkRect 0 5 0 1024 1024 5) 1024 5 5 "" "" "" 0
  end.

Definition panelBrowser : Browser := browserOf panelSheet.

(** The page as the script finds it: the panel scrolled to 300. *)
Definition panelPage : Document :=
  let box := mkRect 0 768 0 1024 1024 768 in
  let html :=
    mkElement "" "block" "visible" "1" "visible" "static" box
      1024 768 768 "" "" "" 0 in
  let body :=
    mkElement "" "block" "visible" "1" "visible" "static" box
      1024 768 768 "" "" "" 0 in
  let header :=
    mkElement "header" "block" "visible" "1" "visible" "fixed"
      (mkRect 0 60 0 1024 1024 60) 1024 60 60 "" "" "" 0 in
  let panel :=
    mkElement "app" "block" "visible" "1" "auto" "static" box
      1024 768 5000 "" "" "auto" 300 in
  mkDocument [html; body; header; panel] 0 (Some 0%nat) 1024 768 2 0
    (Some 1%nat).

(** The script in [panelPage] after [INIT_CAPTURE]. *)
Definition panelAgent : Agent :=
  fst (initCapture panelBrowser (injected panelPage)).

(** A capture of [panelPage]: the script answers [INIT_CAPTURE] and every
    scroll request (its answer to these depends on the inline styles and the
    offset asked for, and no scroll or progress request changes an inline
    style); every capture succeeds. *)
Definition panelEnv : Env :=
  mkEnv true (snd (initCapture panelBrowser (injected panelPage)))
    (fun _ y =>
       match snd (scrollToAndReady panelBrowser y panelAgent) with
       | Some actualY => Some (mkScrollResponse (Some actualY))
       | None => None
       end)
    (fun _ => mkCaptureResult false (Some "data:image/png;base64,"))
    (fun _ => true) false.

(** [panelPage] is a page [panelBrowser] shows. *)
Lemma panelPage_laidOut : relayout panelBrowser panelPage = panelPage.
Proof. reflexivity. Qed.

(** C7.  The code does not do what the claim says on a page whose scroll
    container gets its scrolling from its inline style, as [panelPage], where
    the panel carries [style="overflow: auto"] and is scrolled to 300.  A
    capture of this page runs to its end: the page receives [INIT_CAPTURE]
    first and [RESTORE] with the recorded offset 300 last.  After the last
    message every element has the inline visibility it had, the map of saved
    styles is empty and the progress bar is removed, as the claim says.  But
    the panel's inline overflow is the empty string, not [auto]:
    [initCapture] overwrote it without recording it, and [restorePage]
    writes the empty string.  With that the panel's computed overflow is
    [visible], the panel no longer scrolls, and the write of the recorded
    offset that follows leaves it at 0, not at 300. *)
Theorem restore_loses_overflow_and_offset :
  exists t,
    startCapture 20 panelEnv 7 (mkWorld ∅ []) = Some (mkWorld ∅ t)
    /\ head (messagesTo 7 t) = Some INIT_CAPTURE
    /\ last (messagesTo 7 t) = Some (RESTORE 300)
    /\ findScrollableElement panelPage = 3%nat
    /\ el_styleOverflow <$> elements panelPage !! 3%nat = Some "auto"
    /\ scrollOffset panelPage 3 = 300%Q
    /\ let final :=
         foldl (onMessage panelBrowser) (injected panelPage)
               (messagesTo 7 t) in
       el_styleVisibility <$> elements (page final)
       = el_styleVisibility <$> elements panelPage
       /\ originalStyles final = []
       /\ (progressBarContainer final = None
           /\ progressBarFill final = None
           /\ length (elements (page final)) = length (elements panelPage))
       /\ el_styleOverflow <$> elements (page final) !! 3%nat = Some ""
       /\ el_overflowY <$> elements (page final) !! 3%nat = Some "visible"
       /\ scrollOffset (page final) 3 = 0%Q.
Proof.
  eexists. split; [vm_compute; reflexivity|].
  vm_compute. repeat split; reflexivity.
Qed.

End SessionFacts.

(** * Further properties of the code *)

From Stdlib Require Import Lqa Ascii.

(** ** result.js: loading, tiling and the bounds of the canvas *)

Module StitcherCoverage.

Import Stitcher StitcherFacts.

(** The destination rows a list of draw calls paints. *)
Definition covers (ops : list DrawOp) (d : Q) : Prop :=
  exists op r, op ∈ ops /\ paints op r d.

Lemma loadAll_rejects (decode : string -> option (Z * Z))
      (imgs : list Frame) (f : Frame) :
  f ∈ imgs ->
  decode (frame_dataUrl f) = None ->
  exists g, g ∈ imgs
            /\ decode (frame_dataUrl g) = None
            /\ loadAll decode imgs = inr (frame_y g).
Proof.
  induction imgs as [|x imgs IH]; intros Hin Hf; [inversion Hin|].
  cbn [loadAll]. unfold loadImage.
  destruct (decode (frame_dataUrl x)) as [[w h]|] eqn:Hx.
  - apply elem_of_cons in Hin. destruct Hin as [->|Hin]; [congruence|].
    destruct (IH Hin Hf) as (g & Hg & Hnone & ->).
    exists g. split; [right; exact Hg|]. split; [exact Hnone|reflexivity].
  - exists x. split; [left|]. split; [exact Hx|reflexivity].
Qed.

(** X1.  When an image of the stored list does not load, the handler shows the
    error of a frame that failed, at that frame's offset, and stops: the
    canvas is not sized, nothing is drawn, the status stays visible and no
    download is bound. *)
Theorem load_failure_stops (decode : string -> option (Z * Z))
        (st : CapturedData) (imgs : list Frame) (f : Frame) :
  cd_images st = Some imgs ->
  f ∈ imgs ->
  decode (frame_dataUrl f) = None ->
  let p := onDOMContentLoaded decode (Some st) in
  (exists g, g ∈ imgs
             /\ decode (frame_dataUrl g) = None
             /\ last (pg_status p) = Some (ErrorLoadingAt (frame_y g)))
  /\ pg_canvasWidth p = None
  /\ pg_canvasHeight p = None
  /\ pg_draws p = []
  /\ pg_statusHidden p = false
  /\ pg_downloadBound p = false.
Proof.
  intros Himgs Hin Hf p.
  destruct (loadAll_rejects decode imgs f Hin Hf) as (g & Hg & Hnone & Hload).
  subst p. unfold onDOMContentLoaded. rewrite Himgs.
  destruct imgs as [|x imgs]; [inversion Hin|]. rewrite Hload.
  split; [|repeat split].
  exists g. split; [exact Hg|]. split; [exact Hnone|].
  unfold stopped. cbn [pg_status]. apply last_snoc.
Qed.

Definition secondFails (url : string) : option (Z * Z) :=
  if String.eqb url "b" then None else Some (1600, 1000)%Z.

Lemma load_failure_stops_example :
  (exists g, g ∈ [mkFrame 0 "a"; mkFrame 420 "b"; mkFrame 840 "c"]
             /\ secondFails (frame_dataUrl g) = None
             /\ last (pg_status (onDOMContentLoaded secondFails
                                   (Some exampleData)))
                = Some (ErrorLoadingAt (frame_y g)))
  /\ pg_draws (onDOMContentLoaded secondFails (Some exampleData)) = [].
Proof.
  destruct (load_failure_stops secondFails exampleData
              [mkFrame 0 "a"; mkFrame 420 "b"; mkFrame 840 "c"]
              (mkFrame 420 "b") eq_refl
              ltac:(right; left) eq_refl)
    as (Hstatus & _ & _ & Hdraws & _).
  split; [exact Hstatus|exact Hdraws].
Defined.

(** The rows one frame paints on the canvas: from its offset plus the crop to
    its offset plus the height of its image. *)
Lemma covers_drawItem (scale overlap : Q) (index : nat) (item : Loaded)
      (d : Q) :
  let cropY := (if Nat.eqb index 0 then 0 else overlap * scale)%Q in
  covers (drawItem scale overlap index item) d
  <-> (ld_y item * scale + cropY <= d
       /\ d < ld_y item * scale + inject_Z (img_height (ld_img item)))%Q.
Proof.
  intros cropY. unfold covers. split.
  - intros (op & r & Hin & Hp).
    destruct (proj1 (drawItem_paints scale overlap index item r d))
      as (H1 & H2 & H3); [eauto|].
    fold cropY in H1. split; lra.
  - intros [H1 H2].
    destruct (proj2 (drawItem_paints scale overlap index item
                       (d - ld_y item * scale) d)) as (op & Hin & Hp).
    { fold cropY. split; [lra|]. split; [lra|]. ring. }
    eauto.
Qed.

(** X2.  Two frames taken one step apart tile the canvas.  Let the images be
    [vh * scale] device pixels high, [vh] being the height of the viewport,
    and let the second frame be [vh - overlap] further down than the first, as
    the orchestrator steps.  Then the first frame paints the rows up to the
    seam [y * scale + vh * scale] and the second frame, cropped, paints the
    rows from the seam on: no row between them is left out and none is painted
    twice. *)
Theorem consecutive_frames_tile (scale overlap vh : Q) (i j : nat)
        (a b : Loaded) :
  j <> 0%nat ->
  (inject_Z (img_height (ld_img a)) == vh * scale)%Q ->
  (inject_Z (img_height (ld_img b)) == vh * scale)%Q ->
  (ld_y b == ld_y a + vh - overlap)%Q ->
  let seam := (ld_y a * scale + vh * scale)%Q in
  let cropA := (if Nat.eqb i 0 then 0 else overlap * scale)%Q in
  forall d,
    (covers (drawItem scale overlap i a) d
     <-> (ld_y a * scale + cropA <= d /\ d < seam)%Q)
    /\ (covers (drawItem scale overlap j b) d
        <-> (seam <= d /\ d < seam + (vh - overlap) * scale)%Q).
Proof.
  intros Hj Ha Hb Hstep seam cropA d. subst seam.
  assert (Hyb : (ld_y b * scale
                 == ld_y a * scale + vh * scale - overlap * scale)%Q).
  { rewrite Hstep. ring. }
  split.
  - rewrite covers_drawItem. fold cropA. rewrite Ha. reflexivity.
  - rewrite covers_drawItem.
    destruct (Nat.eqb_neq j 0) as [_ Hn]. rewrite (Hn Hj), Hb.
    split; intros [H1 H2]; split; lra.
Qed.

Lemma consecutive_frames_tile_example :
  (covers (drawItem 2 80 0 (mkLoaded (mkImage "a" 1600 1000) 0)) 1200
   <-> (0 * 2 + 0 <= 1200 /\ 1200 < 0 * 2 + 500 * 2)%Q)
  /\ (covers (drawItem 2 80 1 exampleItem) 1200
      <-> (0 * 2 + 500 * 2 <= 1200
           /\ 1200 < 0 * 2 + 500 * 2 + (500 - 80) * 2)%Q).
Proof.
  apply (consecutive_frames_tile 2 80 500 0 1
           (mkLoaded (mkImage "a" 1600 1000) 0) exampleItem).
  - discriminate.
  - reflexivity.
  - reflexivity.
  - reflexivity.
Defined.

(** The rows the drawing loop paints are those its iterations paint. *)
Lemma covers_drawAll (scale overlap : Q) (loaded : list Loaded) (d : Q) :
  covers (drawAll scale overlap loaded) d
  <-> exists i item, loaded !! i = Some item
                     /\ covers (drawItem scale overlap i item) d.
Proof.
  unfold covers, drawAll. split.
  - intros (op & r & Hin & Hp).
    apply list_elem_of_In, in_concat in Hin. destruct Hin as (ops & Hops & Hin).
    apply list_elem_of_In, elem_of_lookup_imap in Hops.
    destruct Hops as (i & item & -> & Hi).
    exists i, item. split; [exact Hi|].
    exists op, r. split; [apply list_elem_of_In; exact Hin|exact Hp].
  - intros (i & item & Hi & op & r & Hin & Hp).
    exists op, r. split; [|exact Hp].
    apply list_elem_of_In, in_concat.
    exists (drawItem scale overlap i item).
    split; apply list_elem_of_In; [|exact Hin].
    apply elem_of_lookup_imap. eauto.
Qed.

Lemma loadAll_same_size (decode : string -> option (Z * Z))
      (imgs : list Frame) (w h : Z) :
  (forall g, g ∈ imgs -> decode (frame_dataUrl g) = Some (w, h)) ->
  loadAll decode imgs = inl ((fun g => loadedOf g w h) <$> imgs).
Proof.
  induction imgs as [|x imgs IH]; intros Hall; [reflexivity|].
  cbn [loadAll]. unfold loadImage.
  rewrite (Hall x) by left. rewrite IH; [reflexivity|].
  intros g Hg. apply Hall. right. exact Hg.
Qed.

(** X3.  Nothing is painted outside the canvas.  When the screenshots all have
    the same size, no offset is negative, no frame lies below the last one,
    and neither the scale ([devicePixelRatio || 1]) nor the overlap
    ([overlap || 0]) is negative, the canvas is as high as the bottom of the
    last frame and every row the handler paints lies between the top and the
    bottom of the canvas. *)
Theorem draws_within_canvas (decode : string -> option (Z * Z))
        (st : CapturedData) (fs : list Frame) (f : Frame) (w h : Z) :
  cd_images st = Some (fs ++ [f]) ->
  (forall g, g ∈ fs ++ [f] -> decode (frame_dataUrl g) = Some (w, h)) ->
  (forall g, g ∈ fs ++ [f] -> (0 <= frame_y g /\ frame_y g <= frame_y f)%Q) ->
  (0 <= Js.orElse (cd_devicePixelRatio st) 1)%Q ->
  (0 <= Js.orElse (cd_overlap st) 0)%Q ->
  let p := onDOMContentLoaded decode (Some st) in
  let bottom :=
    (frame_y f * Js.orElse (cd_devicePixelRatio st) 1 + inject_Z h)%Q in
  pg_canvasHeight p = Some bottom
  /\ forall d, covers (pg_draws p) d -> (0 <= d /\ d < bottom)%Q.
Proof.
  intros Himgs Hsize Hys Hscale Hoverlap p bottom.
  pose proof (loadAll_same_size decode _ w h Hsize) as Hload.
  destruct ((fun g => loadedOf g w h) <$> fs ++ [f])
    as [|first rest] eqn:Hloaded.
  { apply (f_equal length) in Hloaded.
    rewrite length_fmap, length_app in Hloaded. cbn in Hloaded. lia. }
  assert (Hlast : last (first :: rest) = Some (loadedOf f w h)).
  { rewrite <- Hloaded, fmap_app. apply last_snoc. }
  pose proof (handler_stitches decode st _ first (loadedOf f w h) rest
                Himgs Hload Hlast) as Hpage.
  cbn zeta in Hpage. subst p. rewrite Hpage. cbn [pg_canvasHeight pg_draws].
  split; [reflexivity|].
  intros d Hd. apply covers_drawAll in Hd.
  destruct Hd as (i & item & Hi & Hd).
  rewrite <- Hloaded, list_lookup_fmap in Hi.
  destruct ((fs ++ [f]) !! i) as [g|] eqn:Hg; [|discriminate].
  injection Hi as <-.
  apply list_elem_of_lookup_2 in Hg. destruct (Hys g Hg) as [Hy0 Hy1].
  apply covers_drawItem in Hd. cbn [loadedOf ld_y ld_img img_height] in Hd.
  destruct Hd as [Hlow Hhigh]. subst bottom.
  set (scale := Js.orElse (cd_devicePixelRatio st) 1) in *.
  set (overlap := Js.orElse (cd_overlap st) 0) in *.
  assert (H0 : (0 <= frame_y g * scale)%Q) by (apply Qmult_le_0_compat; assumption).
  assert (H1 : (frame_y g * scale <= frame_y f * scale)%Q)
    by (apply Qmult_le_compat_r; assumption).
  assert (H2 : (0 <= overlap * scale)%Q) by (apply Qmult_le_0_compat; assumption).
  split; [|lra].
  destruct (Nat.eqb i 0); lra.
Qed.

Lemma draws_within_canvas_example :
  pg_canvasHeight (onDOMContentLoaded exampleDecode (Some exampleData))
  = Some (840 * Js.orElse (Some 2) 1 + inject_Z 1000)%Q
  /\ forall d,
       covers (pg_draws (onDOMContentLoaded exampleDecode (Some exampleData))) d
       -> (0 <= d /\ d < 840 * Js.orElse (Some 2) 1 + inject_Z 1000)%Q.
Proof.
  apply (draws_within_canvas exampleDecode exampleData
           [mkFrame 0 "a"; mkFrame 420 "b"] (mkFrame 840 "c") 1600 1000).
  - reflexivity.
  - intros g Hg. reflexivity.
  - intros g Hg. apply list_elem_of_In in Hg. cbn in Hg.
    destruct Hg as [<-|[<-|[<-|[]]]]; split; discriminate.
  - discriminate.
  - discriminate.
Defined.

End StitcherCoverage.

(** ** background.js: what a capture that ends has done *)

Module OrchestratorCoverage.

Import Protocol Orchestrator OrchestratorFacts.

(** The reasons a run logs: its console messages, the storage error apart
    (that one is logged by [finishCapture], after the run has ended). *)
Definition why (t : list Event) : list LogMessage :=
  omap (fun e => match e with
                 | Console ErrorSavingToStorage => None
                 | Console m => Some m
                 | _ => None
                 end) t.

Lemma why_app (a b : list Event) : why (a ++ b) = why a ++ why b.
Proof. apply omap_app. Qed.

Lemma why_finishEvents (env : Env) (tabId : nat) (state : Session) :
  why (finishEvents env tabId state) = [].
Proof.
  unfold finishEvents.
  destruct (onStorageSet env state), (alertDefined env); reflexivity.
Qed.

Lemma why_spec (m : LogMessage) (t : list Event) :
  m <> ErrorSavingToStorage -> Console m ∈ t <-> m ∈ why t.
Proof.
  intros Hm. unfold why. rewrite list_elem_of_omap. split.
  - intros Hin. exists (Console m). split; [exact Hin|].
    destruct m; congruence.
  - intros (e & Hin & He).
    destruct e as [| | | | | |[]| |]; try discriminate He;
      injection He as <-; exact Hin.
Qed.

Lemma stored_spec (s : Session) (t : list Event) :
  StorageSet s ∈ t <-> s ∈ stored t.
Proof.
  unfold stored. rewrite list_elem_of_omap. split.
  - intros Hin. exists (StorageSet s). split; [exact Hin|reflexivity].
  - intros (e & Hin & He).
    destruct e; try discriminate He. injection He as <-. exact Hin.
Qed.

Lemma captured_nonempty (r : CaptureResult) (url : string) :
  captured r = Some url -> url <> EmptyString.
Proof.
  unfold captured. destruct (cr_lastError r); [discriminate|].
  destruct (cr_dataUrl r) as [u|]; [|discriminate].
  destruct (String.eqb u EmptyString) eqn:E; [discriminate|].
  intros [= <-]. apply String.eqb_neq. exact E.
Qed.

(** A call that calls [captureLoop] again: what it found and what it left. *)
Lemma step_goes_on (env : Env) (tabId : nat) (state state' : Session)
      (t : list Event) :
  step env tabId state = (t, Some state') ->
  exists url,
    captured (onCapture env (S (steps state))) = Some url
    /\ state' = advance (actualYAt env state)
                  (actualYAt env state + visibleHeight state - OVERLAP)%Q
                  (pushImage (mkFrame (actualYAt env state) url)
                     (incrSteps state))
    /\ isStuck (prevY state) (actualYAt env state) = false
    /\ Js.ge (actualYAt env state + visibleHeight state)%Q
         (fullHeight state) = false
    /\ (steps state < MAX_STEPS)%nat
    /\ why t = []
    /\ stored t = [].
Proof.
  intros H. step_cases H. apply Nat.leb_gt in Hlimit.
  exists dataUrl. repeat split; assumption.
Qed.

(** A call that finishes: the session it hands to storage and its reason. *)
Lemma step_ends (env : Env) (tabId : nat) (state : Session)
      (t : list Event) :
  step env tabId state = (t, None) ->
  exists final,
    stored t = [final]
    /\ ((MAX_STEPS <= steps state)%nat
        /\ final = state /\ why t = [ReachedMaxSteps]
        \/ (steps state < MAX_STEPS)%nat
           /\ captured (onCapture env (S (steps state))) = None
           /\ final = incrSteps state /\ why t = [CaptureFailed]
        \/ (steps state < MAX_STEPS)%nat
           /\ (exists url,
                  captured (onCapture env (S (steps state))) = Some url
                  /\ final = pushImage (mkFrame (actualYAt env state) url)
                               (incrSteps state))
           /\ isStuck (prevY state) (actualYAt env state) = true
           /\ why t = [ScrollStuck]
        \/ (steps state < MAX_STEPS)%nat
           /\ (exists url,
                  captured (onCapture env (S (steps state))) = Some url
                  /\ final = advance (actualYAt env state)
                               (actualYAt env state + visibleHeight state
                                - OVERLAP)%Q
                               (pushImage (mkFrame (actualYAt env state) url)
                                  (incrSteps state)))
           /\ isStuck (prevY state) (actualYAt env state) = false
           /\ Js.ge (actualYAt env state + visibleHeight state)%Q
                (fullHeight state) = true
           /\ why t = []).
Proof.
  intros H. step_cases H;
    [apply Nat.leb_le in Hlimit|apply Nat.leb_gt in Hlimit..];
    eexists; (split; [|]).
  all: try (change (?a :: ?b :: ?c :: ?d :: finishEvents ?e ?i ?s)
              with ([a; b; c; d] ++ finishEvents e i s)).
  all: try (change (?a :: ?b :: ?c :: finishEvents ?e ?i ?s)
              with ([a; b; c] ++ finishEvents e i s)).
  all: try (change (?a :: finishEvents ?e ?i ?s)
              with ([a] ++ finishEvents e i s)).
  all: try (rewrite stored_app, finishEvents_stored; reflexivity).
  all: rewrite ?why_app, ?why_finishEvents.
  - left. auto.
  - right. right. left. repeat split; eauto.
  - right. right. right. repeat split; eauto.
  - right. left. auto.
Qed.

(** What [startCapture] has added to the trace when it returns. *)
Lemma startCapture_cases (fuel : nat) (env : Env) (tabId : nat)
      (w w' : World) (t : list Event) :
  startCapture fuel env tabId w = Some w' ->
  trace w' = trace w ++ t ->
  t = [ExecuteScript tabId; Console ErrorStartingCapture]
  \/ t = [ExecuteScript tabId; SendMessage tabId INIT_CAPTURE;
          Console FailedToInitialize]
  \/ exists response t0,
       onExecuteScript env = true
       /\ onInit env = Some response
       /\ run fuel env tabId (newSession response) = Some t0
       /\ t = ExecuteScript tabId :: SendMessage tabId INIT_CAPTURE :: t0.
Proof.
  intros Hstart Htrace.
  destruct (onExecuteScript env) eqn:Hexec.
  2:{ left. unfold startCapture in Hstart. rewrite Hexec in Hstart.
      injection Hstart as <-. unfold emit in Htrace. cbn [trace] in Htrace.
      rewrite <- app_assoc in Htrace. apply app_inv_head in Htrace.
      subst t. reflexivity. }
  destruct (onInit env) as [response|] eqn:Hinit.
  2:{ right. left. unfold startCapture in Hstart.
      rewrite Hexec, Hinit in Hstart.
      injection Hstart as <-. unfold emit in Htrace. cbn [trace] in Htrace.
      rewrite <- !app_assoc in Htrace. apply app_inv_head in Htrace.
      subst t. reflexivity. }
  right. right.
  destruct (startCapture_Some fuel env tabId w w' response Hexec Hinit Hstart)
    as (t0 & Hrun & Htrace').
  rewrite Htrace' in Htrace. apply app_inv_head in Htrace. subst t.
  exists response, t0. auto.
Qed.

Lemma ge_false (a b : Q) : Js.ge a b = false -> (a < b)%Q.
Proof.
  intros H. apply Qnot_le_lt. intros Hle.
  apply JsFacts.ge_spec in Hle. congruence.
Qed.

(** *** Frames and steps *)

Lemma run_frames (env : Env) (tabId : nat) (fuel : nat) (state : Session)
      (t : list Event) :
  run fuel env tabId state = Some t ->
  forall final, stored t = [final] ->
    (CaptureFailed ∈ why t ->
     (length (images final) + steps state + 1
      = steps final + length (images state))%nat)
    /\ (CaptureFailed ∉ why t ->
        (length (images final) + steps state
         = steps final + length (images state))%nat)
    /\ (Forall (fun f => frame_dataUrl f <> EmptyString) (images state) ->
        Forall (fun f => frame_dataUrl f <> EmptyString) (images final)).
Proof.
  revert fuel state t.
  apply (run_induction env tabId
           (fun state t => forall final, stored t = [final] ->
              (CaptureFailed ∈ why t ->
               (length (images final) + steps state + 1
                = steps final + length (images state))%nat)
              /\ (CaptureFailed ∉ why t ->
                  (length (images final) + steps state
                   = steps final + length (images state))%nat)
              /\ (Forall (fun f => frame_dataUrl f <> EmptyString)
                    (images state) ->
                  Forall (fun f => frame_dataUrl f <> EmptyString)
                    (images final)))).
  - intros state t Hstep final Hfinal.
    destruct (step_ends _ _ _ _ Hstep) as (final' & Hst & Hcases).
    rewrite Hst in Hfinal. injection Hfinal as ->.
    destruct Hcases as [(_ & -> & ->)
                       |[(_ & _ & -> & ->)
                        |[(_ & (url & Hcap & ->) & _ & ->)
                         |(_ & (url & Hcap & ->) & _ & _ & ->)]]];
      cbn [images steps incrSteps pushImage advance];
      rewrite ?length_app; cbn [length].
    + split; [intros Hin; absent Hin|]. split; [lia|auto].
    + split; [lia|]. split; [|auto].
      intros Hnot. exfalso. apply Hnot. left.
    + split; [intros Hin; absent Hin|]. split; [lia|].
      intros Hall. apply Forall_app. split; [exact Hall|].
      repeat constructor. exact (captured_nonempty _ _ Hcap).
    + split; [intros Hin; inversion Hin|]. split; [lia|].
      intros Hall. apply Forall_app. split; [exact Hall|].
      repeat constructor. exact (captured_nonempty _ _ Hcap).
  - intros state t state' t' Hstep IH final Hfinal.
    destruct (step_goes_on _ _ _ _ _ Hstep)
      as (url & Hcap & -> & _ & _ & _ & Hwhy & Hstored).
    rewrite stored_app, Hstored in Hfinal. cbn [app] in Hfinal.
    destruct (IH final Hfinal) as (Hfail & Hok & Hurls).
    rewrite why_app, Hwhy. cbn [app].
    cbn [images steps incrSteps pushImage advance] in Hfail, Hok, Hurls.
    rewrite length_app in Hfail, Hok. cbn [length] in Hfail, Hok.
    split; [intros Hin; specialize (Hfail Hin); lia|].
    split; [intros Hnot; specialize (Hok Hnot); lia|].
    intros Hall. apply Hurls, Forall_app. split; [exact Hall|].
    repeat constructor. exact (captured_nonempty _ _ Hcap).
Qed.

(** Each step counted has made one scroll request and one capture. *)
Lemma run_requests (env : Env) (tabId : nat) (fuel : nat) (state : Session)
      (t : list Event) :
  run fuel env tabId state = Some t ->
  forall final, stored t = [final] ->
    (scrollRequests t + steps state = steps final)%nat
    /\ (captureRequests t + steps state = steps final)%nat.
Proof.
  revert fuel state t.
  apply (run_induction env tabId
           (fun state t => forall final, stored t = [final] ->
              (scrollRequests t + steps state = steps final)%nat
              /\ (captureRequests t + steps state = steps final)%nat)).
  - intros state t Hstep final Hfinal.
    destruct (step_finishes _ _ _ _ Hstep)
      as (pre & final' & -> & Hpre & _ & Hcases).
    destruct (finishEvents_requests env tabId final') as [Hs Hc].
    rewrite stored_app, Hpre, finishEvents_stored in Hfinal.
    injection Hfinal as ->.
    rewrite scrollRequests_app, captureRequests_app, Hs, Hc.
    destruct Hcases as [(_ & -> & ->)|(_ & Hsteps & Hsc & Hcap & _)].
    + split; reflexivity.
    + rewrite Hsc, Hcap, Hsteps. split; lia.
  - intros state t state' t' Hstep IH final Hfinal.
    destruct (step_continues _ _ _ _ _ Hstep)
      as (_ & Hsteps & _ & Hsc & Hcap & Hstored & _).
    rewrite stored_app, Hstored in Hfinal.
    destruct (IH final Hfinal) as [Hs Hc].
    rewrite scrollRequests_app, captureRequests_app, Hsc, Hcap.
    split; lia.
Qed.

(** X4.  Every frame of the session a capture hands to storage is a screenshot
    that was taken: its data URL is not empty.  The session counts one step
    for each scroll request and for each capture made, never more than
    [MAX_STEPS], and holds one frame for each step, less the one whose capture
    failed when the capture ended on a failure. *)
Theorem frames_match_steps (fuel : nat) (env : Env) (tabId : nat)
        (w w' : World) (t : list Event) (final : Session) :
  startCapture fuel env tabId w = Some w' ->
  trace w' = trace w ++ t ->
  StorageSet final ∈ t ->
  (Console CaptureFailed ∈ t ->
   (length (images final) + 1 = steps final)%nat)
  /\ (Console CaptureFailed ∉ t ->
      length (images final) = steps final)
  /\ Forall (fun f => frame_dataUrl f <> EmptyString) (images final)
  /\ scrollRequests t = steps final
  /\ captureRequests t = steps final
  /\ (steps final <= MAX_STEPS)%nat.
Proof.
  intros Hstart Htrace Hin.
  destruct (startCapture_cases _ _ _ _ _ _ Hstart Htrace)
    as [->|[->|(response & t0 & _ & _ & Hrun & ->)]];
    [exfalso; absent Hin..|].
  do 2 (apply elem_of_cons in Hin; destruct Hin as [Hin|Hin];
        [discriminate Hin|]).
  apply stored_spec in Hin.
  destruct (run_bounds _ _ _ _ _ Hrun)
    as (_ & _ & final' & Hst & _ & _ & Hmax & _).
  rewrite Hst in Hin. apply list_elem_of_singleton in Hin. subst final'.
  destruct (run_frames _ _ _ _ _ Hrun final Hst) as (Hfail & Hok & Hurls).
  cbn [newSession images steps length] in Hfail, Hok, Hurls, Hmax.
  rewrite !why_spec by discriminate.
  change (why (?a :: ?b :: t0)) with (why t0).
  destruct (run_requests _ _ _ _ _ Hrun final Hst) as [Hsc Hcap].
  cbn [newSession steps] in Hsc, Hcap.
  change (scrollRequests (?a :: ?b :: t0)) with (scrollRequests t0).
  change (captureRequests (?a :: ?b :: t0)) with (captureRequests t0).
  split; [intros H; specialize (Hfail H); lia|].
  split; [intros H; specialize (Hok H); lia|].
  split; [apply Hurls; constructor|]. lia.
Qed.

(** *** Completion *)

Lemma run_completes (env : Env) (tabId : nat) (fuel : nat) (state : Session)
      (t : list Event) :
  run fuel env tabId state = Some t ->
  why t = [] ->
  forall final, stored t = [final] ->
    fullHeight final = fullHeight state
    /\ visibleHeight final = visibleHeight state
    /\ exists fs f,
         images final = images state ++ fs ++ [f]
         /\ (fullHeight state <= frame_y f + visibleHeight state)%Q
         /\ Forall (fun g => (frame_y g + visibleHeight state
                              < fullHeight state)%Q) fs.
Proof.
  revert fuel state t.
  apply (run_induction env tabId
           (fun state t => why t = [] ->
              forall final, stored t = [final] ->
                fullHeight final = fullHeight state
                /\ visibleHeight final = visibleHeight state
                /\ exists fs f,
                     images final = images state ++ fs ++ [f]
                     /\ (fullHeight state
                         <= frame_y f + visibleHeight state)%Q
                     /\ Forall (fun g => (frame_y g + visibleHeight state
                                          < fullHeight state)%Q) fs)).
  - intros state t Hstep Hwhy final Hfinal.
    destruct (step_ends _ _ _ _ Hstep) as (final' & Hst & Hcases).
    rewrite Hst in Hfinal. injection Hfinal as ->.
    destruct Hcases as [(_ & _ & Hw)
                       |[(_ & _ & _ & Hw)
                        |[(_ & _ & _ & Hw)
                         |(_ & (url & Hcap & ->) & _ & Hdone & _)]]];
      try (rewrite Hw in Hwhy; discriminate Hwhy).
    split; [reflexivity|]. split; [reflexivity|].
    exists [], (mkFrame (actualYAt env state) url).
    split; [reflexivity|]. split; [|constructor].
    apply JsFacts.ge_spec in Hdone. exact Hdone.
  - intros state t state' t' Hstep IH Hwhy final Hfinal.
    destruct (step_goes_on _ _ _ _ _ Hstep)
      as (url & Hcap & -> & _ & Hmore & _ & Hw & Hstored).
    rewrite stored_app, Hstored in Hfinal. cbn [app] in Hfinal.
    rewrite why_app, Hw in Hwhy. cbn [app] in Hwhy.
    destruct (IH Hwhy final Hfinal) as (Hfh & Hvh & fs & f & Himgs & Hf & Hfs).
    cbn [images fullHeight visibleHeight incrSteps pushImage advance]
      in Hfh, Hvh, Himgs, Hf, Hfs.
    split; [exact Hfh|]. split; [exact Hvh|].
    exists (mkFrame (actualYAt env state) url :: fs), f.
    rewrite Himgs, <- app_assoc. split; [reflexivity|].
    split; [exact Hf|]. constructor; [|exact Hfs].
    apply ge_false in Hmore. exact Hmore.
Qed.

(** A run that logs none of the three reasons logs no reason. *)
Lemma run_why (env : Env) (tabId : nat) (fuel : nat) (state : Session)
      (t : list Event) :
  run fuel env tabId state = Some t ->
  ReachedMaxSteps ∉ why t ->
  CaptureFailed ∉ why t ->
  ScrollStuck ∉ why t ->
  why t = [].
Proof.
  revert fuel state t.
  apply (run_induction env tabId
           (fun _ t => ReachedMaxSteps ∉ why t -> CaptureFailed ∉ why t
                       -> ScrollStuck ∉ why t -> why t = [])).
  - intros state t Hstep H1 H2 H3.
    destruct (step_ends _ _ _ _ Hstep) as (fin & _ & Hcases).
    destruct Hcases as [(_ & _ & Hw)
                       |[(_ & _ & _ & Hw)
                        |[(_ & _ & _ & Hw)|(_ & _ & _ & _ & Hw)]]];
      rewrite Hw in *; try reflexivity; exfalso;
      [apply H1|apply H2|apply H3]; left.
  - intros state t state' t' Hstep IH H1 H2 H3.
    destruct (step_goes_on _ _ _ _ _ Hstep)
      as (_ & _ & _ & _ & _ & _ & Hw & _).
    rewrite why_app, Hw in *. cbn [app] in *. auto.
Qed.

(** X5.  A capture that ends for none of the three early reasons (step limit,
    failed capture, stuck scroll) has reached the bottom: the last frame of
    the session it hands to storage ends at or below [fullHeight], and every
    frame before it ends above [fullHeight]. *)
Theorem completed_capture_reaches_bottom (fuel : nat) (env : Env)
        (tabId : nat) (w w' : World) (t : list Event) (final : Session) :
  startCapture fuel env tabId w = Some w' ->
  trace w' = trace w ++ t ->
  StorageSet final ∈ t ->
  Console ReachedMaxSteps ∉ t ->
  Console CaptureFailed ∉ t ->
  Console ScrollStuck ∉ t ->
  exists fs f,
    images final = fs ++ [f]
    /\ (fullHeight final <= frame_y f + visibleHeight final)%Q
    /\ Forall (fun g => (frame_y g + visibleHeight final
                         < fullHeight final)%Q) fs.
Proof.
  intros Hstart Htrace Hin Hlimit Hfail Hstuck.
  destruct (startCapture_cases _ _ _ _ _ _ Hstart Htrace)
    as [->|[->|(response & t0 & _ & _ & Hrun & ->)]];
    [exfalso; absent Hin..|].
  do 2 (apply elem_of_cons in Hin; destruct Hin as [Hin|Hin];
        [discriminate Hin|]).
  apply stored_spec in Hin.
  destruct (run_bounds _ _ _ _ _ Hrun) as (_ & _ & final' & Hst & _).
  rewrite Hst in Hin. apply list_elem_of_singleton in Hin. subst final'.
  rewrite why_spec in Hlimit, Hfail, Hstuck by discriminate.
  change (why (?a :: ?b :: t0)) with (why t0) in Hlimit, Hfail, Hstuck.
  pose proof (run_why _ _ _ _ _ Hrun Hlimit Hfail Hstuck) as Hwhy.
  destruct (run_completes _ _ _ _ _ Hrun Hwhy final Hst)
    as (-> & -> & fs & f & Himgs & Hf & Hfs).
  exists fs, f. cbn [newSession images app] in Himgs.
  split; [exact Himgs|]. split; assumption.
Qed.

(** *** A page that scrolls as a browser does *)

(** The page answers a request for an offset that is not negative with the
    offset asked for, clamped at the end [max] of its scroll range. *)
Definition clampsTo (env : Env) (max : Q) : Prop :=
  forall n y,
    (0 <= y)%Q ->
    (y <= max -> actualYOf (onScrollTo env n y) y == y)%Q
    /\ (max <= y -> actualYOf (onScrollTo env n y) y == max)%Q.

(** The next offset asked for is not negative, and the last offset reached
    lies before it and before the end of the scroll range. *)
Definition moving (max : Q) (state : Session) : Prop :=
  (0 <= currentY state)%Q
  /\ forall p, prevY state = Some p -> (p < currentY state /\ p < max)%Q.

Lemma clamped_step (env : Env) (state : Session) :
  clampsTo env (fullHeight state - visibleHeight state) ->
  moving (fullHeight state - visibleHeight state) state ->
  isStuck (prevY state) (actualYAt env state) = false
  /\ (actualYAt env state <= currentY state)%Q
  /\ (Js.ge (actualYAt env state + visibleHeight state)%Q (fullHeight state)
      = true ->
      actualYAt env state + visibleHeight state == fullHeight state)%Q
  /\ (Js.ge (actualYAt env state + visibleHeight state)%Q (fullHeight state)
      = false ->
      actualYAt env state == currentY state
      /\ actualYAt env state < fullHeight state - visibleHeight state)%Q.
Proof.
  intros Hclamp [Hpos Hmove]. unfold actualYAt.
  destruct (Hclamp (S (steps state)) (currentY state) Hpos) as [Hin Hout].
  set (a := actualYOf _ _) in *.
  split; [|split; [|split]].
  - unfold isStuck. destruct (prevY state) as [p|] eqn:Hp; [|reflexivity].
    destruct (Hmove p eq_refl) as [H1 H2].
    destruct (Qeq_bool a p) eqn:E; [|reflexivity].
    apply Qeq_bool_iff in E. exfalso.
    destruct (Qlt_le_dec (currentY state)
                (fullHeight state - visibleHeight state)) as [Hlt|Hge].
    + specialize (Hin (Qlt_le_weak _ _ Hlt)). lra.
    + specialize (Hout Hge). lra.
  - destruct (Qlt_le_dec (currentY state)
                (fullHeight state - visibleHeight state)) as [Hlt|Hge].
    + specialize (Hin (Qlt_le_weak _ _ Hlt)). lra.
    + specialize (Hout Hge). lra.
  - intros Hdone. apply JsFacts.ge_spec in Hdone.
    destruct (Qlt_le_dec (currentY state)
                (fullHeight state - visibleHeight state)) as [Hlt|Hge].
    + specialize (Hin (Qlt_le_weak _ _ Hlt)). lra.
    + specialize (Hout Hge). lra.
  - intros Hmore. apply ge_false in Hmore.
    destruct (Qlt_le_dec (currentY state)
                (fullHeight state - visibleHeight state)) as [Hlt|Hge].
    + specialize (Hin (Qlt_le_weak _ _ Hlt)). split; lra.
    + specialize (Hout Hge). lra.
Qed.

Lemma run_clamped (env : Env) (tabId : nat) (fuel : nat) (state : Session)
      (t : list Event) :
  run fuel env tabId state = Some t ->
  clampsTo env (fullHeight state - visibleHeight state) ->
  (OVERLAP < visibleHeight state)%Q ->
  moving (fullHeight state - visibleHeight state) state ->
  (ScrollStuck ∉ why t)
  /\ (why t = [] ->
      forall final, stored t = [final] ->
        exists fs f,
          images final = images state ++ fs ++ [f]
          /\ (frame_y f + visibleHeight state == fullHeight state)%Q
          /\ (frame_y f
              <= currentY state
                 + inject_Z (Z.of_nat (length fs))
                   * (visibleHeight state - OVERLAP))%Q
          /\ forall k g, fs !! k = Some g ->
               (frame_y g == currentY state
                             + inject_Z (Z.of_nat k)
                               * (visibleHeight state - OVERLAP))%Q).
Proof.
  revert fuel state t.
  apply (run_induction env tabId
           (fun state t =>
              clampsTo env (fullHeight state - visibleHeight state) ->
              (OVERLAP < visibleHeight state)%Q ->
              moving (fullHeight state - visibleHeight state) state ->
              (ScrollStuck ∉ why t)
              /\ (why t = [] ->
                  forall final, stored t = [final] ->
                    exists fs f,
                      images final = images state ++ fs ++ [f]
                      /\ (frame_y f + visibleHeight state
                          == fullHeight state)%Q
                      /\ (frame_y f
                          <= currentY state
                             + inject_Z (Z.of_nat (length fs))
                               * (visibleHeight state - OVERLAP))%Q
                      /\ forall k g, fs !! k = Some g ->
                           (frame_y g
                            == currentY state
                               + inject_Z (Z.of_nat k)
                                 * (visibleHeight state - OVERLAP))%Q))).
  - intros state t Hstep Hclamp Hvh Hmove.
    destruct (clamped_step env state Hclamp Hmove)
      as (Hfree & Hbelow & Hbottom & _).
    destruct (step_ends _ _ _ _ Hstep) as (final' & Hst & Hcases).
    destruct Hcases as [(_ & _ & Hw)
                       |[(_ & _ & _ & Hw)
                        |[(_ & _ & Hstuck & _)
                         |(_ & (url & Hcap & ->) & _ & Hdone & Hw)]]];
      try congruence; rewrite Hw.
    + split; [intros Hin; absent Hin|discriminate].
    + split; [intros Hin; absent Hin|discriminate].
    + split; [intros Hin; inversion Hin|].
      intros _ final Hfinal. rewrite Hst in Hfinal. injection Hfinal as <-.
      exists [], (mkFrame (actualYAt env state) url).
      split; [reflexivity|]. split; [exact (Hbottom Hdone)|].
      split; [cbn [frame_y length]; change (inject_Z (Z.of_nat 0)) with 0%Q;
              lra|].
      intros k g Hk. destruct k; discriminate Hk.
  - intros state t state' t' Hstep IH Hclamp Hvh Hmove.
    destruct (clamped_step env state Hclamp Hmove) as (_ & _ & _ & Hgoes).
    destruct (step_goes_on _ _ _ _ _ Hstep)
      as (url & Hcap & -> & _ & Hmore & _ & Hw & Hstored).
    destruct (Hgoes Hmore) as [Hsame Hbefore].
    cbn [images fullHeight visibleHeight currentY prevY incrSteps pushImage
         advance] in IH.
    destruct IH as [Hfree Hbottom]; [exact Hclamp|exact Hvh| |].
    { destruct Hmove as [Hpos _]. split; [cbn [currentY advance]; lra|].
      intros p Hp. cbn [prevY advance] in Hp. injection Hp as <-.
      cbn [currentY advance]. split; lra. }
    rewrite why_app, stored_app, Hw, Hstored. cbn [app].
    split; [exact Hfree|].
    intros Hwhy final Hfinal.
    destruct (Hbottom Hwhy final Hfinal)
      as (fs & f & Himgs & Hf & Hlast & Hfs).
    exists (mkFrame (actualYAt env state) url :: fs), f.
    rewrite Himgs, <- app_assoc. split; [reflexivity|].
    split; [exact Hf|]. split.
    { cbn [length]. rewrite Nat2Z.inj_succ. unfold Z.succ.
      rewrite inject_Z_plus. change (inject_Z 1) with 1%Q.
      set (n := inject_Z (Z.of_nat (length fs))) in *.
      set (vh := visibleHeight state) in *. set (o := OVERLAP) in *.
      assert (Heq : ((n + 1) * (vh - o) == n * (vh - o) + (vh - o))%Q)
        by ring.
      rewrite Heq. lra. }
    intros [|k] g Hk.
    + injection Hk as <-. cbn [frame_y]. rewrite Hsame.
      change (inject_Z (Z.of_nat 0)) with 0%Q. ring.
    + cbn in Hk. rewrite (Hfs k g Hk), Hsame, Nat2Z.inj_succ.
      unfold Z.succ. rewrite inject_Z_plus. change (inject_Z 1) with 1%Q.
      ring.
Qed.

(** X6.  On a page that clamps scroll requests at the end of its scroll range
    [fullHeight - visibleHeight], with a viewport higher than the overlap,
    stuck detection never fires.  When such a capture ends neither on the step
    limit nor on a failed capture, the frames of the session it hands to
    storage lie one step [visibleHeight - OVERLAP] apart from offset 0 on, but
    for the last one, which ends exactly at [fullHeight] and lies no more than
    one step below the frame before it. *)
Theorem clamping_page_is_covered (fuel : nat) (env : Env) (tabId : nat)
        (w w' : World) (t : list Event) (m : Metrics) :
  startCapture fuel env tabId w = Some w' ->
  trace w' = trace w ++ t ->
  onInit env = Some m ->
  (OVERLAP < m_visibleHeight m)%Q ->
  clampsTo env (m_fullHeight m - m_visibleHeight m) ->
  (Console ScrollStuck ∉ t)
  /\ forall final,
       StorageSet final ∈ t ->
       Console ReachedMaxSteps ∉ t ->
       Console CaptureFailed ∉ t ->
       exists fs f,
         images final = fs ++ [f]
         /\ (frame_y f + m_visibleHeight m == m_fullHeight m)%Q
         /\ (frame_y f <= inject_Z (Z.of_nat (length fs))
                          * (m_visibleHeight m - OVERLAP))%Q
         /\ forall k g, fs !! k = Some g ->
              (frame_y g == inject_Z (Z.of_nat k)
                            * (m_visibleHeight m - OVERLAP))%Q.
Proof.
  intros Hstart Htrace Hinit Hvh Hclamp.
  destruct (startCapture_cases _ _ _ _ _ _ Hstart Htrace)
    as [->|[->|(response & t0 & _ & Hinit' & Hrun & ->)]].
  - split; [intros Hin; absent Hin|]. intros final Hin. exfalso. absent Hin.
  - split; [intros Hin; absent Hin|]. intros final Hin. exfalso. absent Hin.
  - rewrite Hinit in Hinit'. injection Hinit' as <-.
    destruct (run_clamped _ _ _ _ _ Hrun) as [Hfree Hbottom];
      [exact Hclamp|exact Hvh
      |split; [apply Qle_refl|intros p Hp; discriminate Hp]|].
    rewrite !why_spec by discriminate.
    change (why (?a :: ?b :: t0)) with (why t0).
    split; [exact Hfree|].
    intros final Hin Hlimit Hfail.
    rewrite why_spec in Hlimit, Hfail by discriminate.
    change (why (?a :: ?b :: t0)) with (why t0) in Hlimit, Hfail.
    do 2 (apply elem_of_cons in Hin; destruct Hin as [Hin|Hin];
          [discriminate Hin|]).
    apply stored_spec in Hin.
    destruct (run_bounds _ _ _ _ _ Hrun) as (_ & _ & final' & Hst & _).
    rewrite Hst in Hin. apply list_elem_of_singleton in Hin. subst final'.
    pose proof (run_why _ _ _ _ _ Hrun Hlimit Hfail Hfree) as Hwhy.
    destruct (Hbottom Hwhy final Hst) as (fs & f & Himgs & Hf & Hlast & Hfs).
    exists fs, f. cbn [newSession images app fullHeight visibleHeight
                        currentY] in Himgs, Hf, Hlast, Hfs.
    split; [exact Himgs|]. split; [exact Hf|]. split; [lra|].
    intros k g Hk. rewrite (Hfs k g Hk). ring.
Qed.

(** *** An example: a page 2000 high in a viewport 1000 high *)

Definition clampingEnv : Env :=
  mkEnv true (Some (mkMetrics 2000 1000 2 0))
    (fun _ y => Some (mkScrollResponse
                        (Some (if Qle_bool y 1000 then y else 1000%Q))))
    (fun _ => mkCaptureResult false (Some "data:image/png;base64,"))
    (fun _ => true) false.

Definition clampedSession : Session :=
  mkSession [mkFrame 0 "data:image/png;base64,";
             mkFrame 920 "data:image/png;base64,";
             mkFrame 1000 "data:image/png;base64,"]
    2000 1000 2 0 1920 3 OVERLAP (Some 1000%Q).

Definition clampedTrace : list Event :=
  [ExecuteScript 7; SendMessage 7 INIT_CAPTURE;
   SendMessage 7 (SCROLL_TO 0); CaptureVisibleTab;
   SendMessage 7 (UPDATE_PROGRESS (PNum 0));
   SendMessage 7 (SCROLL_TO 920); CaptureVisibleTab;
   SendMessage 7 (UPDATE_PROGRESS (PNum 46));
   SendMessage 7 (SCROLL_TO 1840); CaptureVisibleTab;
   SendMessage 7 (UPDATE_PROGRESS (PNum 50));
   SendMessage 7 (RESTORE 0); StorageSet clampedSession; TabsCreate].

Lemma clampingEnv_clamps : clampsTo clampingEnv (2000 - 1000).
Proof.
  intros n y _. cbn [clampingEnv onScrollTo actualYOf sr_actualY].
  destruct (Qle_bool y 1000) eqn:E.
  - apply Qle_bool_iff in E. split; intros H; lra.
  - assert (Hlt : (1000 < y)%Q).
    { apply Qnot_le_lt. intros Hle. apply Qle_bool_iff in Hle. congruence. }
    split; intros H; lra.
Qed.

Lemma clampedTrace_silent (m : LogMessage) : Console m ∉ clampedTrace.
Proof. intros Hin. unfold clampedTrace in Hin. absent Hin. Qed.

Lemma frames_match_steps_example :
  (Console CaptureFailed ∈ clampedTrace ->
   (length (images clampedSession) + 1 = steps clampedSession)%nat)
  /\ (Console CaptureFailed ∉ clampedTrace ->
      length (images clampedSession) = steps clampedSession)
  /\ Forall (fun f => frame_dataUrl f <> EmptyString) (images clampedSession)
  /\ scrollRequests clampedTrace = steps clampedSession
  /\ captureRequests clampedTrace = steps clampedSession
  /\ (steps clampedSession <= MAX_STEPS)%nat.
Proof.
  apply (frames_match_steps 5 clampingEnv 7 (mkWorld ∅ [])
           (mkWorld ∅ clampedTrace) clampedTrace clampedSession).
  - reflexivity.
  - reflexivity.
  - apply list_elem_of_In. cbn. tauto.
Defined.

Lemma completed_capture_example :
  exists fs f,
    images clampedSession = fs ++ [f]
    /\ (fullHeight clampedSession
        <= frame_y f + visibleHeight clampedSession)%Q
    /\ Forall (fun g => (frame_y g + visibleHeight clampedSession
                         < fullHeight clampedSession)%Q) fs.
Proof.
  apply (completed_capture_reaches_bottom 5 clampingEnv 7 (mkWorld ∅ [])
           (mkWorld ∅ clampedTrace) clampedTrace clampedSession).
  - reflexivity.
  - reflexivity.
  - apply list_elem_of_In. cbn. tauto.
  - apply clampedTrace_silent.
  - apply clampedTrace_silent.
  - apply clampedTrace_silent.
Defined.

Lemma clamping_page_example :
  (Console ScrollStuck ∉ clampedTrace)
  /\ forall final,
       StorageSet final ∈ clampedTrace ->
       Console ReachedMaxSteps ∉ clampedTrace ->
       Console CaptureFailed ∉ clampedTrace ->
       exists fs f,
         images final = fs ++ [f]
         /\ (frame_y f + 1000 == 2000)%Q
         /\ (frame_y f <= inject_Z (Z.of_nat (length fs))
                          * (1000 - OVERLAP))%Q
         /\ forall k g, fs !! k = Some g ->
              (frame_y g == inject_Z (Z.of_nat k) * (1000 - OVERLAP))%Q.
Proof.
  apply (clamping_page_is_covered 5 clampingEnv 7 (mkWorld ∅ [])
           (mkWorld ∅ clampedTrace) clampedTrace (mkMetrics 2000 1000 2 0)).
  - reflexivity.
  - reflexivity.
  - reflexivity.
  - reflexivity.
  - exact clampingEnv_clamps.
Defined.

(** *** The registry of sessions *)

Lemma finishCapture_others (env : Env) (tabId other : nat) (w : World) :
  other <> tabId ->
  captureState (finishCapture env tabId w) !! other
  = captureState w !! other.
Proof.
  intros Hne. unfold finishCapture.
  destruct (captureState w !! tabId) as [state|]; [|reflexivity].
  destruct (onStorageSet env state); [|destruct (alertDefined env)];
    cbn [captureState emit]; rewrite ?lookup_delete_ne by congruence;
    reflexivity.
Qed.

Lemma finishCapture_gone (env : Env) (tabId : nat) (w : World) :
  (forall s, onStorageSet env s || alertDefined env = true) ->
  captureState (finishCapture env tabId w) !! tabId = None.
Proof.
  intros Hok. destruct (captureState w !! tabId) as [state|] eqn:H.
  - rewrite (finishCapture_deletes env tabId w state H (Hok state)).
    apply lookup_delete_eq.
  - unfold finishCapture. rewrite H. exact H.
Qed.

(** One call of [captureLoop] and the registry: the entries of other tabs
    stay; the entry of the tab is there when the loop goes on and, unless
    storing failed where [alert] is missing, gone when it does not. *)
Lemma captureLoopBody_registry (env : Env) (tabId : nat) (w : World) :
  (forall other, other <> tabId ->
     captureState (fst (captureLoopBody env tabId w)) !! other
     = captureState w !! other)
  /\ (snd (captureLoopBody env tabId w) = false ->
      (forall s, onStorageSet env s || alertDefined env = true) ->
      captureState (fst (captureLoopBody env tabId w)) !! tabId = None).
Proof.
  unfold captureLoopBody.
  destruct (captureState w !! tabId) as [state|] eqn:H;
    [|split; [reflexivity|intros _ _; exact H]].
  destruct (MAX_STEPS <=? steps state)%nat.
  { cbn [fst snd]. split.
    - intros other Hne. rewrite finishCapture_others by exact Hne.
      reflexivity.
    - intros _ Hok. apply finishCapture_gone, Hok. }
  destruct (captured _) as [dataUrl|].
  2:{ cbn [fst snd]. split.
      - intros other Hne. rewrite finishCapture_others by exact Hne.
        cbn [captureState emit store]. apply lookup_insert_ne. congruence.
      - intros _ Hok. apply finishCapture_gone, Hok. }
  destruct (isStuck _ _).
  { cbn [fst snd]. split.
    - intros other Hne. rewrite finishCapture_others by exact Hne.
      cbn [captureState emit store].
      rewrite !lookup_insert_ne by congruence. reflexivity.
    - intros _ Hok. apply finishCapture_gone, Hok. }
  destruct (Js.ge _ _); cbn [fst snd].
  - split.
    + intros other Hne. rewrite finishCapture_others by exact Hne.
      cbn [captureState emit store].
      rewrite !lookup_insert_ne by congruence. reflexivity.
    + intros _ Hok. apply finishCapture_gone, Hok.
  - split; [|discriminate].
    intros other Hne. cbn [captureState emit store].
    rewrite !lookup_insert_ne by congruence. reflexivity.
Qed.

Lemma captureLoop_registry (fuel : nat) (env : Env) (tabId : nat)
      (w w' : World) :
  captureLoop fuel env tabId w = Some w' ->
  (forall other, other <> tabId ->
     captureState w' !! other = captureState w !! other)
  /\ ((forall s, onStorageSet env s || alertDefined env = true) ->
      captureState w' !! tabId = None).
Proof.
  revert w. induction fuel as [|fuel IH]; intros w Hloop; [discriminate|].
  cbn [captureLoop] in Hloop.
  destruct (captureLoopBody_registry env tabId w) as [Hothers Hgone].
  destruct (captureLoopBody env tabId w) as [w1 again].
  cbn [fst snd] in Hothers, Hgone. destruct again.
  - destruct (IH w1 Hloop) as [Hothers' Hgone'].
    split; [|exact Hgone'].
    intros other Hne. rewrite Hothers' by exact Hne. apply Hothers, Hne.
  - injection Hloop as <-. split; [exact Hothers|]. apply Hgone. reflexivity.
Qed.

(** X7.  A capture of one tab leaves the sessions of all other tabs as they
    were.  When the script was injected and the page answered [INIT_CAPTURE],
    and storing succeeds (or [alert] exists), the capture leaves no session of
    its own tab behind. *)
Theorem capture_keeps_other_sessions (fuel : nat) (env : Env) (tabId : nat)
        (w w' : World) :
  startCapture fuel env tabId w = Some w' ->
  (forall other, other <> tabId ->
     captureState w' !! other = captureState w !! other)
  /\ (onExecuteScript env = true ->
      is_Some (onInit env) ->
      (forall s, onStorageSet env s || alertDefined env = true) ->
      captureState w' !! tabId = None).
Proof.
  intros Hstart. unfold startCapture in Hstart.
  destruct (onExecuteScript env).
  2:{ injection Hstart as <-. split; [reflexivity|discriminate]. }
  destruct (onInit env) as [response|].
  2:{ injection Hstart as <-.
      split; [reflexivity|intros _ [x Hx]; discriminate Hx]. }
  destruct (captureLoop_registry _ _ _ _ _ Hstart) as [Hothers Hgone].
  split.
  - intros other Hne. rewrite Hothers by exact Hne.
    cbn [captureState emit store]. apply lookup_insert_ne. congruence.
  - intros _ _ Hok. apply Hgone, Hok.
Qed.

Lemma capture_keeps_other_sessions_example :
  (forall other, other <> 7%nat ->
     captureState (mkWorld (<[3%nat := clampedSession]> ∅) clampedTrace)
       !! other
     = captureState (mkWorld (<[3%nat := clampedSession]> ∅) []) !! other)
  /\ (onExecuteScript clampingEnv = true ->
      is_Some (onInit clampingEnv) ->
      (forall s, onStorageSet clampingEnv s || alertDefined clampingEnv
                 = true) ->
      captureState (mkWorld (<[3%nat := clampedSession]> ∅) clampedTrace)
        !! 7%nat = None).
Proof.
  apply (capture_keeps_other_sessions 5 clampingEnv 7
           (mkWorld (<[3%nat := clampedSession]> ∅) [])
           (mkWorld (<[3%nat := clampedSession]> ∅) clampedTrace)).
  vm_compute. reflexivity.
Defined.

(** *** The progress percentage *)

Lemma round_nonneg (x : Q) : (0 <= x)%Q -> (0 <= round x)%Q.
Proof.
  intros Hx. unfold round.
  change 0%Q with (inject_Z 0). rewrite <- Zle_Qle.
  change 0%Z with (Qfloor 0). apply Qfloor_resp_le. lra.
Qed.

Lemma round_above (x : Q) (z : Z) :
  (inject_Z z <= x)%Q -> (inject_Z z <= round x)%Q.
Proof.
  intros Hx. unfold round. rewrite <- Zle_Qle.
  rewrite <- (Qfloor_Z z). apply Qfloor_resp_le.
  apply (Qle_trans _ x); [exact Hx|lra].
Qed.

(** X8.  For a page of positive height and an offset that is not negative, the
    percentage sent with [UPDATE_PROGRESS] is a whole number between 0 and
    100; it is 100 from the offset [fullHeight] on. *)
Theorem percent_in_range (actualY fullHeight : Q) :
  (0 < fullHeight)%Q ->
  (0 <= actualY)%Q ->
  exists z : Z,
    percentOf actualY fullHeight = PNum (inject_Z z)
    /\ (0 <= z <= 100)%Z
    /\ ((fullHeight <= actualY)%Q -> z = 100%Z).
Proof.
  intros Hfh Hy. unfold percentOf.
  destruct (Qeq_bool fullHeight 0) eqn:E.
  { apply Qeq_bool_iff in E. lra. }
  assert (Hratio : (0 <= actualY / fullHeight * 100)%Q).
  { apply Qmult_le_0_compat; [|discriminate].
    apply Qle_shift_div_l; [exact Hfh|]. lra. }
  pose proof (round_nonneg _ Hratio) as Hlow.
  destruct (Js.le _ 100) eqn:Hle.
  - apply JsFacts.le_spec in Hle. unfold round in *.
    set (z := Qfloor (actualY / fullHeight * 100 + (1 # 2))) in *.
    assert (Hz0 : (0 <= z)%Z) by (rewrite Zle_Qle; exact Hlow).
    assert (Hz1 : (z <= 100)%Z) by (rewrite Zle_Qle; exact Hle).
    exists z. split; [reflexivity|]. split; [lia|].
    intros Hbottom.
    assert (Hhigh : (inject_Z 100
                     <= round (actualY / fullHeight * 100))%Q).
    { apply round_above. change (inject_Z 100) with (1 * 100)%Q.
      apply Qmult_le_compat_r; [|discriminate].
      apply Qle_shift_div_l; [exact Hfh|]. lra. }
    assert (Hz2 : (100 <= z)%Z) by (rewrite Zle_Qle; exact Hhigh).
    lia.
  - exists 100%Z. split; [reflexivity|]. split; [lia|reflexivity].
Qed.

Lemma percent_in_range_example :
  exists z : Z,
    percentOf 920 2000 = PNum (inject_Z z)
    /\ (0 <= z <= 100)%Z
    /\ ((2000 <= 920)%Q -> z = 100%Z).
Proof.
  apply (percent_in_range 920 2000); reflexivity || discriminate.
Defined.

(** *** How a capture ends *)

(** The events of a call before it finishes. *)
Definition quiet (e : Event) : Prop :=
  match e with
  | SendMessage _ (SCROLL_TO _) | SendMessage _ (UPDATE_PROGRESS _)
  | CaptureVisibleTab | Console ReachedMaxSteps | Console CaptureFailed
  | Console ScrollStuck => True
  | _ => False
  end.

Lemma run_finishes (env : Env) (tabId : nat) (fuel : nat) (state : Session)
      (t : list Event) :
  run fuel env tabId state = Some t ->
  exists pre final,
    t = pre ++ finishEvents env tabId final /\ Forall quiet pre.
Proof.
  revert fuel state t.
  apply (run_induction env tabId
           (fun _ t => exists pre final,
                t = pre ++ finishEvents env tabId final
                /\ Forall quiet pre)).
  - intros state t Hstep. step_cases Hstep.
    + exists [Console ReachedMaxSteps], state.
      split; [reflexivity|repeat constructor].
    + eexists (_ :: _ :: [_; _]), _.
      split; [reflexivity|repeat constructor].
    + eexists (_ :: _ :: [_]), _. split; [reflexivity|repeat constructor].
    + eexists (_ :: _ :: [_]), _. split; [reflexivity|repeat constructor].
  - intros state t state' t' Hstep (pre & final & -> & Hpre).
    exists (t ++ pre), final. rewrite app_assoc. split; [reflexivity|].
    apply Forall_app. split; [|exact Hpre].
    step_cases Hstep. repeat constructor.
Qed.

(** X9.  A capture whose session was created ends with [finishCapture] finding
    that session: no property is ever read on a missing session.  The session
    is stored once; the result tab is opened exactly when storing it
    succeeded; otherwise the error is logged and [alert] is called, which
    throws where [alert] does not exist. *)
Theorem capture_outcome (fuel : nat) (env : Env) (tabId : nat)
        (w w' : World) (t : list Event) :
  startCapture fuel env tabId w = Some w' ->
  trace w' = trace w ++ t ->
  onExecuteScript env = true ->
  is_Some (onInit env) ->
  (UncaughtTypeError ∉ t)
  /\ exists final,
       stored t = [final]
       /\ (TabsCreate ∈ t <-> onStorageSet env final = true)
       /\ (Console ErrorSavingToStorage ∈ t
           <-> onStorageSet env final = false)
       /\ (Alert ∈ t
           <-> onStorageSet env final = false /\ alertDefined env = true)
       /\ (UncaughtReferenceError ∈ t
           <-> onStorageSet env final = false /\ alertDefined env = false).
Proof.
  intros Hstart Htrace Hexec [response Hinit].
  destruct (startCapture_Some _ _ _ _ _ _ Hexec Hinit Hstart)
    as (t0 & Hrun & Htrace').
  rewrite Htrace' in Htrace. apply app_inv_head in Htrace. subst t.
  destruct (run_finishes _ _ _ _ _ Hrun) as (pre & final & -> & Hpre).
  destruct (run_bounds _ _ _ _ _ Hrun) as (_ & _ & final' & Hst & _).
  assert (Hquiet : forall e, e ∈ pre -> quiet e).
  { intros e He. rewrite List.Forall_forall in Hpre.
    apply Hpre, list_elem_of_In, He. }
  assert (Hend : forall e,
             ~ quiet e -> e <> ExecuteScript tabId ->
             e <> SendMessage tabId INIT_CAPTURE ->
             e ∈ ExecuteScript tabId :: SendMessage tabId INIT_CAPTURE
                   :: pre ++ finishEvents env tabId final
             <-> e ∈ finishEvents env tabId final).
  { intros e Hloud H1 H2. rewrite !elem_of_cons, elem_of_app. split.
    - intros [?|[?|[He|He]]]; try contradiction; [|exact He].
      exfalso. apply Hloud, Hquiet, He.
    - auto. }
  assert (Hfinal : final' = final).
  { rewrite stored_app, finishEvents_stored in Hst.
    destruct (stored pre); [injection Hst as ->; reflexivity|].
    destruct l; discriminate Hst. }
  subst final'.
  split.
  { rewrite Hend by (cbn; auto; discriminate). unfold finishEvents.
    intros Hin. destruct (onStorageSet env final), (alertDefined env);
      absent Hin. }
  exists final.
  split; [exact Hst|].
  rewrite !Hend by (cbn; auto; discriminate). unfold finishEvents.
  destruct (onStorageSet env final), (alertDefined env);
    (split; [|split; [|split]]); (split; intros Hx);
    first [ reflexivity
          | discriminate Hx
          | solve [exfalso; absent Hx]
          | solve [destruct Hx; discriminate]
          | solve [split; reflexivity]
          | solve [apply list_elem_of_In; cbn; tauto] ].
Qed.

(** A browser whose storage rejects the session, in a service worker. *)
Definition fullStorageEnv : Env :=
  mkEnv true (Some (mkMetrics 1000 1000 1 0))
    (fun _ y => Some (mkScrollResponse (Some y)))
    (fun _ => mkCaptureResult false (Some "data:image/png;base64,"))
    (fun _ => false) false.

Definition rejectedSession : Session :=
  mkSession [mkFrame 0 "data:image/png;base64,"] 1000 1000 1 0 920 1 OVERLAP
    (Some 0%Q).

Definition rejectedTrace : list Event :=
  [ExecuteScript 7; SendMessage 7 INIT_CAPTURE;
   SendMessage 7 (SCROLL_TO 0); CaptureVisibleTab;
   SendMessage 7 (UPDATE_PROGRESS (PNum 0));
   SendMessage 7 (RESTORE 0); StorageSet rejectedSession;
   Console ErrorSavingToStorage; UncaughtReferenceError].

Lemma capture_outcome_example :
  (UncaughtTypeError ∉ rejectedTrace)
  /\ exists final,
       stored rejectedTrace = [final]
       /\ (TabsCreate ∈ rejectedTrace
           <-> onStorageSet fullStorageEnv final = true)
       /\ (Console ErrorSavingToStorage ∈ rejectedTrace
           <-> onStorageSet fullStorageEnv final = false)
       /\ (Alert ∈ rejectedTrace
           <-> onStorageSet fullStorageEnv final = false
               /\ alertDefined fullStorageEnv = true)
       /\ (UncaughtReferenceError ∈ rejectedTrace
           <-> onStorageSet fullStorageEnv final = false
               /\ alertDefined fullStorageEnv = false).
Proof.
  apply (capture_outcome 5 fullStorageEnv 7 (mkWorld ∅ [])
           (mkWorld (<[7%nat := rejectedSession]> ∅) rejectedTrace)
           rejectedTrace).
  - reflexivity.
  - reflexivity.
  - reflexivity.
  - eexists. reflexivity.
Defined.

End OrchestratorCoverage.


(** ** From the capture to the composite *)

Module CompositeCoverage.

Import Protocol Stitcher StitcherFacts StitcherCoverage.
Import Orchestrator OrchestratorFacts OrchestratorCoverage.

(** The handler on frames whose images all have the same size. *)
Lemma handler_same_size (decode : string -> option (Z * Z))
      (st : CapturedData) (fs : list Frame) (f : Frame) (w h : Z) :
  cd_images st = Some (fs ++ [f]) ->
  (forall g, g ∈ fs ++ [f] -> decode (frame_dataUrl g) = Some (w, h)) ->
  let scale := Js.orElse (cd_devicePixelRatio st) 1 in
  let overlap := Js.orElse (cd_overlap st) 0 in
  let p := onDOMContentLoaded decode (Some st) in
  last (pg_status p) = Some Done
  /\ pg_canvasHeight p = Some (totalHeight scale (loadedOf f w h))
  /\ pg_draws p
     = drawAll scale overlap ((fun g => loadedOf g w h) <$> fs ++ [f]).
Proof.
  intros Himgs Hsize scale overlap p.
  pose proof (loadAll_same_size decode _ w h Hsize) as Hload.
  destruct ((fun g => loadedOf g w h) <$> fs ++ [f])
    as [|first rest] eqn:Hloaded.
  { apply (f_equal length) in Hloaded.
    rewrite length_fmap, length_app in Hloaded. cbn in Hloaded. lia. }
  assert (Hlast : last (first :: rest) = Some (loadedOf f w h)).
  { rewrite <- Hloaded, fmap_app. apply last_snoc. }
  pose proof (handler_stitches decode st _ first (loadedOf f w h) rest
                Himgs Hload Hlast) as Hpage.
  cbn zeta in Hpage. subst p. rewrite Hpage.
  cbn [pg_status pg_canvasHeight pg_draws].
  split; [|split; reflexivity].
  rewrite !app_assoc.
  change (?l ++ [StitchingImages; Done]) with (l ++ [StitchingImages] ++ [Done]).
  rewrite app_assoc. apply last_snoc.
Qed.

Lemma inject_succ (n : nat) :
  (inject_Z (Z.of_nat (S n)) == inject_Z (Z.of_nat n) + 1)%Q.
Proof.
  rewrite Nat2Z.inj_succ. unfold Z.succ. rewrite inject_Z_plus. reflexivity.
Qed.

(** Frames one step apart, from offset 0 on, leave no row out: the first
    [m + 1] of them paint every row above the bottom of frame [m]. *)
Lemma tiles_cover (scale o vh : Q) (w h : Z) (fs : list Frame) (m : nat) :
  (inject_Z h == vh * scale)%Q ->
  (forall k g, fs !! k = Some g ->
     (frame_y g == inject_Z (Z.of_nat k) * (vh - o))%Q) ->
  (m < length fs)%nat ->
  forall d,
    (0 <= d)%Q ->
    (d < (inject_Z (Z.of_nat m) * (vh - o) + vh) * scale)%Q ->
    exists k g, (k <= m)%nat /\ fs !! k = Some g
                /\ covers (drawItem scale o k (loadedOf g w h)) d.
Proof.
  intros Hh Hys. induction m as [|m IH]; intros Hm d Hd0 Hd.
  - destruct (lookup_lt_is_Some_2 fs 0 Hm) as [g Hg].
    exists 0%nat, g. split; [lia|]. split; [exact Hg|].
    apply covers_drawItem. cbn [Nat.eqb loadedOf ld_y ld_img img_height].
    pose proof (Hys 0%nat g Hg) as Hy.
    change (inject_Z (Z.of_nat 0)) with 0%Q in Hy, Hd.
    rewrite Hh, Hy. split; lra.
  - destruct (Qlt_le_dec d ((inject_Z (Z.of_nat m) * (vh - o) + vh) * scale))
      as [Hlow|Hhigh].
    + destruct (IH ltac:(lia) d Hd0 Hlow) as (k & g & Hk & Hg & Hc).
      exists k, g. split; [lia|]. split; assumption.
    + destruct (lookup_lt_is_Some_2 fs (S m) Hm) as [g Hg].
      exists (S m), g. split; [lia|]. split; [exact Hg|].
      apply covers_drawItem. cbn [Nat.eqb loadedOf ld_y ld_img img_height].
      pose proof (Hys (S m) g Hg) as Hy.
      rewrite inject_succ in Hy, Hd. rewrite Hh, Hy.
      set (n := inject_Z (Z.of_nat m)) in *.
      split; [|lra].
      eapply Qle_trans; [|exact Hhigh]. ring_simplify. apply Qle_refl.
Qed.

(** With a last frame that ends at [fullHeight] and lies no more than one
    step below the frame before it, every row of the page is painted. *)
Lemma frames_cover (scale o vh fh : Q) (w h : Z) (fs : list Frame)
      (f : Frame) :
  (0 <= scale)%Q ->
  (inject_Z h == vh * scale)%Q ->
  (forall k g, fs !! k = Some g ->
     (frame_y g == inject_Z (Z.of_nat k) * (vh - o))%Q) ->
  (frame_y f + vh == fh)%Q ->
  (0 <= frame_y f)%Q ->
  (frame_y f <= inject_Z (Z.of_nat (length fs)) * (vh - o))%Q ->
  forall d,
    (0 <= d)%Q ->
    (d < fh * scale)%Q ->
    covers (drawAll scale o ((fun g => loadedOf g w h) <$> fs ++ [f])) d.
Proof.
  intros Hscale Hh Hys Hbottom Hf0 Hf d Hd0 Hd. apply covers_drawAll.
  assert (Hlast : ((fun g => loadedOf g w h) <$> fs ++ [f]) !! length fs
                  = Some (loadedOf f w h)).
  { rewrite list_lookup_fmap, lookup_app_r, Nat.sub_diag by lia.
    reflexivity. }
  assert (Hfh : (fh * scale == frame_y f * scale + vh * scale)%Q)
    by (rewrite <- Hbottom; ring).
  destruct (length fs) as [|m] eqn:Hm.
  - exists 0%nat, (loadedOf f w h). split; [exact Hlast|].
    apply covers_drawItem. cbn [Nat.eqb loadedOf ld_y ld_img img_height].
    change (inject_Z (Z.of_nat 0)) with 0%Q in Hf.
    assert (Hzero : (frame_y f == 0)%Q) by lra.
    rewrite Hh. rewrite Hzero in *. split; lra.
  -
    destruct (Qlt_le_dec d ((inject_Z (Z.of_nat m) * (vh - o) + vh) * scale))
      as [Hlow|Hhigh].
    + destruct (tiles_cover scale o vh w h fs m Hh Hys ltac:(lia) d Hd0 Hlow)
        as (k & g & Hk & Hg & Hc).
      exists k, (loadedOf g w h). split; [|exact Hc].
      rewrite list_lookup_fmap, lookup_app_l by lia. rewrite Hg. reflexivity.
    + exists (S m), (loadedOf f w h). split; [exact Hlast|].
      apply covers_drawItem. cbn [Nat.eqb loadedOf ld_y ld_img img_height].
      rewrite inject_succ in Hf. rewrite Hh.
      set (n := inject_Z (Z.of_nat m)) in *.
      split; [|lra].
      eapply Qle_trans; [|exact Hhigh].
      assert (Hle : (frame_y f + o <= n * (vh - o) + vh)%Q) by lra.
      apply (Qmult_le_compat_r _ _ scale) in Hle; [|exact Hscale].
      eapply Qle_trans; [|exact Hle]. ring_simplify. apply Qle_refl.
Qed.

(** A run leaves the metrics of the session as they were. *)
Lemma run_keeps (env : Env) (tabId : nat) (fuel : nat) (state : Session)
      (t : list Event) :
  run fuel env tabId state = Some t ->
  forall final, stored t = [final] ->
    devicePixelRatio final = devicePixelRatio state
    /\ overlap final = overlap state.
Proof.
  revert fuel state t.
  apply (run_induction env tabId
           (fun state t => forall final, stored t = [final] ->
              devicePixelRatio final = devicePixelRatio state
              /\ overlap final = overlap state)).
  - intros state t Hstep final Hfinal.
    destruct (step_ends _ _ _ _ Hstep) as (final' & Hst & Hcases).
    rewrite Hst in Hfinal. injection Hfinal as ->.
    destruct Hcases as [(_ & -> & _)
                       |[(_ & _ & -> & _)
                        |[(_ & (url & _ & ->) & _)
                         |(_ & (url & _ & ->) & _)]]];
      split; reflexivity.
  - intros state t state' t' Hstep IH final Hfinal.
    destruct (step_goes_on _ _ _ _ _ Hstep)
      as (url & _ & -> & _ & _ & _ & _ & Hstored).
    rewrite stored_app, Hstored in Hfinal. exact (IH final Hfinal).
Qed.

(** X10.  The whole page is in the composite.  Take a page that clamps scroll
    requests at the end of its scroll range, a viewport higher than the
    overlap and no higher than the page, and a capture that ends neither on
    the step limit nor on a failed capture; let every screenshot be
    [visibleHeight * devicePixelRatio] device pixels high.  Then the result
    page, reading the session the capture stored, reports 'Done!', makes the
    canvas [fullHeight * devicePixelRatio] high and paints every row of it. *)
Theorem clamping_page_composite (fuel : nat) (env : Env) (tabId : nat)
        (w w' : World) (t : list Event) (m : Metrics) (final : Session)
        (decode : string -> option (Z * Z)) (width h : Z) :
  startCapture fuel env tabId w = Some w' ->
  trace w' = trace w ++ t ->
  onInit env = Some m ->
  (OVERLAP < m_visibleHeight m)%Q ->
  (m_visibleHeight m <= m_fullHeight m)%Q ->
  (0 < m_devicePixelRatio m)%Q ->
  clampsTo env (m_fullHeight m - m_visibleHeight m) ->
  StorageSet final ∈ t ->
  Console ReachedMaxSteps ∉ t ->
  Console CaptureFailed ∉ t ->
  (forall g, g ∈ images final -> decode (frame_dataUrl g) = Some (width, h)) ->
  (inject_Z h == m_visibleHeight m * m_devicePixelRatio m)%Q ->
  let p := onDOMContentLoaded decode (Some (toCapturedData final)) in
  last (pg_status p) = Some Done
  /\ (exists height,
         pg_canvasHeight p = Some height
         /\ (height == m_fullHeight m * m_devicePixelRatio m)%Q)
  /\ forall d,
       (0 <= d)%Q -> (d < m_fullHeight m * m_devicePixelRatio m)%Q ->
       covers (pg_draws p) d.
Proof.
  intros Hstart Htrace Hinit Hvh Hfh Hdpr Hclamp Hin Hlimit Hfail Hsize Hh p.
  destruct (startCapture_cases _ _ _ _ _ _ Hstart Htrace)
    as [->|[->|(response & t0 & _ & Hinit' & Hrun & ->)]];
    [exfalso; absent Hin..|].
  rewrite Hinit in Hinit'. injection Hinit' as <-.
  destruct (run_clamped _ _ _ _ _ Hrun) as [Hfree Hbottom];
    [exact Hclamp|exact Hvh
    |split; [apply Qle_refl|intros q Hq; discriminate Hq]|].
  rewrite why_spec in Hlimit, Hfail by discriminate.
  change (why (?a :: ?b :: t0)) with (why t0) in Hlimit, Hfail.
  do 2 (apply elem_of_cons in Hin; destruct Hin as [Hin|Hin];
        [discriminate Hin|]).
  apply stored_spec in Hin.
  destruct (run_bounds _ _ _ _ _ Hrun) as (_ & _ & final' & Hst & _).
  rewrite Hst in Hin. apply list_elem_of_singleton in Hin. subst final'.
  pose proof (run_why _ _ _ _ _ Hrun Hlimit Hfail Hfree) as Hwhy.
  destruct (Hbottom Hwhy final Hst) as (fs & f & Himgs & Hf & Hlast & Hfs).
  destruct (run_keeps _ _ _ _ _ Hrun final Hst) as [Hratio Hoverlap].
  cbn [newSession images app fullHeight visibleHeight currentY
         devicePixelRatio overlap] in Himgs, Hf, Hlast, Hfs, Hratio, Hoverlap.
  rewrite Himgs in Hsize.
  destruct (handler_same_size decode (toCapturedData final) fs f width h)
    as (Hdone & Hheight & Hdraws).
  { cbn [toCapturedData cd_images]. rewrite Himgs. reflexivity. }
  { exact Hsize. }
  fold p in Hdone, Hheight, Hdraws.
  cbn [toCapturedData cd_devicePixelRatio cd_overlap] in Hheight, Hdraws.
  rewrite Hratio in Hheight, Hdraws. rewrite Hoverlap in Hdraws.
  rewrite JsFacts.orElse_nonzero in Hheight, Hdraws by lra.
  change (Js.orElse (Some OVERLAP) 0) with OVERLAP in Hdraws.
  split; [exact Hdone|]. split.
  - eexists. split; [exact Hheight|].
    unfold totalHeight. cbn [loadedOf ld_y ld_img img_height].
    rewrite Hh, <- Hf. ring.
  - intros d Hd0 Hd. rewrite Hdraws.
    apply (frames_cover _ OVERLAP (m_visibleHeight m) (m_fullHeight m));
      try assumption; try lra.
    intros k g Hk. rewrite (Hfs k g Hk). ring.
Qed.

Definition screenshots (url : string) : option (Z * Z) := Some (1600, 2000)%Z.

Lemma clamping_page_composite_example :
  last (pg_status (onDOMContentLoaded screenshots
                     (Some (toCapturedData clampedSession)))) = Some Done
  /\ (exists height,
         pg_canvasHeight (onDOMContentLoaded screenshots
                            (Some (toCapturedData clampedSession)))
         = Some height
         /\ (height == 2000 * 2)%Q)
  /\ forall d,
       (0 <= d)%Q -> (d < 2000 * 2)%Q ->
       covers (pg_draws (onDOMContentLoaded screenshots
                           (Some (toCapturedData clampedSession)))) d.
Proof.
  apply (clamping_page_composite 5 clampingEnv 7 (mkWorld ∅ [])
           (mkWorld ∅ clampedTrace) clampedTrace (mkMetrics 2000 1000 2 0)
           clampedSession screenshots 1600 2000).
  - reflexivity.
  - reflexivity.
  - reflexivity.
  - reflexivity.
  - discriminate.
  - reflexivity.
  - exact clampingEnv_clamps.
  - apply list_elem_of_In. cbn. tauto.
  - apply clampedTrace_silent.
  - apply clampedTrace_silent.
  - intros g Hg. reflexivity.
  - reflexivity.
Defined.

(** X11.  When the first screenshot fails, the capture still restores the page
    and stores its session, with no frame in it; a result page that reads this
    session shows 'No data found in storage.' and draws nothing. *)
Theorem first_capture_failure_shows_no_data (fuel : nat) (env : Env)
        (tabId : nat) (w w' : World) (t : list Event) (m : Metrics)
        (decode : string -> option (Z * Z)) :
  startCapture fuel env tabId w = Some w' ->
  trace w' = trace w ++ t ->
  onExecuteScript env = true ->
  onInit env = Some m ->
  captured (onCapture env 1) = None ->
  exists final,
    stored t = [final]
    /\ images final = []
    /\ SendMessage tabId (RESTORE (m_originalScrollY m)) ∈ t
    /\ onDOMContentLoaded decode (Some (toCapturedData final))
       = stopped [LoadingCapturedData; NoDataFound].
Proof.
  intros Hstart Htrace Hexec Hinit Hcap.
  destruct (startCapture_Some _ _ _ _ _ _ Hexec Hinit Hstart)
    as (t0 & Hrun & Htrace').
  rewrite Htrace' in Htrace. apply app_inv_head in Htrace. subst t.
  destruct fuel as [|fuel]; [discriminate Hrun|].
  cbn [run] in Hrun. unfold step in Hrun.
  change (MAX_STEPS <=? steps (newSession m))%nat with false in Hrun.
  change (S (steps (newSession m))) with 1%nat in Hrun.
  rewrite Hcap in Hrun. injection Hrun as <-.
  exists (incrSteps (newSession m)).
  split; [|split; [reflexivity|split; [|reflexivity]]].
  - unfold finishEvents.
    destruct (onStorageSet env _), (alertDefined env); reflexivity.
  - apply list_elem_of_In. cbn. tauto.
Qed.

Definition failingEnv : Env :=
  mkEnv true (Some (mkMetrics 2000 1000 2 300))
    (fun _ y => Some (mkScrollResponse (Some y)))
    (fun _ => mkCaptureResult true None)
    (fun _ => true) false.

Definition failedTrace : list Event :=
  [ExecuteScript 7; SendMessage 7 INIT_CAPTURE;
   SendMessage 7 (SCROLL_TO 0); CaptureVisibleTab; Console CaptureFailed;
   SendMessage 7 (RESTORE 300);
   StorageSet (mkSession [] 2000 1000 2 300 0 1 OVERLAP None); TabsCreate].

Lemma first_capture_failure_example :
  exists final,
    stored failedTrace = [final]
    /\ images final = []
    /\ SendMessage 7 (RESTORE 300) ∈ failedTrace
    /\ onDOMContentLoaded screenshots (Some (toCapturedData final))
       = stopped [LoadingCapturedData; NoDataFound].
Proof.
  apply (first_capture_failure_shows_no_data 5 failingEnv 7 (mkWorld ∅ [])
           (mkWorld ∅ failedTrace) failedTrace (mkMetrics 2000 1000 2 300)
           screenshots); reflexivity.
Defined.

End CompositeCoverage.

(** ** content_script.js: the progress bar, the hidden elements, the metrics
    and the restoration *)

Module AgentCoverage.

Import Protocol ContentScript LocatorFacts AgentFacts SessionFacts.

(** An element [hideFixedElements] hides: not the progress bar, and of
    computed position [fixed] or [sticky]. *)
Definition fixedOrSticky (el : Element) : Prop :=
  el_id el <> progressBarId
  /\ (el_position el = "fixed" \/ el_position el = "sticky").

Lemma hidable_spec (el : Element) : hidable el = true <-> fixedOrSticky el.
Proof.
  unfold hidable, fixedOrSticky.
  rewrite andb_true_iff, negb_true_iff, orb_true_iff, String.eqb_neq,
    !String.eqb_eq.
  reflexivity.
Qed.

Lemma savedFrom_inv (k : nat) (els : list Element) (i : nat)
      (sv : SavedStyle) :
  (i, sv) ∈ savedFrom k els ->
  exists el, (k <= i)%nat /\ els !! (i - k)%nat = Some el
             /\ hidable el = true /\ sv = savedOf el.
Proof.
  revert k. induction els as [|x els IH]; intros k H; cbn [savedFrom] in H;
    [inversion H|].
  apply elem_of_app in H. destruct H as [H|H].
  - destruct (hidable x) eqn:E; [|inversion H].
    apply list_elem_of_singleton in H. injection H as -> ->.
    exists x. rewrite Nat.sub_diag. auto.
  - destruct (IH (S k) H) as (el & Hle & Hl & Hh & Hs).
    exists el. split; [lia|].
    replace (i - k)%nat with (S (i - S k)) by lia. auto.
Qed.

Lemma savedFrom_NoDup (k : nat) (els : list Element) :
  NoDup (savedFrom k els).*1.
Proof.
  revert k. induction els as [|x els IH]; intros k; cbn [savedFrom];
    [constructor|].
  rewrite fmap_app. apply NoDup_app. split; [|split; [|apply IH]].
  - destruct (hidable x); repeat constructor. intros H. inversion H.
  - intros i Hi Hi'. apply list_elem_of_fmap in Hi'.
    destruct Hi' as ([i' sv] & -> & Hin). cbn in Hi.
    apply savedFrom_inv in Hin. destruct Hin as (_ & Hle & _).
    destruct (hidable x); [|inversion Hi].
    apply list_elem_of_singleton in Hi. cbn in Hi. lia.
Qed.

(** X12.  [hideFixedElements], run with nothing recorded yet, hides exactly
    the elements of computed position [fixed] or [sticky] that are not the
    progress bar, and records the inline visibility and position each of them
    had, once; every other element, the progress bar among them, is left as it
    was and is not recorded; no element is added or removed. *)
Theorem fixed_elements_hidden (a : Agent) :
  originalStyles a = [] ->
  length (elements (page (hideFixedElements a)))
  = length (elements (page a))
  /\ NoDup (originalStyles (hideFixedElements a)).*1
  /\ forall i el,
       elements (page a) !! i = Some el ->
       (fixedOrSticky el ->
        elements (page (hideFixedElements a)) !! i
        = Some (setStyleVisibility "hidden" el)
        /\ (i, mkSavedStyle (el_styleVisibility el) (el_stylePosition el))
           ∈ originalStyles (hideFixedElements a))
       /\ (~ fixedOrSticky el ->
           elements (page (hideFixedElements a)) !! i = Some el
           /\ forall sv, (i, sv) ∉ originalStyles (hideFixedElements a)).
Proof.
  intros Hempty. rewrite (hideFixedElements_eq a Hempty).
  cbn [page originalStyles elements withElements].
  split; [apply length_fmap|]. split; [apply savedFrom_NoDup|].
  intros i el Hel. rewrite list_lookup_fmap, Hel. cbn [fmap option_fmap option_map].
  unfold hideOne. split.
  - intros Hfix. apply hidable_spec in Hfix. rewrite Hfix.
    split; [reflexivity|].
    apply (savedFrom_lookup 0 i _ el Hel Hfix).
  - intros Hnot.
    destruct (hidable el) eqn:E; [apply hidable_spec in E; contradiction|].
    split; [reflexivity|].
    intros sv Hin. apply savedFrom_inv in Hin.
    destruct Hin as (el' & _ & Hl & Hh & _).
    rewrite Nat.sub_0_r, Hel in Hl. injection Hl as <-. congruence.
Qed.

(** A page with a fixed header and a sticky toolbar, and the browser that
    shows it: the toolbar is [sticky] by its inline style. *)
Definition stickySheet (i : nat) : Element :=
  let box := mkRect 0 768 0 1024 1024 768 in
  match i with
  | 0%nat | 1%nat =>
      mkElement "" "block" "visible" "1" "visible" "static" box
        1024 768 3000 "" "" "" 0
  | 2%nat =>
      mkElement "header" "block" "visible" "1" "visible" "fixed"
        (mkRect 0 60 0 1024 1024 60) 1024 60 60 "" "" "" 0
  | 3%nat =>
      mkElement "toolbar" "block" "visible" "1" "visible" "static"
        (mkRect 60 100 0 1024 1024 40) 1024 40 40 "" "" "" 0
  | _ =>
      mkElement "" "block" "visible" "1" "visible" "static"
        (mkRect 0 5 0 1024 1024 5) 1024 5 5 "" "" "" 0
  end.

Definition stickyBrowser : Browser := browserOf stickySheet.

Definition stickyPage : Document :=
  let box := mkRect 0 768 0 1024 1024 768 in
  let html :=
    mkElement "" "block" "visible" "1" "visible" "static" box
      1024 768 3000 "" "" "" 0 in
  let body :=
    mkElement "" "block" "visible" "1" "visible" "static" box
      1024 768 3000 "" "" "" 0 in
  let header :=
    mkElement "header" "block" "visible" "1" "visible" "fixed"
      (mkRect 0 60 0 1024 1024 60) 1024 60 60 "visible" "" "" 0 in
  let toolbar :=
    mkElement "toolbar" "block" "visible" "1" "visible" "sticky"
      (mkRect 60 100 0 1024 1024 40) 1024 40 40 "" "sticky" "" 0 in
  mkDocument [html; body; header; toolbar] 0 (Some 0%nat) 1024 768 2 120
    (Some 1%nat).

Lemma stickyPage_laidOut : relayout stickyBrowser stickyPage = stickyPage.
Proof. reflexivity. Qed.

(** The script in [stickyPage] once it has its progress bar. *)
Definition stickyAgent : Agent :=
  fst (createProgressBar stickyBrowser (injected stickyPage)).

Lemma fixed_elements_hidden_example :
  length (elements (page (hideFixedElements stickyAgent)))
  = length (elements (page stickyAgent))
  /\ NoDup (originalStyles (hideFixedElements stickyAgent)).*1
  /\ forall i el,
       elements (page stickyAgent) !! i = Some el ->
       (fixedOrSticky el ->
        elements (page (hideFixedElements stickyAgent)) !! i
        = Some (setStyleVisibility "hidden" el)
        /\ (i, mkSavedStyle (el_styleVisibility el) (el_stylePosition el))
           ∈ originalStyles (hideFixedElements stickyAgent))
       /\ (~ fixedOrSticky el ->
           elements (page (hideFixedElements stickyAgent)) !! i = Some el
           /\ forall sv,
                (i, sv) ∉ originalStyles (hideFixedElements stickyAgent)).
Proof. apply (fixed_elements_hidden stickyAgent). reflexivity. Defined.

(** *** The progress bar *)




(** *** The metrics of [initCapture] *)

(** X14.  On a page whose root is an element of the document and that has a
    body, [initCapture] answers, and keeps the element the locator chose as
    its container.  When it answers, the root element and the container
    carry the inline overflow [hidden], and the full height and the visible
    height of the answer are the scroll height and the client height the
    browser gives the container for the page as the script has made it by
    then (the progress bar appended, the fixed elements hidden, the overflow
    written), which need not be those the locator saw.  The pixel ratio is
    the window's, and the offset is the one the container had before the
    script wrote anything.  On a page without a body [initCapture] throws in
    [createProgressBar]: there is no answer, and the page is as it was. *)
Theorem init_capture_metrics (browser : Browser) (doc : Document) :
  (documentElement doc < length (elements doc))%nat ->
  match body doc with
  | Some _ =>
      exists m,
        snd (initCapture browser (injected doc)) = Some m
        /\ scrollContainer (fst (initCapture browser (injected doc)))
           = Some (findScrollableElement doc)
        /\ (forall i,
              i = documentElement doc \/ i = findScrollableElement doc ->
              st_overflow
                <$> styled (page (fst (initCapture browser (injected doc))))
                    !! i
              = Some "hidden")
        /\ m_fullHeight m
           = inject_Z
               (el_scrollHeight
                  (laidOut browser
                     (styled (page (fst (initCapture browser
                                           (injected doc)))))
                     (findScrollableElement doc)))
        /\ m_visibleHeight m
           = inject_Z
               (el_clientHeight
                  (laidOut browser
                     (styled (page (fst (initCapture browser
                                           (injected doc)))))
                     (findScrollableElement doc)))
        /\ m_devicePixelRatio m = devicePixelRatio doc
        /\ m_originalScrollY m
           = scrollOffset doc (findScrollableElement doc)
  | None =>
      snd (initCapture browser (injected doc)) = None
      /\ page (fst (initCapture browser (injected doc))) = doc
  end.
Proof.
  intros Hroot.
  pose proof (container_in_document doc Hroot) as Hc.
  destruct (body doc) as [b|] eqn:Hbody;
    [|rewrite (initCapture_without_body browser doc Hbody);
      split; reflexivity].
  assert (Hsome : is_Some (body doc)) by (rewrite Hbody; eauto).
  pose proof (initCapture_eq browser doc Hsome) as Hinit. cbn zeta in Hinit.
  rewrite Hinit. cbn [fst snd page scrollContainer].
  set (c := findScrollableElement doc) in *.
  set (raw := overflowBoth "hidden" c _).
  assert (Hlen : forall i, (i < length (elements doc))%nat ->
            exists el, elements raw !! i
                       = Some (if Nat.eqb i (documentElement doc)
                                  || Nat.eqb i c
                               then inlineOverflow "hidden" el else el)).
  { intros i Hi. subst raw. rewrite overflowBoth_lookup.
    cbn [elements withElements documentElement].
    destruct (lookup_lt_is_Some_2
                (hideOne <$> elements doc ++ [barOf browser doc;
                                               fillOf browser doc]) i)
      as [el Hel];
      [rewrite length_fmap, length_app; lia|].
    rewrite Hel. exists el. reflexivity. }
  assert (Hlaid : elements (relayout browser raw) !! c
                  = relaid (laidOut browser (styled raw) c)
                      <$> elements raw !! c).
  { unfold relayout. cbn [elements withElements].
    rewrite list_lookup_imap. destruct (elements raw !! c); reflexivity. }
  destruct (Hlen c Hc) as (el & Hel).
  eexists. split; [reflexivity|].
  cbn [m_fullHeight m_visibleHeight m_devicePixelRatio m_originalScrollY].
  unfold scrollHeightOf.
  rewrite Hlaid, Hel, styled_relayout.
  cbn [fmap option_fmap option_map].
  split; [reflexivity|]. split; [|repeat split].
  intros i Hi. unfold styled at 1. rewrite list_lookup_fmap.
  destruct (Hlen i ltac:(destruct Hi as [->| ->]; assumption)) as (el' & ->).
  destruct Hi as [->| ->]; rewrite Nat.eqb_refl, ?orb_true_r; reflexivity.
Qed.

Lemma init_capture_metrics_example :
  exists m,
    snd (initCapture stickyBrowser (injected stickyPage)) = Some m
    /\ scrollContainer (fst (initCapture stickyBrowser (injected stickyPage)))
       = Some (findScrollableElement stickyPage)
    /\ (forall i,
          i = documentElement stickyPage
          \/ i = findScrollableElement stickyPage ->
          st_overflow
            <$> styled (page (fst (initCapture stickyBrowser
                                     (injected stickyPage)))) !! i
          = Some "hidden")
    /\ m_fullHeight m
       = inject_Z
           (el_scrollHeight
              (laidOut stickyBrowser
                 (styled (page (fst (initCapture stickyBrowser
                                       (injected stickyPage)))))
                 (findScrollableElement stickyPage)))
    /\ m_visibleHeight m
       = inject_Z
           (el_clientHeight
              (laidOut stickyBrowser
                 (styled (page (fst (initCapture stickyBrowser
                                       (injected stickyPage)))))
                 (findScrollableElement stickyPage)))
    /\ m_devicePixelRatio m = devicePixelRatio stickyPage
    /\ m_originalScrollY m
       = scrollOffset stickyPage (findScrollableElement stickyPage).
Proof.
  apply (init_capture_metrics stickyBrowser stickyPage). vm_compute. lia.
Defined.

(** *** Restoring twice *)

Lemma removeProgressBar_none (a : Agent) :
  progressBarContainer (removeProgressBar a) = None.
Proof.
  unfold removeProgressBar.
  destruct (progressBarContainer a) eqn:E; [reflexivity|exact E].
Qed.

Lemma removeProgressBar_absent (a : Agent) :
  progressBarContainer a = None -> removeProgressBar a = a.
Proof. intros H. unfold removeProgressBar. rewrite H. reflexivity. Qed.

Lemma removeProgressBar_keeps (a : Agent) :
  originalStyles (removeProgressBar a) = originalStyles a
  /\ scrollContainer (removeProgressBar a) = scrollContainer a.
Proof.
  unfold removeProgressBar.
  destruct (progressBarContainer a); split; reflexivity.
Qed.

(** The page [restorePage] leaves. *)
Lemma restorePage_page (browser : Browser) (y : Q) (a : Agent) :
  page (restorePage browser y a)
  = match scrollContainer a with
    | Some c =>
        scrollContainerTo browser y c
          (relayout browser
             (overflowBoth "" c
                (foldl replay (page (removeProgressBar a))
                       (originalStyles a))))
    | None =>
        relayout browser
          (update (inlineOverflow "")
             (documentElement (page a))
             (foldl replay (page (removeProgressBar a)) (originalStyles a)))
    end.
Proof.
  destruct (removeProgressBar_keeps a) as [Hstyles Hcontainer].
  unfold restorePage. cbn [page]. rewrite Hstyles, Hcontainer.
  assert (Hroot : documentElement
                    (foldl replay (page (removeProgressBar a))
                           (originalStyles a))
                  = documentElement (page a)).
  { rewrite replay_documentElement. unfold removeProgressBar.
    destruct (progressBarContainer a); reflexivity. }
  destruct (scrollContainer a) as [c|].
  - rewrite <- writeOverflowBoth_eq. reflexivity.
  - unfold setStyleOverflow. rewrite Hroot. reflexivity.
Qed.

(** X15.  A second [RESTORE] finds nothing left to restore: after a [RESTORE]
    the script and the page are as one [RESTORE] with the second offset leaves
    them, whatever the script's state was. *)
Theorem restore_twice (browser : Browser) (y y' : Q) (a : Agent) :
  restorePage browser y' (restorePage browser y a)
  = restorePage browser y' a.
Proof.
  assert (Hnone : progressBarContainer (restorePage browser y a) = None)
    by apply removeProgressBar_none.
  assert (Hpage : page (restorePage browser y' (restorePage browser y a))
                  = page (restorePage browser y' a)).
  { rewrite (restorePage_page browser y' (restorePage browser y a)),
      (restorePage_page browser y' a).
    rewrite (removeProgressBar_absent _ Hnone).
    change (originalStyles (restorePage browser y a))
      with (@nil (nat * SavedStyle)).
    change (scrollContainer (restorePage browser y a))
      with (scrollContainer (removeProgressBar a)).
    rewrite (proj2 (removeProgressBar_keeps a)).
    cbn [foldl]. rewrite (restorePage_page browser y a).
    destruct (scrollContainer a) as [c|].
    - unfold scrollContainerTo at 2.
      rewrite overflowBoth_scrollContainerAt, relayout_scrollContainerAt,
        scrollContainerTo_at.
      f_equal. apply relayout_eq.
      rewrite written_overflowBoth, written_relayout,
        <- written_overflowBoth, overflowBoth_twice.
      reflexivity.
    - change (documentElement (relayout browser ?d))
        with (documentElement d).
      rewrite documentElement_update, relayout_update
        by apply scriptWrite_overflow.
      rewrite replay_documentElement.
      assert (Hroot : documentElement (page (removeProgressBar a))
                      = documentElement (page a)).
      { unfold removeProgressBar.
        destruct (progressBarContainer a); reflexivity. }
      rewrite Hroot. f_equal. apply update_absorb. reflexivity. }
  change (restorePage browser y' (restorePage browser y a))
    with (mkAgent (page (restorePage browser y' (restorePage browser y a)))
            []
            (originalScrollY (removeProgressBar (restorePage browser y a)))
            (scrollContainer (removeProgressBar (restorePage browser y a)))
            (progressBarContainer
               (removeProgressBar (restorePage browser y a)))
            (progressBarFill (removeProgressBar (restorePage browser y a)))
            (progressBarWidth
               (removeProgressBar (restorePage browser y a)))).
  rewrite (removeProgressBar_absent _ Hnone), Hpage. reflexivity.
Qed.

(** *** The locator's answer can be used *)

(** X16.  On a page whose root is an element of the document, the locator
    returns an element of the document.  When this is an element that passed
    the filter, its computed [overflow-y] is [auto], [scroll] or [overlay],
    and its client box is at least half as wide and half as high as the
    window. *)
Theorem locator_result_is_usable (doc : Document) :
  (documentElement doc < length (elements doc))%nat ->
  exists el,
    elements doc !! findScrollableElement doc = Some el
    /\ (findScrollableElement doc ∈ survivors doc ->
        el_overflowY el ∈ ["auto"; "scroll"; "overlay"]
        /\ (inject_Z (innerWidth doc) * (1 # 2)
            <= inject_Z (el_clientWidth el))%Q
        /\ (inject_Z (innerHeight doc) * (1 # 2)
            <= inject_Z (el_clientHeight el))%Q).
Proof.
  intros Hroot.
  assert (Hc : (findScrollableElement doc < length (elements doc))%nat).
  { destruct (locator_result_cases doc) as [(el & Hel)|Hfallback].
    - apply (lookup_lt_Some _ _ _ Hel).
    - rewrite Hfallback. exact Hroot. }
  destruct (lookup_lt_is_Some_2 _ _ Hc) as [el Hel].
  exists el. split; [exact Hel|].
  intros Hin. apply survivors_spec in Hin.
  destruct Hin as (el' & Hel' & Hcand).
  rewrite Hel in Hel'. injection Hel' as <-.
  unfold isCandidate in Hcand.
  destruct (Js.lt (inject_Z (el_clientWidth el)) _) eqn:Hw;
    [discriminate Hcand|].
  destruct (Js.lt (inject_Z (el_clientHeight el)) _) eqn:Hh;
    [discriminate Hcand|].
  cbn [orb] in Hcand. apply andb_true_iff in Hcand.
  destruct Hcand as [_ Hs]. unfold isScrollable in Hs.
  apply andb_true_iff in Hs. destruct Hs as [Hs _].
  apply bool_decide_eq_true in Hs.
  split; [exact Hs|].
  split; apply Qnot_lt_le; intros Hlt; apply JsFacts.lt_spec in Hlt;
    congruence.
Qed.

Lemma locator_result_is_usable_example :
  exists el,
    elements (twoPanels 1000 5000)
      !! findScrollableElement (twoPanels 1000 5000) = Some el
    /\ (findScrollableElement (twoPanels 1000 5000)
          ∈ survivors (twoPanels 1000 5000) ->
        el_overflowY el ∈ ["auto"; "scroll"; "overlay"]
        /\ (inject_Z (innerWidth (twoPanels 1000 5000)) * (1 # 2)
            <= inject_Z (el_clientWidth el))%Q
        /\ (inject_Z (innerHeight (twoPanels 1000 5000)) * (1 # 2)
            <= inject_Z (el_clientHeight el))%Q).
Proof.
  apply (locator_result_is_usable (twoPanels 1000 5000)). vm_compute. lia.
Defined.

End AgentCoverage.

(** ** result.js: the download *)

Module Download.

(** [s.replace(/[:.]/g, '-')] *)
Fixpoint replaceColonsAndDots (s : string) : string :=
  match s with
  | EmptyString => EmptyString
  | String c rest =>
      String (if Ascii.eqb c ":" || Ascii.eqb c "." then "-"%char else c)
             (replaceColonsAndDots rest)
  end.

(** [`screenshot-${timestamp}.png`], from [new Date().toISOString()]. *)
Definition filenameAt (isoString : string) : string :=
  let timestamp := replaceColonsAndDots isoString in
  String.append "screenshot-" (String.append timestamp ".png").

(** What the click handler does to the outside. *)
Inductive DownloadEvent :=
| ConsoleError                                  (* console.error(...) *)
| AlertFailed                                   (* alert(...) *)
| CreateObjectURL
| DownloadRequest (filename : string) (saveAs : bool).

(** The click handler of the download button: [blob] says whether
    [canvas.toBlob] produced a blob, [isoString] is the time of the click,
    [lastError] whether [chrome.downloads.download] failed. *)
Definition onDownloadClick (blob : bool) (isoString : string)
           (lastError : bool) : list DownloadEvent :=
  if blob then
    [CreateObjectURL; DownloadRequest (filenameAt isoString) true]
      ++ (if lastError then [ConsoleError; AlertFailed] else [])
  else [ConsoleError; AlertFailed].

End Download.

Module DownloadFacts.

Import Download.

Lemma chars_append (s1 s2 : string) :
  list_ascii_of_string (String.append s1 s2)
  = list_ascii_of_string s1 ++ list_ascii_of_string s2.
Proof.
  induction s1 as [|c s1 IH]; [reflexivity|].
  simpl. f_equal. exact IH.
Qed.

Lemma chars_replaced (s : string) :
  list_ascii_of_string (replaceColonsAndDots s)
  = (fun c => if Ascii.eqb c ":" || Ascii.eqb c "." then "-"%char else c)
      <$> list_ascii_of_string s.
Proof.
  induction s as [|c s IH]; [reflexivity|].
  simpl. f_equal. exact IH.
Qed.

Lemma replaced_clean (s : string) (c : Ascii.ascii) :
  c ∈ list_ascii_of_string (replaceColonsAndDots s) ->
  c <> ":"%char /\ c <> "."%char.
Proof.
  rewrite chars_replaced. intros Hin. apply list_elem_of_fmap in Hin.
  destruct Hin as (x & -> & _).
  destruct (Ascii.eqb x ":") eqn:E1; [split; discriminate|].
  destruct (Ascii.eqb x ".") eqn:E2; [split; discriminate|].
  cbn [orb]. apply Ascii.eqb_neq in E1, E2. auto.
Qed.

Lemma chars_length (s : string) :
  length (list_ascii_of_string s) = String.length s.
Proof. induction s as [|c s IH]; [reflexivity|]. cbn. rewrite IH. reflexivity. Qed.

(** X17.  The name under which the composite is saved has no colon, and its
    only dot is the one of the extension: it is [screenshot-], the time of the
    click with every colon and dot replaced by a hyphen and every other
    character kept, and [.png].  The download is requested with the save-as
    dialog, and not at all when the canvas gave no blob. *)
Theorem download_filename (isoString : string) :
  let name := list_ascii_of_string (filenameAt isoString) in
  let stamp := list_ascii_of_string isoString in
  length name = (11 + length stamp + 4)%nat
  /\ take 11 name = list_ascii_of_string "screenshot-"
  /\ drop (11 + length stamp) name = list_ascii_of_string ".png"
  /\ (":"%char ∉ name)
  /\ (forall i, name !! i = Some "."%char -> i = (11 + length stamp)%nat)
  /\ (forall i c, stamp !! i = Some c ->
        name !! (11 + i)%nat
        = Some (if Ascii.eqb c ":" || Ascii.eqb c "." then "-"%char else c))
  /\ (forall lastError e,
        e ∈ onDownloadClick true isoString lastError ->
        forall filename saveAs,
          e = DownloadRequest filename saveAs ->
          filename = filenameAt isoString /\ saveAs = true)
  /\ (forall lastError filename saveAs,
        DownloadRequest filename saveAs
          ∉ onDownloadClick false isoString lastError).
Proof.
  intros name stamp. subst name stamp. unfold filenameAt.
  rewrite !chars_append, chars_replaced.
  set (repl := fun c => if Ascii.eqb c ":" || Ascii.eqb c "." then "-"%char
                        else c).
  set (stamp := list_ascii_of_string isoString).
  change (list_ascii_of_string "screenshot-")
    with ["s"; "c"; "r"; "e"; "e"; "n"; "s"; "h"; "o"; "t"; "-"]%char.
  change (list_ascii_of_string ".png") with ["."; "p"; "n"; "g"]%char.
  set (pre := ["s"; "c"; "r"; "e"; "e"; "n"; "s"; "h"; "o"; "t"; "-"]%char).
  set (suf := ["."; "p"; "n"; "g"]%char).
  assert (Hpre : length pre = 11%nat) by reflexivity.
  assert (Hmid : length (repl <$> stamp) = length stamp)
    by apply length_fmap.
  assert (Hclean : forall c, c ∈ repl <$> stamp ->
                             c <> ":"%char /\ c <> "."%char).
  { intros c Hc. apply (replaced_clean isoString c).
    rewrite chars_replaced. exact Hc. }
  split; [rewrite !length_app, Hmid; reflexivity|].
  split; [rewrite take_app_length' by exact Hpre; reflexivity|].
  split.
  { rewrite app_assoc, drop_app_length'; [reflexivity|].
    rewrite length_app, Hmid. reflexivity. }
  split.
  { intros Hin. apply elem_of_app in Hin. destruct Hin as [Hin|Hin].
    - apply list_elem_of_In in Hin. cbn in Hin. intuition discriminate.
    - apply elem_of_app in Hin. destruct Hin as [Hin|Hin].
      + destruct (Hclean _ Hin) as [H _]. congruence.
      + apply list_elem_of_In in Hin. cbn in Hin. intuition discriminate. }
  split.
  { intros i Hi. apply lookup_app_Some in Hi. destruct Hi as [Hi|[Hle Hi]].
    - apply list_elem_of_lookup_2, list_elem_of_In in Hi. cbn in Hi.
      intuition discriminate.
    - apply lookup_app_Some in Hi. destruct Hi as [Hi|[Hle' Hi]].
      + apply list_elem_of_lookup_2 in Hi.
        destruct (Hclean _ Hi) as [_ H]. congruence.
      + rewrite Hpre, Hmid in *.
        destruct (i - 11 - length stamp)%nat as [|[|[|[|k]]]] eqn:Ek;
          try discriminate Hi. lia. }
  split.
  { intros i c Hi. rewrite lookup_app_r by (rewrite Hpre; lia).
    rewrite Hpre. replace (11 + i - 11)%nat with i by lia.
    rewrite lookup_app_l by (rewrite Hmid; apply (lookup_lt_Some _ _ _ Hi)).
    rewrite list_lookup_fmap, Hi. reflexivity. }
  split.
  { intros lastError e Hin filename saveAs ->.
    unfold onDownloadClick in Hin. apply list_elem_of_In in Hin.
    destruct lastError; cbn in Hin;
      repeat (destruct Hin as [Hin|Hin]; [try discriminate Hin|]);
      try contradiction; injection Hin as <- <-; split; reflexivity. }
  intros lastError filename saveAs Hin.
  apply list_elem_of_In in Hin. cbn in Hin. intuition discriminate.
Qed.

(** The name for a click at 10:30:45.123 on 15 January 2024. *)
Lemma download_filename_example :
  filenameAt "2024-01-15T10:30:45.123Z"
  = "screenshot-2024-01-15T10-30-45-123Z.png".
Proof. reflexivity. Qed.

End DownloadFacts.
